(** * nodepp/graphql.h: the query parser, the executor and the projector

    A shallow embedding of [nodepp::graphql] (struct [FieldSelection],
    struct [ParsedQuery], class [detail::GraphQLParser], class [Schema])
    and the properties of it that the specification states.

    Conventions.
    - [nlohmann::json] is the inductive [json]; its object payload is a
      [std::map<std::string, json>], modelled by [gmap string json]
      (unique keys, [operator[]=] inserts or overwrites).
    - [std::unordered_map<std::string, Resolver>] is [gmap string Resolver].
    - The parser's cursor ([source_], [pos_]) is the record [Parser]: the
      unread suffix of [source_] together with [pos_].
    - A C++ exception is a value of [exception]; a function that may throw
      returns a [result].
    - [std::stod] and the [double] it produces belong to the C++ library,
      not to the repository: they are parameters of the development. *)

From stdpp Require Import gmap strings list fin_maps.
From Stdlib Require Import ZArith Ascii String DecimalString.

#[local] Set Warnings "-register-all".
#[local] Open Scope Z_scope.
#[local] Open Scope string_scope.
#[local] Open Scope list_scope.

(** ** Exceptions *)

(** Every exception the engine meets derives from [std::exception]; the
    constructors keep the class, [what] is the text of [e.what()]. The
    conversions of libstdc++ report the name of the function. *)
Inductive exception : Type :=
  | runtime_error (msg : string)
  | invalid_argument (msg : string)
  | out_of_range (msg : string).

Definition what (e : exception) : string :=
  match e with
  | runtime_error msg | invalid_argument msg | out_of_range msg => msg
  end.

(** ** Characters and strings *)

Definition NUL : ascii := "000"%char.

(** The double quote. *)
Definition DQUOTE : ascii := "034"%char.

Definition char_in (lo hi c : ascii) : bool :=
  (nat_of_ascii lo <=? nat_of_ascii c)%nat && (nat_of_ascii c <=? nat_of_ascii hi)%nat.

Definition isDigit (c : ascii) : bool := char_in "0" "9" c.

(** [s += c] *)
Definition push_back (s : string) (c : ascii) : string := s +:+ String c "".

(** [std::to_string(pos_)] *)
Definition to_string (n : nat) : string := NilZero.string_of_uint (Nat.to_uint n).

(** ** std::stoi (host [int] of 32 bits) *)

Definition INT_MAX : Z := 2147483647.
Definition INT_MIN : Z := -2147483648.

Definition digit_value (c : ascii) : Z := Z.of_nat (nat_of_ascii c) - 48.

(** The longest prefix of digits read as a decimal number, with the number
    of digits read. *)
Fixpoint read_digits (s : string) (acc : Z) (count : nat) : Z * nat :=
  match s with
  | String c s' =>
      if isDigit c then read_digits s' (10 * acc + digit_value c) (S count)
      else (acc, count)
  | EmptyString => (acc, count)
  end.

(** [std::stoi(s)]: an optional sign, then digits; [std::invalid_argument]
    when no digit can be read, [std::out_of_range] when the number does not
    fit [int]. (The strings [parseNumber] builds carry no white space.) *)
Definition stoi (s : string) : exception + Z :=
  let '(neg, body) :=
    match s with
    | String "-" s' => (true, s')
    | String "+" s' => (false, s')
    | _ => (false, s)
    end in
  let '(n, count) := read_digits body 0 0%nat in
  if (count =? 0)%nat then inl (invalid_argument "stoi")
  else
    let v := if neg then - n else n in
    if ((INT_MIN <=? v) && (v <=? INT_MAX))%Z then inr v
    else inl (out_of_range "stoi").

(** ** A stand-in for the library's [double]

    The decimal literal itself, kept exactly; [decimal_stod] accepts what
    [strtod] accepts among the strings [parseNumber] builds (a sign, digits,
    a point, digits, with at least one digit) and never reports a range
    error. It instantiates the parameters [double] and [stod] wherever the
    model is run on a concrete query. *)
Record decimal : Type := Decimal {
  dec_negative : bool;
  dec_integral : string;
  dec_fraction : string
}.

Fixpoint span_digits (s : string) : string * string :=
  match s with
  | String c s' =>
      if isDigit c then let '(ds, r) := span_digits s' in (String c ds, r)
      else ("", s)
  | EmptyString => ("", "")
  end.

Definition decimal_stod (s : string) : exception + decimal :=
  let '(neg, body) :=
    match s with
    | String "-" s' => (true, s')
    | String "+" s' => (false, s')
    | _ => (false, s)
    end in
  let '(ip, r) := span_digits body in
  let fp := match r with String "." r' => fst (span_digits r') | _ => "" end in
  if (String.length ip + String.length fp =? 0)%nat
  then inl (invalid_argument "stod")
  else inr (Decimal neg ip fp).

(** ** Values, the syntax tree and the cursor *)

Section Engine.

Context {double : Type}.

(** [std::stod]: the number read, or the exception thrown. *)
Variable stod : string → exception + double.

(** [nlohmann::json] *)
Inductive json : Type :=
  | JNull
  | JBool (b : bool)
  | JInt (n : Z)
  | JFloat (d : double)
  | JString (s : string)
  | JArray (elements : list json)
  | JObject (members : gmap string json).

Definition is_object (j : json) : bool :=
  match j with JObject _ => true | _ => false end.

Definition is_array (j : json) : bool :=
  match j with JArray _ => true | _ => false end.

Definition array_elements (j : json) : list json :=
  match j with JArray elements => elements | _ => [] end.

(** [struct FieldSelection]. [alias] is empty when the query gives none.
    [parseField] assigns an object to [arguments] on both of its branches,
    and nothing else builds a [FieldSelection]: the field holds the members
    of that object. *)
Inductive FieldSelection : Type := mkFieldSelection {
  name : string;
  alias : string;
  arguments : gmap string json;
  selections : list FieldSelection
}.

(** [struct ParsedQuery]; its member [selections] is [top_selections]. *)
Record ParsedQuery : Type := mkParsedQuery {
  operationType : string;
  operationName : string;
  top_selections : list FieldSelection
}.

(** The cursor of [GraphQLParser]: [rest] is [source_] from [pos_] on. *)
Record Parser : Type := mkParser {
  rest : string;
  pos_ : nat
}.

Definition remaining (p : Parser) : nat := String.length (rest p).

(** What a member function of the parser does: it returns a value and moves
    the cursor, or throws. [OutOfFuel] is the embedding's own: recursion is
    bounded by a counter. *)
Inductive result (A : Type) : Type :=
  | Ok (a : A) (p : Parser)
  | Throw (e : exception)
  | OutOfFuel.
#[global] Arguments Ok {A} a p.
#[global] Arguments Throw {A} e.
#[global] Arguments OutOfFuel {A}.

Definition M (A : Type) : Type := Parser → result A.

#[local] Instance M_ret : MRet M := λ A a p, Ok a p.
#[local] Instance M_bind : MBind M := λ A B f m p,
  match m p with
  | Ok a p' => f a p'
  | Throw e => Throw e
  | OutOfFuel => OutOfFuel
  end.

Definition throw {A} (e : exception) : M A := λ _, Throw e.
Definition out_of_fuel {A} : M A := λ _, OutOfFuel.
Definition get_pos : M nat := λ p, Ok (pos_ p) p.

(** ** The scanner *)

Definition peek : M ascii := λ p,
  Ok (match rest p with String c _ => c | EmptyString => NUL end) p.

Definition advance : M ascii := λ p,
  match rest p with
  | String c s => Ok c (mkParser s (S (pos_ p)))
  | EmptyString => Ok NUL p
  end.

Definition isSpace (c : ascii) : bool :=
  Ascii.eqb c " " || Ascii.eqb c "009" || Ascii.eqb c "010"
  || Ascii.eqb c "013" || Ascii.eqb c ",".

Fixpoint skipWhitespace_loop (s : string) (pos : nat) : Parser :=
  match s with
  | String c s' =>
      if isSpace c then skipWhitespace_loop s' (S pos) else mkParser s pos
  | EmptyString => mkParser s pos
  end.

Definition skipWhitespace : M unit := λ p,
  Ok tt (skipWhitespace_loop (rest p) (pos_ p)).

Definition expect (c : ascii) : M unit :=
  skipWhitespace;;
  a ← advance;
  if Ascii.eqb a c then mret tt
  else
    pos ← get_pos;
    throw (runtime_error
             ("Expected '" +:+ String c "" +:+ "' at position " +:+ to_string pos)).

(** The loop of [skipBalanced]; [depth] is the C++ [int]. *)
Fixpoint skipBalanced_loop (open close : ascii) (depth : Z) (s : string) (pos : nat)
  : Parser :=
  match s with
  | String c s' =>
      if (0 <? depth)%Z then
        let depth := if Ascii.eqb c open then (depth + 1)%Z else depth in
        let depth := if Ascii.eqb c close then (depth - 1)%Z else depth in
        skipBalanced_loop open close depth s' (S pos)
      else mkParser s pos
  | EmptyString => mkParser s pos
  end.

Definition skipBalanced_while (open close : ascii) (depth : Z) : M unit := λ p,
  Ok tt (skipBalanced_loop open close depth (rest p) (pos_ p)).

Definition skipBalanced (open close : ascii) : M unit :=
  expect open;;
  skipBalanced_while open close 1.

Definition isIdentChar (c : ascii) : bool :=
  char_in "a" "z" c || char_in "A" "Z" c || char_in "0" "9" c || Ascii.eqb c "_".

(** [while (ok(peek())) acc += advance();], the loop of [parseIdentifier]
    and of the digit runs of [parseNumber]; neither test holds of the NUL
    that [peek] gives at the end of the text. *)
Fixpoint scan (ok : ascii → bool) (s : string) (pos : nat) (acc : string)
  : string * Parser :=
  match s with
  | String c s' =>
      if ok c then scan ok s' (S pos) (push_back acc c) else (acc, mkParser s pos)
  | EmptyString => (acc, mkParser s pos)
  end.

Definition scan_while (ok : ascii → bool) (acc : string) : M string := λ p,
  let '(acc, p') := scan ok (rest p) (pos_ p) acc in Ok acc p'.

Definition parseIdentifier : M string :=
  skipWhitespace;;
  result ← scan_while isIdentChar "";
  if String.eqb result "" then
    pos ← get_pos;
    throw (runtime_error ("Expected identifier at position " +:+ to_string pos))
  else mret result.

Definition unescape (esc : ascii) : ascii :=
  if Ascii.eqb esc "n" then "010"%char
  else if Ascii.eqb esc "t" then "009"%char
  else esc.

(** The loop of [parseString]. A backslash that ends the text makes the
    second [advance] return NUL without moving. *)
Fixpoint parseString_loop (s : string) (pos : nat) (result : string)
  : string * Parser :=
  match s with
  | String c s' =>
      if Ascii.eqb c DQUOTE || Ascii.eqb c NUL then (result, mkParser s pos)
      else if Ascii.eqb c "\" then
        match s' with
        | String esc s'' =>
            parseString_loop s'' (S (S pos)) (push_back result (unescape esc))
        | EmptyString => (push_back result NUL, mkParser s' (S pos))
        end
      else parseString_loop s' (S pos) (push_back result c)
  | EmptyString => (result, mkParser s pos)
  end.

Definition parseString_while (result : string) : M string := λ p,
  let '(result, p') := parseString_loop (rest p) (pos_ p) result in Ok result p'.

Definition parseString : M string :=
  expect DQUOTE;;
  result ← parseString_while "";
  expect DQUOTE;;
  mret result.

Definition parseNumber : M json :=
  skipWhitespace;;
  c ← peek;
  numStr ← (if Ascii.eqb c "-" then a ← advance; mret (push_back "" a) else mret "");
  numStr ← scan_while isDigit numStr;
  c ← peek;
  if Ascii.eqb c "." then
    a ← advance;
    numStr ← scan_while isDigit (push_back numStr a);
    match stod numStr with
    | inr d => mret (JFloat d)
    | inl e => throw e
    end
  else
    match stoi numStr with
    | inr n => mret (JInt n)
    | inl e => throw e
    end.

Definition parseBool : M json :=
  word ← parseIdentifier;
  mret (JBool (String.eqb word "true")).

Definition parseNull : M json :=
  parseIdentifier;;
  mret JNull.

(** ** The recursive parsers

    [parseValue], [parseObjectValue] and [parseArrayValue] call one another,
    and so do [parseField] and [parseSelectionSet]. The counter [fuel]
    bounds the calls still allowed; the loops take the parser they call in
    their body as an argument. [fuel_suffices] below shows that a counter
    above the length of the unread text is never used up. *)

(** [while (peek() != close) { key = parseIdentifier(); expect(':');
    obj[key] = parseValue(); skipWhitespace(); }], the loop of
    [parseObjectValue] (close brace) and of [parseArguments] (close
    parenthesis). *)
Fixpoint members_loop (parseValue : M json) (close : ascii) (fuel : nat)
    (obj : gmap string json) : M (gmap string json) :=
  match fuel with
  | O => out_of_fuel
  | S fuel =>
      c ← peek;
      if Ascii.eqb c close then mret obj
      else
        key ← parseIdentifier;
        expect ":";;
        v ← parseValue;
        skipWhitespace;;
        members_loop parseValue close fuel (<[key := v]> obj)
  end.

Fixpoint elements_loop (parseValue : M json) (fuel : nat) (arr : list json)
  : M (list json) :=
  match fuel with
  | O => out_of_fuel
  | S fuel =>
      c ← peek;
      if Ascii.eqb c "]" then mret arr
      else
        v ← parseValue;
        skipWhitespace;;
        elements_loop parseValue fuel (arr ++ [v])
  end.

Definition parseObjectValue (parseValue : M json) (fuel : nat) : M json :=
  expect "{";;
  skipWhitespace;;
  obj ← members_loop parseValue "}" fuel ∅;
  expect "}";;
  mret (JObject obj).

Definition parseArrayValue (parseValue : M json) (fuel : nat) : M json :=
  expect "[";;
  skipWhitespace;;
  arr ← elements_loop parseValue fuel [];
  expect "]";;
  mret (JArray arr).

Fixpoint parseValue (fuel : nat) : M json :=
  match fuel with
  | O => out_of_fuel
  | S fuel =>
      skipWhitespace;;
      c ← peek;
      if Ascii.eqb c DQUOTE then s ← parseString; mret (JString s)
      else if Ascii.eqb c "-" || isDigit c then parseNumber
      else if Ascii.eqb c "t" || Ascii.eqb c "f" then parseBool
      else if Ascii.eqb c "n" then parseNull
      else if Ascii.eqb c "{" then parseObjectValue (parseValue fuel) fuel
      else if Ascii.eqb c "[" then parseArrayValue (parseValue fuel) fuel
      else ident ← parseIdentifier; mret (JString ident)
  end.

Definition parseArguments (fuel : nat) : M (gmap string json) :=
  expect "(";;
  skipWhitespace;;
  args ← members_loop (parseValue fuel) ")" fuel ∅;
  expect ")";;
  mret args.

Fixpoint fields_loop (parseField : M FieldSelection) (fuel : nat)
    (sels : list FieldSelection) : M (list FieldSelection) :=
  match fuel with
  | O => out_of_fuel
  | S fuel =>
      c ← peek;
      if negb (Ascii.eqb c "}") && negb (Ascii.eqb c NUL) then
        field ← parseField;
        skipWhitespace;;
        fields_loop parseField fuel (sels ++ [field])
      else mret sels
  end.

Definition parseSelectionSet (parseField : M FieldSelection) (fuel : nat)
  : M (list FieldSelection) :=
  expect "{";;
  skipWhitespace;;
  sels ← fields_loop parseField fuel [];
  expect "}";;
  mret sels.

Fixpoint parseField (fuel : nat) : M FieldSelection :=
  match fuel with
  | O => out_of_fuel
  | S fuel =>
      nameOrAlias ← parseIdentifier;
      skipWhitespace;;
      c ← peek;
      '(field_alias, field_name) ←
        (if Ascii.eqb c ":" then
           advance;;
           n ← parseIdentifier;
           skipWhitespace;;
           mret (nameOrAlias, n)
         else mret ("", nameOrAlias));
      c ← peek;
      args ← (if Ascii.eqb c "(" then parseArguments (S fuel) else mret ∅);
      skipWhitespace;;
      c ← peek;
      sels ← (if Ascii.eqb c "{" then parseSelectionSet (parseField fuel) fuel
              else mret []);
      mret (mkFieldSelection field_name field_alias args sels)
  end.

Definition parse_header : M (string * string) :=
  skipWhitespace;;
  c ← peek;
  if Ascii.eqb c "{" then mret ("query", "")
  else
    keyword ← parseIdentifier;
    opType ←
      (if String.eqb keyword "query" then mret "query"
       else if String.eqb keyword "mutation" then mret "mutation"
       else throw (runtime_error
                     ("Expected 'query' or 'mutation', got '" +:+ keyword +:+ "'")));
    skipWhitespace;;
    c ← peek;
    opName ←
      (if negb (Ascii.eqb c "{") && negb (Ascii.eqb c "(") then
         n ← parseIdentifier; skipWhitespace;; mret n
       else mret "");
    c ← peek;
    (if Ascii.eqb c "(" then skipBalanced "(" ")";; skipWhitespace else mret tt);;
    mret (opType, opName).

(** [GraphQLParser::parse]: the operation header, then the selection set. *)
Definition parse (fuel : nat) : M ParsedQuery :=
  '(opType, opName) ← parse_header;
  sels ← parseSelectionSet (parseField fuel) fuel;
  mret (mkParsedQuery opType opName sels).

(** [GraphQLParser parser(queryStr); parser.parse()] *)
Definition parse_query (fuel : nat) (queryStr : string) : result ParsedQuery :=
  parse fuel (mkParser queryStr 0).

(** ** Resolvers and the schema *)

(** What a call of a resolver does: it returns a value, throws an exception
    derived from [std::exception] whose [what()] is [msg], or throws
    something else. *)
Inductive outcome : Type :=
  | Returns (v : json)
  | Throws (msg : string)
  | ThrowsOther.

(** [std::function<JsonValue(JsonValue args, JsonValue context)>];
    [JsonValue] wraps a [json] and [raw()] unwraps it. *)
Definition Resolver : Type := json → json → outcome.

Record Schema : Type := mkSchema {
  queryResolvers_ : gmap string Resolver;
  mutationResolvers_ : gmap string Resolver
}.

Definition query (name : string) (resolver : Resolver) (s : Schema) : Schema :=
  mkSchema (<[name := resolver]> (queryResolvers_ s)) (mutationResolvers_ s).

Definition mutation (name : string) (resolver : Resolver) (s : Schema) : Schema :=
  mkSchema (queryResolvers_ s) (<[name := resolver]> (mutationResolvers_ s)).

(** ** The projector, [Schema::filterFields] *)

(** [source.contains(key) ? source[key] : absent]; [contains] is false of
    anything but an object. *)
Definition find_member (source : json) (key : string) : option json :=
  match source with
  | JObject m => m !! key
  | _ => None
  end.

Definition response_key (sel : FieldSelection) : string :=
  if String.eqb (alias sel) "" then name sel else alias sel.

Definition has_selections (sel : FieldSelection) : bool :=
  match selections sel with [] => false | _ => true end.

(** One turn of the loop of [filterFields], for the selection [sel]. The
    calls of [filterFields] on [sel.selections] start from an empty
    object. *)
Fixpoint filterField (sel : FieldSelection) (source : json)
    (target : gmap string json) : gmap string json :=
  let nested (src : json) : gmap string json :=
    foldl (λ tgt s, filterField s src tgt) ∅ (selections sel) in
  match find_member source (name sel) with
  | Some v =>
      if has_selections sel && is_object v then
        <[response_key sel := JObject (nested v)]> target
      else if has_selections sel && is_array v then
        <[response_key sel :=
            JArray (map (λ item, if is_object item then JObject (nested item)
                                 else item) (array_elements v))]> target
      else <[response_key sel := v]> target
  | None => target
  end.

Definition filterFields (source : json) (selections : list FieldSelection)
    (target : gmap string json) : gmap string json :=
  foldl (λ tgt sel, filterField sel source tgt) target selections.

(** ** The executor, [Schema::execute] *)

(** [variables.items()]: the members of an object, the elements of an
    array under their index, nothing for null, and the value itself under
    the empty key for any other value. The keys are distinct, so that the
    order of the walk does not show in [mergeArguments]
    (see [mergeArguments_lookup]). *)
Definition items (j : json) : list (string * json) :=
  match j with
  | JObject m => map_to_list m
  | JArray l => imap (λ i v, (to_string i, v)) l
  | JNull => []
  | _ => [("", j)]
  end.

(** [for (auto& [key, value] : variables.items())
       if (!args.contains(key)) args[key] = value;] *)
Definition mergeArguments (args : gmap string json) (variables : json)
  : gmap string json :=
  foldl (λ args kv, match args !! kv.1 with
                    | Some _ => args
                    | None => <[kv.1 := kv.2]> args
                    end) args (items variables).

(** The state of one call of [execute]: the two accumulators of the loop,
    and the resolver calls made so far (field name, arguments, context), in
    order. *)
Record Execution : Type := mkExecution {
  data : gmap string json;
  errors : list json;
  invoked : list (string * json * json)
}.

Definition unknown_field_error (field_name opType : string) : json :=
  JObject (<["message" := JString ("Cannot query field '" +:+ field_name
                                   +:+ "' on type '" +:+ opType +:+ "'")]>
          (<["locations" := JArray []]>
          (<["path" := JArray [JString field_name]]> ∅))).

Definition resolver_error (msg field_name : string) : json :=
  JObject (<["message" := JString msg]>
          (<["path" := JArray [JString field_name]]> ∅)).

(** The body of [for (auto& field : parsed.selections)]. [None]: the
    resolver threw something that is no [std::exception], which neither
    handler of [execute] catches. *)
Definition execute_field (resolvers : gmap string Resolver) (opType : string)
    (variables context : json) (field : FieldSelection) (st : Execution)
  : option Execution :=
  match resolvers !! name field with
  | None =>
      Some (mkExecution (data st)
              (errors st ++ [unknown_field_error (name field) opType])
              (invoked st))
  | Some resolver =>
      let args := JObject (mergeArguments (arguments field) variables) in
      let calls := invoked st ++ [(name field, args, context)] in
      match resolver args context with
      | Returns resultJson =>
          let resultJson :=
            if has_selections field && is_object resultJson
            then JObject (filterFields resultJson (selections field) ∅)
            else resultJson in
          Some (mkExecution (<[response_key field := resultJson]> (data st))
                  (errors st) calls)
      | Throws msg =>
          Some (mkExecution (<[name field := JNull]> (data st))
                  (errors st ++ [resolver_error msg (name field)])
                  calls)
      | ThrowsOther => None
      end
  end.

Fixpoint execute_fields (resolvers : gmap string Resolver) (opType : string)
    (variables context : json) (fields : list FieldSelection) (st : Execution)
  : option Execution :=
  match fields with
  | [] => Some st
  | field :: fields =>
      match execute_field resolvers opType variables context field st with
      | Some st => execute_fields resolvers opType variables context fields st
      | None => None
      end
  end.

(** [{{"data", data}}], with [errors] added when there are some. *)
Definition response (st : Execution) : json :=
  let r : gmap string json := {[ "data" := JObject (data st) ]} in
  JObject (match errors st with
           | [] => r
           | _ => <["errors" := JArray (errors st)]> r
           end).

(** What the outer handler returns. *)
Definition parse_error_response (e : exception) : json :=
  JObject (<["data" := JNull]>
          (<["errors" :=
               JArray [JObject {[ "message" := JString ("Parse error: " +:+ what e) ]}]]>
           ∅)).

(** What a call of [execute] comes to: the envelope it returns, with the
    resolver calls it made; an exception that leaves [execute]; or the
    embedding's counter used up. *)
Inductive reply : Type :=
  | Response (envelope : json) (calls : list (string * json * json))
  | Propagated
  | Unfinished.

Definition execute_with (fuel : nat) (schema : Schema) (queryStr : string)
    (variables context : json) : reply :=
  match parse_query fuel queryStr with
  | Ok parsed _ =>
      let resolvers :=
        if String.eqb (operationType parsed) "mutation"
        then mutationResolvers_ schema else queryResolvers_ schema in
      match execute_fields resolvers (operationType parsed) variables context
              (top_selections parsed) (mkExecution ∅ [] []) with
      | Some st => Response (response st) (invoked st)
      | None => Propagated
      end
  | Throw e => Response (parse_error_response e) []
  | OutOfFuel => Unfinished
  end.

Definition execute (schema : Schema) (queryStr : string) (variables context : json)
  : reply :=
  execute_with (S (String.length queryStr)) schema queryStr variables context.

End Engine.

#[global] Arguments JNull {double}.
#[global] Arguments Throws {double} msg.
#[global] Arguments ThrowsOther {double}.

(** [j.is_null()] and the choice between a member and a default. *)
Definition is_null {double : Type} (j : @json double) : bool :=
  match j with JNull => true | _ => false end.

Definition default_member {double : Type} (default : @json double)
    (member : option (@json double)) : @json double :=
  match member with Some v => v | None => default end.

(** ** Well-formed UTF-8

    [nlohmann::json::dump] decodes every string and every key that it
    writes, and with its default error handler throws a [type_error] (316)
    at a byte that cannot continue a well-formed UTF-8 sequence, and at the
    end of a string that stops inside one. The sequences it accepts: *)
Definition byte_in (lo hi : N) (c : ascii) : bool :=
  ((lo <=? N_of_ascii c) && (N_of_ascii c <=? hi))%N.

(** The ranges of the bytes that have to follow the first byte [c] of a
    code point; none when [c] cannot start one. *)
Definition utf8_lead (c : ascii) : option (list (N * N)) :=
  (if byte_in 0x00 0x7F c then Some []
   else if byte_in 0xC2 0xDF c then Some [(0x80, 0xBF)]
   else if byte_in 0xE0 0xE0 c then Some [(0xA0, 0xBF); (0x80, 0xBF)]
   else if byte_in 0xE1 0xEC c then Some [(0x80, 0xBF); (0x80, 0xBF)]
   else if byte_in 0xED 0xED c then Some [(0x80, 0x9F); (0x80, 0xBF)]
   else if byte_in 0xEE 0xEF c then Some [(0x80, 0xBF); (0x80, 0xBF)]
   else if byte_in 0xF0 0xF0 c then Some [(0x90, 0xBF); (0x80, 0xBF); (0x80, 0xBF)]
   else if byte_in 0xF1 0xF3 c then Some [(0x80, 0xBF); (0x80, 0xBF); (0x80, 0xBF)]
   else if byte_in 0xF4 0xF4 c then Some [(0x80, 0x8F); (0x80, 0xBF); (0x80, 0xBF)]
   else None)%N.

Fixpoint utf8_decode (pending : list (N * N)) (s : string) : bool :=
  match s with
  | EmptyString => match pending with [] => true | _ => false end
  | String c s' =>
      match pending with
      | [] =>
          match utf8_lead c with
          | Some pending => utf8_decode pending s'
          | None => false
          end
      | (lo, hi) :: pending => byte_in lo hi c && utf8_decode pending s'
      end
  end.

Definition utf8_well_formed (s : string) : bool := utf8_decode [] s.

(** ** The route handler, [createHandler]

    The members of [http::Request] and [http::Response] that the handler
    reads and writes. The transport callback of [Response::send] is left
    out: it receives what the response records. [nlohmann::json::parse]
    and the text that [dump] returns belong to the JSON library and are
    parameters; [dump] throws as [dumpable] says. *)

Section Transport.

Context {double : Type}.
Variable stod : string → exception + double.

(** [nlohmann::json::parse]: the value, or none when it throws. *)
Variable json_parse : string → option (@json double).

(** The text that [j.dump()] returns, when it returns. *)
Variable dump : @json double → string.

(** Whether [j.dump()] returns: every string and every key of [j] is
    well-formed UTF-8. *)
Fixpoint dumpable (j : @json double) : bool :=
  match j with
  | JString s => utf8_well_formed s
  | JArray elements => forallb dumpable elements
  | JObject members =>
      map_fold (λ key v rest, utf8_well_formed key && dumpable v && rest) true members
  | _ => true
  end.

(** [http::Request] and [http::Response]; the member [query] of the request
    is [queryParams]. *)
Record http_Request : Type := mkRequest {
  body : @json double;
  rawBody : string;
  queryParams : gmap string string
}.

Record http_Response : Type := mkResponse {
  statusCode_ : Z;
  headers_ : gmap string string;
  sent_ : bool;
  body_ : string
}.

(** [Response::status] *)
Definition status (code : Z) (res : http_Response) : http_Response :=
  mkResponse code (headers_ res) (sent_ res) (body_ res).

(** [Response::set] *)
Definition set_header (key value : string) (res : http_Response) : http_Response :=
  mkResponse (statusCode_ res) (<[key := value]> (headers_ res)) (sent_ res) (body_ res).

(** [Response::send(const std::string&)] *)
Definition send (text : string) (res : http_Response) : http_Response :=
  if sent_ res then res
  else
    let headers :=
      match headers_ res !! "Content-Type" with
      | Some _ => headers_ res
      | None => <["Content-Type" := "text/plain; charset=utf-8"]> (headers_ res)
      end in
    mkResponse (statusCode_ res) headers true text.

(** [Response::json]: the header is set, [j.dump()] is evaluated, and its
    text is sent; nothing is sent when [dump] throws, and the exception
    leaves [json]. *)
Definition send_json (j : @json double) (res : http_Response) : option http_Response :=
  let res := set_header "Content-Type" "application/json; charset=utf-8" res in
  if dumpable j then Some (send (dump j) res) else None.

(** [requestBody.value("query", "")]: the member when it is a string, the
    default when the object has no such member; [nlohmann::json] throws a
    [type_error] on a member of another type and on anything but an
    object. *)
Definition value_string (j : @json double) (key default : string) : option string :=
  match j with
  | JObject m =>
      match m !! key with
      | Some (JString s) => Some s
      | Some _ => None
      | None => Some default
      end
  | _ => None
  end.

(** [requestBody.value("variables", nlohmann::json::object())] *)
Definition value_json (j : @json double) (key : string) (default : @json double)
  : option (@json double) :=
  match j with
  | JObject m => Some (default_member default (m !! key))
  | _ => None
  end.

Definition error_body (message : string) : @json double :=
  JObject {[ "errors" := JArray [JObject {[ "message" := JString message ]}] ]}.

(** What a call of the handler comes to: the response it leaves, with the
    resolver calls made on the way; an exception that leaves the handler;
    or the embedding's counter used up. *)
Inductive handled : Type :=
  | Handled (res : http_Response) (calls : list (string * @json double * @json double))
  | HandlerThrows
  | HandlerUnfinished.

(** [res.json(j)] as the last statement of a path of the handler. *)
Definition reply_json (j : @json double) (res : http_Response)
    (calls : list (string * @json double * @json double)) : handled :=
  match send_json j res with
  | Some res => Handled res calls
  | None => HandlerThrows
  end.

(** The handler from its statement [std::string query = ...] on. *)
Definition handle_body (schema : @Schema double) (requestBody : @json double)
    (res : http_Response) : handled :=
  match value_string requestBody "query" "" with
  | None => HandlerThrows
  | Some queryStr =>
      match value_json requestBody "variables" (JObject ∅) with
      | None => HandlerThrows
      | Some variables =>
          let context : @json double := JObject ∅ in
          if String.eqb queryStr "" then
            reply_json (error_body "Missing GraphQL query") (status 400 res) []
          else
            match execute stod schema queryStr variables context with
            | Response result calls => reply_json result res calls
            | Propagated => HandlerThrows
            | Unfinished => HandlerUnfinished
            end
      end
  end.

(** The function that [createHandler(schema)] returns. *)
Definition createHandler (schema : @Schema double) (req : http_Request) (res : http_Response)
  : handled :=
  if negb (is_null (body req)) then handle_body schema (body req) res
  else if negb (String.eqb (rawBody req) "") then
    match json_parse (rawBody req) with
    | Some requestBody => handle_body schema requestBody res
    | None => reply_json (error_body "Invalid JSON in request body") (status 400 res) []
    end
  else
    match queryParams req !! "query" with
    | Some queryParam =>
        handle_body schema (JObject {[ "query" := JString queryParam ]}) res
    | None => reply_json (error_body "Missing GraphQL query") (status 400 res) []
    end.

End Transport.

(** ** nodepp/template_engine.h: [detail::htmlEscape] *)

Definition htmlEscape_char (c : ascii) : string :=
  if Ascii.eqb c "&" then "&amp;"
  else if Ascii.eqb c "<" then "&lt;"
  else if Ascii.eqb c ">" then "&gt;"
  else if Ascii.eqb c DQUOTE then "&quot;"
  else if Ascii.eqb c "'" then "&#39;"
  else String c "".

(** [for (char c : s) switch (c) { ... out += ...; }] *)
Fixpoint htmlEscape_loop (s : string) (out : string) : string :=
  match s with
  | String c s' => htmlEscape_loop s' (out +:+ htmlEscape_char c)
  | EmptyString => out
  end.

Definition htmlEscape (s : string) : string := htmlEscape_loop s "".

(** ** A schema to run the model on

    Resolvers after tests/test_graphql.cpp and the scenarios of the
    specification: [hello] returns a string, [failing] throws
    [std::runtime_error], [user] reads the Int argument [id] and answers
    with an object that has one member more than the queries ask for (the
    conversion of anything but an Int throws). *)

Definition demo_hello : @Resolver decimal :=
  λ _ _, Returns (JString "world").

Definition demo_failing : @Resolver decimal :=
  λ _ _, Throws "Something went wrong".

Definition int_to_string (n : Z) : string :=
  if (n <? 0)%Z then "-" +:+ to_string (Z.to_nat (- n)) else to_string (Z.to_nat n).

Definition demo_user : @Resolver decimal :=
  λ args _,
    match find_member args "id" with
    | Some (JInt id) =>
        Returns (JObject (<["name" := JString ("User" +:+ int_to_string id)]>
                         (<["id" := JInt id]>
                         (<["secret" := JString "x"]> ∅))))
    | _ => Throws "type must be number"
    end.

Definition demo_schema : @Schema decimal :=
  query "user" demo_user
    (query "failing" demo_failing
       (query "hello" demo_hello (mkSchema ∅ ∅))).

Definition empty_schema : @Schema decimal := mkSchema ∅ ∅.

(** A resolver that returns its argument [text] as it came, and a query
    that passes it the single byte 0xFF, which no UTF-8 text holds. *)
Definition demo_echo : @Resolver decimal :=
  λ args _, Returns (default_member JNull (find_member args "text")).

Definition echo_schema : @Schema decimal := query "echo" demo_echo (mkSchema ∅ ∅).

Definition BYTE_FF : ascii := "255"%char.

Definition echo_query : string :=
  "{ echo(text: " +:+ String DQUOTE (String BYTE_FF (String DQUOTE ") }")).

(** [schema.execute(queryStr)], with the default [variables] and
    [context]. *)
Definition demo_execute (schema : @Schema decimal) (queryStr : string)
  : @reply decimal :=
  execute decimal_stod schema queryStr (JObject ∅) (JObject ∅).

(** The selections of [{ hello a: failing user(id: 42) { name id } }]. *)
Definition demo_field_hello : @FieldSelection decimal :=
  mkFieldSelection "hello" "" ∅ [].

Definition demo_field_failing : @FieldSelection decimal :=
  mkFieldSelection "failing" "a" ∅ [].

Definition demo_field_user : @FieldSelection decimal :=
  mkFieldSelection "user" "" {[ "id" := JInt 42 ]}
    [mkFieldSelection "name" "" ∅ []; mkFieldSelection "id" "" ∅ []].

Definition demo_start : @Execution decimal := mkExecution ∅ [] [].

(** A cursor at the start of [text]. *)
Definition at_start (text : string) : Parser := mkParser text 0.

(** ** Vocabulary of the statements *)

Section Vocabulary.

Context {double : Type}.
Implicit Types (source v : @json double) (sel : @FieldSelection double).

(** What [filterFields] stores for a selection whose name is a member of
    the source, [v] being that member. *)
Definition projected sel v : @json double :=
  if has_selections sel && is_object v then
    JObject (filterFields v (selections sel) ∅)
  else if has_selections sel && is_array v then
    JArray (map (λ item, if is_object item
                         then JObject (filterFields item (selections sel) ∅)
                         else item) (array_elements v))
  else v.

Implicit Types (field : @FieldSelection double).
Implicit Types (resolvers : gmap string (@Resolver double)).
Implicit Types (variables context : @json double).

(** The arguments a resolver receives for [field]. *)
Definition call_arguments variables field : @json double :=
  JObject (mergeArguments (arguments field) variables).

(** A field-level failure: no resolver under the name, or a resolver that
    throws a [std::exception]. *)
Definition field_fails resolvers variables context field : Prop :=
  resolvers !! name field = None
  ∨ ∃ resolver msg,
      resolvers !! name field = Some resolver
      ∧ resolver (call_arguments variables field) context = Throws msg.

(** The resolver call that [field] makes, if any, and the error it leaves,
    if any: both are read off the field alone. *)
Definition call_of resolvers variables context field
  : list (string * @json double * @json double) :=
  match resolvers !! name field with
  | Some _ => [(name field, call_arguments variables field, context)]
  | None => []
  end.

Definition error_of resolvers (opType : string) variables context field
  : list (@json double) :=
  match resolvers !! name field with
  | None => [unknown_field_error (name field) opType]
  | Some resolver =>
      match resolver (call_arguments variables field) context with
      | Throws msg => [resolver_error msg (name field)]
      | _ => []
      end
  end.

(** The character under the cursor, as [peek] gives it. *)
Definition head_char (p : Parser) : ascii :=
  match rest p with String c _ => c | EmptyString => NUL end.

(** [wp m p Q]: run from the cursor [p], the parser action [m] does not use
    up the counter, and if it returns, its value and the cursor it leaves
    satisfy [Q]. *)
Definition wp {A} (m : @M A) (p : Parser) (Q : A → Parser → Prop) : Prop :=
  match m p with
  | Ok a p' => Q a p'
  | Throw _ => True
  | OutOfFuel => False
  end.

(** Every character of [s] passes the test [ok]. *)
Fixpoint all_chars (ok : ascii → bool) (s : string) : bool :=
  match s with
  | String c s' => ok c && all_chars ok s'
  | EmptyString => true
  end.

(** The number a run of digits denotes. *)
Definition decimal_value (digits : string) : Z := fst (read_digits digits 0 0%nat).

(** The text of a number without a point: a sign or none, then digits. *)
Definition integer_text (negative : bool) (digits : string) : string :=
  (if negative then "-" else "") +:+ digits.

Definition integer_value (negative : bool) (digits : string) : Z :=
  if negative then (- decimal_value digits)%Z else decimal_value digits.

(** What the code makes of a bare word in value position: the first
    character alone chooses between [parseBool], [parseNull] and the
    identifier branch. *)
Definition bare_word_value (w : string) : @json double :=
  match w with
  | String c _ =>
      if Ascii.eqb c "t" || Ascii.eqb c "f" then JBool (String.eqb w "true")
      else if Ascii.eqb c "n" then JNull
      else JString w
  | EmptyString => JString w
  end.

(** [r'] is [r], or [r] ran out of the counter. *)
Definition refines {A} (r r' : @result A) : Prop := r = OutOfFuel ∨ r = r'.

(** [p'] is [p] moved forward: the text between them was consumed and
    [pos_] counts it. *)
Definition advanced (p p' : Parser) : Prop :=
  ∃ consumed, rest p = consumed +:+ rest p'
              ∧ pos_ p' = (pos_ p + String.length consumed)%nat.

(** [post m p Q]: if the parser action [m] returns from the cursor [p], its
    value and the cursor it leaves satisfy [Q]. *)
Definition post {A} (m : @M A) (p : Parser) (Q : A → Parser → Prop) : Prop :=
  match m p with
  | Ok a p' => Q a p'
  | _ => True
  end.

Definition moves {A} (m : @M A) : Prop :=
  ∀ p, post m p (λ _ p', advanced p p').

(** A character that stands for itself inside a string literal. *)
Definition plain_char (c : ascii) : bool :=
  negb (Ascii.eqb c DQUOTE || Ascii.eqb c "\" || Ascii.eqb c NUL).

(** A string written as the inside of a literal: a backslash goes before
    each double quote, backslash and NUL. *)
Fixpoint escaped_text (s : string) : string :=
  match s with
  | String c s' =>
      if plain_char c then String c (escaped_text s')
      else String "\" (String c (escaped_text s'))
  | EmptyString => EmptyString
  end.

Definition is_paren (c : ascii) : bool := Ascii.eqb c "(" || Ascii.eqb c ")".

(** Text in which every parenthesis has its partner: nothing, a character
    that is no parenthesis before such text, or such text in parentheses
    before such text. *)
Inductive balanced : string → Prop :=
  | balanced_empty : balanced ""
  | balanced_char c s : is_paren c = false → balanced s → balanced (String c s)
  | balanced_pair inner s :
      balanced inner → balanced s → balanced (String "(" (inner +:+ String ")" s)).

(** Text in which no closing parenthesis lacks its partner: balanced text,
    with opening parentheses in it that nothing closes. *)
Inductive unclosed : string → Prop :=
  | unclosed_balanced s : balanced s → unclosed s
  | unclosed_open s1 s2 : balanced s1 → unclosed s2 → unclosed (s1 +:+ String "(" s2).

(** The text of a number with a point. *)
Definition float_text (negative : bool) (integral fraction : string) : string :=
  integer_text negative integral +:+ String "." fraction.

(** The characters [htmlEscape] rewrites. *)
Definition html_special (c : ascii) : bool :=
  Ascii.eqb c "&" || Ascii.eqb c "<" || Ascii.eqb c ">" || Ascii.eqb c DQUOTE
  || Ascii.eqb c "'".

(** The character [c] occurs in [s]. *)
Fixpoint occurs (c : ascii) (s : string) : bool :=
  match s with
  | String a s' => Ascii.eqb a c || occurs c s'
  | EmptyString => false
  end.

(** The key a top-level selection writes in data, if any. *)
Definition written_key resolvers variables context field : option string :=
  match resolvers !! name field with
  | None => None
  | Some resolver =>
      match resolver (call_arguments variables field) context with
      | Returns _ => Some (response_key field)
      | Throws _ => Some (name field)
      | ThrowsOther => None
      end
  end.

(** What [execute] stores for a selection whose resolver returns [v]. *)
Definition top_projected field (v : @json double) : @json double :=
  if has_selections field && is_object v
  then JObject (filterFields v (selections field) ∅) else v.

(** A non-empty word of letters, digits and underscores. *)
Definition valid_identifier (s : string) : bool :=
  negb (String.eqb s "") && all_chars isIdentChar s.

(** The names in a selection and in the selections under it are such
    words; an alias is one, or is absent. *)
Fixpoint valid_selection (f : @FieldSelection double) : bool :=
  valid_identifier (name f)
  && (String.eqb (alias f) "" || valid_identifier (alias f))
  && forallb valid_selection (selections f).

End Vocabulary.

(** * Properties *)

(** ** Properties of the projector *)

Section Projector.

Context {double : Type}.
Implicit Types (source v : @json double) (sel : @FieldSelection double).
Implicit Types (sels : list (@FieldSelection double)).
Implicit Types (target : gmap string (@json double)).

Lemma filterField_unfold sel source target :
  filterField sel source target =
  match find_member source (name sel) with
  | Some v => <[response_key sel := projected sel v]> target
  | None => target
  end.
Proof.
  destruct sel as [n a args ss]; cbn [filterField].
  unfold projected, filterFields; cbn [name selections].
  destruct (find_member source n) as [v|]; [|done].
  by repeat case_match.
Qed.

Lemma filterFields_nil source target : filterFields source [] target = target.
Proof. done. Qed.

Lemma filterFields_cons source sel sels target :
  filterFields source (sel :: sels) target =
  filterFields source sels (filterField sel source target).
Proof. done. Qed.

Lemma filterFields_app source sels1 sels2 target :
  filterFields source (sels1 ++ sels2) target =
  filterFields source sels2 (filterFields source sels1 target).
Proof. unfold filterFields. apply foldl_app. Qed.

(** The keys of the result: those of [target], and the response key of
    every selection whose name the source has. *)
Lemma filterFields_keys source sels target k :
  is_Some (filterFields source sels target !! k) ↔
  is_Some (target !! k) ∨
  ∃ sel, sel ∈ sels ∧ response_key sel = k
         ∧ is_Some (find_member source (name sel)).
Proof.
  revert target. induction sels as [|sel sels IH]; intros target.
  - rewrite filterFields_nil. split; [by left|].
    intros [?|(sel & Hin & _)]; [done|]. by apply elem_of_nil in Hin.
  - rewrite filterFields_cons, IH, filterField_unfold. split.
    + intros [Hk|(s & Hin & Hkey & Hs)].
      * destruct (find_member source (name sel)) as [v|] eqn:Hv; [|by left].
        destruct (decide (response_key sel = k)) as [<-|Hne].
        -- right. exists sel. rewrite Hv. split_and!; [by left|done|done].
        -- left. by rewrite lookup_insert_ne in Hk.
      * right. exists s. split_and!; [by right|done|done].
    + intros [Hk|(s & Hin & Hkey & Hs)].
      * left. destruct (find_member source (name sel)); [|done].
        destruct (decide (response_key sel = k)) as [<-|Hne].
        -- rewrite lookup_insert_eq. done.
        -- by rewrite lookup_insert_ne.
      * apply elem_of_cons in Hin as [->|Hin].
        -- left. destruct Hs as [v ->]. rewrite <- Hkey, lookup_insert_eq. done.
        -- right. by exists s.
Qed.

End Projector.

Section ProjectorCases.

Context {double : Type}.
Implicit Types (sel : @FieldSelection double) (sels : list (@FieldSelection double)).
Implicit Types (target m : gmap string (@json double)).

(** C7. The projector on a source Object [m]. A selection whose name is no
    key of the source leaves the output as it is (and [filterFields] has no
    way to report an error). A selection with child selections whose member
    is an Array stores the array mapped element by element: an Object
    element is filtered by the same child selections, any other element is
    kept. A leaf (no child selections, or a member that is neither Object
    nor Array) is stored as it is; an Object member under child selections
    is stored filtered. Every entry goes under the alias when there is one,
    under the name otherwise. With no selection left the target is returned
    as it is, so that these cases give the whole output; its keys are
    those that a selection of a member of the source produced, and no
    other. *)
Theorem C7_projector_cases m sels :
  let source := JObject m in
  (∀ target, filterFields source [] target = target)
  ∧ (∀ sel target, m !! name sel = None →
     filterFields source (sel :: sels) target = filterFields source sels target)
  ∧ (∀ sel target l, m !! name sel = Some (JArray l) → selections sel ≠ [] →
     filterFields source (sel :: sels) target =
     filterFields source sels
       (<[response_key sel :=
            JArray (map (λ item, match item with
                                 | JObject _ =>
                                     JObject (filterFields item (selections sel) ∅)
                                 | _ => item
                                 end) l)]> target))
  ∧ (∀ sel target v, m !! name sel = Some v →
     selections sel = [] ∨ (is_object v = false ∧ is_array v = false) →
     filterFields source (sel :: sels) target =
     filterFields source sels (<[response_key sel := v]> target))
  ∧ (∀ sel target mo, m !! name sel = Some (JObject mo) → selections sel ≠ [] →
     filterFields source (sel :: sels) target =
     filterFields source sels
       (<[response_key sel :=
            JObject (filterFields (JObject mo) (selections sel) ∅)]> target))
  ∧ (∀ sel, response_key sel = if decide (alias sel = "") then name sel else alias sel)
  ∧ (∀ k, is_Some (filterFields source sels ∅ !! k) ↔
     ∃ sel, sel ∈ sels ∧ response_key sel = k ∧ is_Some (m !! name sel)).
Proof.
  intros source. split_and!.
  - intros target. apply filterFields_nil.
  - intros sel target Hm. rewrite filterFields_cons, filterField_unfold.
    unfold source; cbn [find_member]. by rewrite Hm.
  - intros sel target l Hm Hsel. rewrite filterFields_cons, filterField_unfold.
    unfold source; cbn [find_member]. rewrite Hm. unfold projected, has_selections.
    destruct (selections sel) eqn:Hs; [done|]. cbn [is_object is_array andb array_elements].
    do 3 f_equal. apply map_ext. by intros [].
  - intros sel target v Hm Hleaf. rewrite filterFields_cons, filterField_unfold.
    unfold source; cbn [find_member]. rewrite Hm. unfold projected, has_selections.
    destruct Hleaf as [->|[-> ->]]; [done|]. by rewrite !andb_false_r.
  - intros sel target mo Hm Hsel. rewrite filterFields_cons, filterField_unfold.
    unfold source; cbn [find_member]. rewrite Hm. unfold projected, has_selections.
    by destruct (selections sel).
  - intros sel. unfold response_key. case_decide as Ha.
    + by rewrite Ha.
    + apply String.eqb_neq in Ha. by rewrite Ha.
  - intros k. rewrite filterFields_keys. split; [|by right].
    intros [Hk|Hk]; [|done]. rewrite lookup_empty in Hk. by destruct Hk.
Qed.

End ProjectorCases.

(** ** Properties of the executor *)

Section Executor.

Context {double : Type}.
Implicit Types (field : @FieldSelection double) (st : @Execution double).
Implicit Types (resolvers : gmap string (@Resolver double)).
Implicit Types (resolver : @Resolver double).
Implicit Types (args m : gmap string (@json double)).
Implicit Types (variables context : @json double).

(** The merge loop, whatever the order of the walk: a key of [args] keeps
    its value, any other key takes the first entry of [variables] for it. *)
Lemma mergeArguments_lookup args variables k :
  mergeArguments args variables !! k =
  match args !! k with
  | Some v => Some v
  | None => (list_to_map (items variables) : gmap string json) !! k
  end.
Proof.
  unfold mergeArguments. generalize (items variables) as l.
  intros l; revert args. induction l as [|[k' v'] l IH]; intros args; cbn.
  - rewrite lookup_empty. by destruct (args !! k).
  - rewrite IH. destruct (args !! k') as [w|] eqn:Hk'.
    + destruct (args !! k) eqn:Hk; [done|].
      rewrite lookup_insert_ne; [done|]. intros ->. congruence.
    + destruct (decide (k' = k)) as [->|Hne].
      * rewrite Hk', !lookup_insert_eq. done.
      * rewrite !lookup_insert_ne by done. done.
Qed.

Lemma mergeArguments_object args m :
  mergeArguments args (JObject m) = args ∪ m.
Proof.
  apply map_eq; intros k. rewrite mergeArguments_lookup, lookup_union.
  cbn [items]. rewrite list_to_map_to_list.
  destruct (args !! k), (m !! k); done.
Qed.

Lemma execute_fields_app resolvers opType variables context
    (fields1 fields2 : list (@FieldSelection double)) st :
  execute_fields resolvers opType variables context (fields1 ++ fields2) st =
  execute_fields resolvers opType variables context fields1 st
    ≫= execute_fields resolvers opType variables context fields2.
Proof.
  revert st. induction fields1 as [|f fields1 IH]; intros st; cbn; [done|].
  destruct (execute_field _ _ _ _ f st); cbn; [apply IH|done].
Qed.


(** The three ways a turn of the loop can end with the loop going on. *)
Lemma execute_field_unknown resolvers opType variables context field st :
  resolvers !! name field = None →
  execute_field resolvers opType variables context field st =
  Some (mkExecution (data st)
          (errors st ++ [unknown_field_error (name field) opType])
          (invoked st)).
Proof. intros Hr. unfold execute_field, Resolver in *. by rewrite Hr. Qed.

Lemma execute_field_throws resolvers opType variables context field st resolver msg :
  resolvers !! name field = Some resolver →
  resolver (JObject (mergeArguments (arguments field) variables)) context
    = Throws msg →
  execute_field resolvers opType variables context field st =
  Some (mkExecution (<[name field := JNull]> (data st))
          (errors st ++ [resolver_error msg (name field)])
          (invoked st ++ [(name field,
                           JObject (mergeArguments (arguments field) variables),
                           context)])).
Proof. intros Hr Ht. unfold execute_field, Resolver in *. by rewrite Hr, Ht. Qed.

Lemma execute_field_returns resolvers opType variables context field st resolver v :
  resolvers !! name field = Some resolver →
  resolver (JObject (mergeArguments (arguments field) variables)) context
    = Returns v →
  execute_field resolvers opType variables context field st =
  Some (mkExecution
          (<[response_key field :=
               if has_selections field && is_object v
               then JObject (filterFields v (selections field) ∅) else v]>
             (data st))
          (errors st)
          (invoked st ++ [(name field,
                           JObject (mergeArguments (arguments field) variables),
                           context)])).
Proof. intros Hr Ht. unfold execute_field, Resolver in *. by rewrite Hr, Ht. Qed.

(** C9. The error objects have two shapes. An unknown field appends an
    object with exactly the keys message, path and locations, the last one
    holding an empty array; a resolver that throws appends an object with
    exactly the keys message and path. *)
Theorem C9_error_shapes resolvers opType variables context field st :
  (resolvers !! name field = None →
   ∃ st' e,
     execute_field resolvers opType variables context field st = Some st'
     ∧ errors st' = errors st ++ [JObject e]
     ∧ dom e = ({["message"; "path"; "locations"]} : gset string)
     ∧ e !! "locations" = Some (JArray []))
  ∧ (∀ resolver msg,
       resolvers !! name field = Some resolver →
       resolver (JObject (mergeArguments (arguments field) variables)) context
         = Throws msg →
       ∃ st' e,
         execute_field resolvers opType variables context field st = Some st'
         ∧ errors st' = errors st ++ [JObject e]
         ∧ dom e = ({["message"; "path"]} : gset string)).
Proof.
  split.
  - intros Hr. rewrite (execute_field_unknown _ _ _ _ _ _ Hr).
    eexists _, _. split_and!; [done|done| |done].
    rewrite !dom_insert_L, dom_empty_L. set_solver.
  - intros resolver msg Hr Ht. rewrite (execute_field_throws _ _ _ _ _ _ _ _ Hr Ht).
    eexists _, _. split_and!; [done|done|].
    rewrite !dom_insert_L, dom_empty_L. set_solver.
Qed.

End Executor.

Section Siblings.

Context {double : Type}.
Implicit Types (field : @FieldSelection double) (st : @Execution double).
Implicit Types (fields : list (@FieldSelection double)).
Implicit Types (resolvers : gmap string (@Resolver double)).
Implicit Types (resolver : @Resolver double).
Implicit Types (variables context : @json double).

(** The calls and the errors of a run are those of its fields, in order. *)
Lemma execute_fields_trace resolvers opType variables context fields st st' :
  execute_fields resolvers opType variables context fields st = Some st' →
  invoked st' = invoked st ++ flat_map (call_of resolvers variables context) fields
  ∧ errors st' =
    errors st ++ flat_map (error_of resolvers opType variables context) fields.
Proof.
  revert st. induction fields as [|f fields IH]; intros st; cbn [execute_fields flat_map].
  - intros [= <-]. by rewrite !app_nil_r.
  - destruct (execute_field _ _ _ _ f st) as [st1|] eqn:Hf; [|done].
    intros [-> ->]%IH. revert Hf. unfold execute_field, call_of, error_of, call_arguments, Resolver in *.
    destruct (resolvers !! name f) as [r|]; [destruct (r _ context)|];
      intros [= <-]; cbn [invoked errors]; by rewrite <- ?app_assoc, ?app_nil_r.
Qed.

(** Two runs of the same fields from states whose data agree on the keys
    in [P] both return or both let an exception through, and their data
    still agree on [P]. *)
Lemma execute_fields_agree (P : string → Prop)
    resolvers opType variables context fields st1 st2 st1' :
  (∀ k, P k → data st1 !! k = data st2 !! k) →
  execute_fields resolvers opType variables context fields st1 = Some st1' →
  ∃ st2',
    execute_fields resolvers opType variables context fields st2 = Some st2'
    ∧ ∀ k, P k → data st1' !! k = data st2' !! k.
Proof.
  revert st1 st2. induction fields as [|f fields IH]; intros st1 st2 Hagree; cbn.
  - intros [= <-]. eauto.
  - destruct (execute_field _ _ _ _ f st1) as [s1|] eqn:H1; [|done]. intros Hrun.
    assert (∃ s2, execute_field resolvers opType variables context f st2 = Some s2
                  ∧ ∀ k, P k → data s1 !! k = data s2 !! k) as (s2 & -> & Hs).
    { revert H1. unfold execute_field, Resolver in *.
      destruct (resolvers !! name f) as [r|]; [destruct (r _ context)|];
        intros [= <-]; eexists; (split; [done|]); cbn [data]; intros k Hk;
        rewrite ?lookup_insert; repeat case_decide; auto. }
    eapply IH; eauto.
Qed.

(** Two runs of the same fields from any two states: at each key, the two
    final data agree (some field wrote the key, in both runs alike), or
    each still has what its run started with. *)
Lemma execute_fields_overwrite resolvers opType variables context fields
    st1 st2 st1' st2' k :
  execute_fields resolvers opType variables context fields st1 = Some st1' →
  execute_fields resolvers opType variables context fields st2 = Some st2' →
  data st1' !! k = data st2' !! k
  ∨ (data st1' !! k = data st1 !! k ∧ data st2' !! k = data st2 !! k).
Proof.
  revert st1 st2. induction fields as [|f fields IH]; intros st1 st2; cbn.
  - intros [= <-] [= <-]. by right.
  - destruct (execute_field _ _ _ _ f st1) as [s1|] eqn:H1; [|done].
    destruct (execute_field _ _ _ _ f st2) as [s2|] eqn:H2; [|done].
    intros Hrun1 Hrun2.
    destruct (IH _ _ Hrun1 Hrun2) as [Heq|[Hk1 Hk2]]; [by left|].
    rewrite Hk1, Hk2. clear -H1 H2. revert H1 H2.
    unfold execute_field, Resolver in *.
    destruct (resolvers !! name f) as [r|]; [destruct (r _ context)|];
      intros [= <-] [= <-]; cbn [data]; rewrite ?lookup_insert;
      repeat case_decide; auto.
Qed.

(** How far a failing selection leaves its siblings alone. A top-level
    selection that fails, between the selections [before] and [after] it:
    whenever the call returns, the run without the failing selection
    returns as well; both call the resolvers of the siblings, in source
    order and with the same arguments; both record the same errors for the
    siblings, in order; and their data agree at every key but one, the
    failing field's own name, where a throwing resolver leaves a Null
    whatever a sibling stored there (they agree on every key when the name
    is unknown). The envelope's data is an Object. *)
Lemma siblings_agree_off_failing_name resolvers opType variables context
    (before after : list (@FieldSelection double)) failing st final :
  field_fails resolvers variables context failing →
  execute_fields resolvers opType variables context
    (before ++ failing :: after) st = Some final →
  ∃ final',
    execute_fields resolvers opType variables context (before ++ after) st
      = Some final'
    ∧ invoked final =
        invoked st ++ flat_map (call_of resolvers variables context) before
          ++ call_of resolvers variables context failing
          ++ flat_map (call_of resolvers variables context) after
    ∧ invoked final' =
        invoked st ++ flat_map (call_of resolvers variables context) before
          ++ flat_map (call_of resolvers variables context) after
    ∧ errors final =
        errors st ++ flat_map (error_of resolvers opType variables context) before
          ++ error_of resolvers opType variables context failing
          ++ flat_map (error_of resolvers opType variables context) after
    ∧ errors final' =
        errors st ++ flat_map (error_of resolvers opType variables context) before
          ++ flat_map (error_of resolvers opType variables context) after
    ∧ (∀ k, data final !! k = data final' !! k
            ∨ (k = name failing ∧ data final !! k = Some JNull))
    ∧ (resolvers !! name failing = None → data final = data final')
    ∧ find_member (response final) "data" = Some (JObject (data final)).
Proof.
  intros Hfail Hrun.
  pose proof (execute_fields_trace _ _ _ _ _ _ _ Hrun) as [Hcalls Herrs].
  rewrite execute_fields_app in Hrun.
  destruct (execute_fields _ _ _ _ before st) as [mid|] eqn:Hbefore; [|done].
  cbn [mbind option_bind execute_fields] in Hrun.
  destruct (execute_field _ _ _ _ failing mid) as [mid'|] eqn:Hmid; [|done].
  assert (∀ k, data mid' !! k = data mid !! k
               ∨ (k = name failing ∧ data mid' !! k = Some JNull)) as Hmid_data.
  { intros k. destruct Hfail as [Hr|(r & msg & Hr & Ht)].
    - rewrite (execute_field_unknown _ _ _ _ _ _ Hr) in Hmid.
      injection Hmid as <-. by left.
    - rewrite (execute_field_throws _ _ _ _ _ _ _ _ Hr Ht) in Hmid.
      injection Hmid as <-. cbn [data]. rewrite lookup_insert.
      case_decide; [by right|by left]. }
  destruct (execute_fields_agree (λ k, k ≠ name failing) _ _ _ _ _ _ mid _
              (λ k Hk, or_ind id (λ H, False_ind _ (Hk (proj1 H))) (Hmid_data k))
              Hrun)
    as (final' & Hafter & Hdata).
  exists final'. rewrite execute_fields_app, Hbefore. cbn [mbind option_bind].
  split; [done|].
  assert (execute_fields resolvers opType variables context (before ++ after) st
          = Some final') as Hwithout.
  { by rewrite execute_fields_app, Hbefore. }
  pose proof (execute_fields_trace _ _ _ _ _ _ _ Hwithout) as [Hcalls' Herrs'].
  rewrite Hcalls, Herrs, Hcalls', Herrs'.
  rewrite !flat_map_app. cbn [flat_map].
  split_and!; try done.
  - intros k.
    destruct (execute_fields_overwrite _ _ _ _ _ _ _ _ _ k Hrun Hafter)
      as [Heq|[Hk1 Hk2]]; [by left|].
    rewrite Hk1, Hk2. apply Hmid_data.
  - intros Hr. rewrite (execute_field_unknown _ _ _ _ _ _ Hr) in Hmid.
    injection Hmid as <-.
    destruct (execute_fields_agree (λ _, True) _ _ _ _ _ _ mid _
                (λ k _, eq_refl : data (mkExecution _ _ _) !! k = data mid !! k)
                Hrun) as (final2 & Hafter2 & Hdata2).
    rewrite Hafter in Hafter2. injection Hafter2 as <-.
    apply map_eq. intros k. by apply Hdata2.
  - unfold response. cbn [find_member].
    destruct (errors final); [apply lookup_singleton_eq|].
    rewrite lookup_insert_ne by done. apply lookup_singleton_eq.
Qed.

End Siblings.

(** ** The scanner moves forward *)

Section Progress.

Context {double : Type}.
Variable stod : string → exception + double.
Implicit Types (p q : Parser).

#[local] Existing Instances M_ret M_bind.
#[local] Open Scope nat_scope.

Lemma wp_ret {A} (a : A) p (Q : A → Parser → Prop) : Q a p → wp (mret a) p Q.
Proof. done. Qed.

Lemma wp_throw {A} e p (Q : A → Parser → Prop) : wp (throw e) p Q.
Proof. done. Qed.

Lemma wp_bind {A B} (m : M A) (f : A → M B) p (Q : B → Parser → Prop) :
  wp m p (λ a p', wp (f a) p' Q) → wp (m ≫= f) p Q.
Proof. unfold wp, mbind, M_bind. by destruct (m p). Qed.

Lemma wp_mono {A} (m : M A) p (Q Q' : A → Parser → Prop) :
  wp m p Q → (∀ a p', Q a p' → Q' a p') → wp m p Q'.
Proof. unfold wp. destruct (m p); auto. Qed.

Lemma wp_peek p (Q : ascii → Parser → Prop) : Q (head_char p) p → wp peek p Q.
Proof. done. Qed.

Lemma wp_get_pos p (Q : nat → Parser → Prop) : Q (pos_ p) p → wp get_pos p Q.
Proof. done. Qed.

Lemma skipWhitespace_loop_remaining s pos :
  remaining (skipWhitespace_loop s pos) ≤ String.length s.
Proof.
  revert pos. induction s as [|c s IH]; intros pos; cbn; [done|].
  destruct (isSpace c); [|done]. specialize (IH (S pos)). lia.
Qed.

Lemma wp_skipWhitespace p :
  wp skipWhitespace p (λ _ p', remaining p' ≤ remaining p).
Proof. apply skipWhitespace_loop_remaining. Qed.

(** A cursor on a character that is no white space stays where it is. *)
Lemma skipWhitespace_fixed p :
  isSpace (head_char p) = false → skipWhitespace p = Ok tt p.
Proof.
  destruct p as [[|c s] pos]; unfold skipWhitespace, head_char; cbn; [done|].
  by intros ->.
Qed.

Lemma wp_advance p :
  wp advance p (λ c p', c = head_char p ∧ remaining p' ≤ remaining p
                        ∧ (c ≠ NUL → remaining p' < remaining p)).
Proof.
  destruct p as [[|c s] pos]; unfold wp, advance, head_char, remaining; cbn.
  - split_and!; [done|lia|done].
  - split_and!; [done|lia|lia].
Qed.

Lemma wp_expect c p :
  c ≠ NUL → wp (expect c) p (λ _ p', remaining p' < remaining p).
Proof.
  intros Hc. unfold expect. apply wp_bind.
  eapply wp_mono; [apply wp_skipWhitespace|]. intros u1 p1 H1; cbn beta in H1.
  apply wp_bind. eapply wp_mono; [apply wp_advance|]. intros a p2 (_ & H2 & H2').
  destruct (Ascii.eqb a c) eqn:Hac.
  - apply Ascii.eqb_eq in Hac. subst a. apply wp_ret. specialize (H2' Hc). lia.
  - apply wp_bind, wp_get_pos, wp_throw.
Qed.

Lemma skipBalanced_loop_remaining open close depth s pos :
  remaining (skipBalanced_loop open close depth s pos) ≤ String.length s.
Proof.
  revert depth pos. induction s as [|c s IH]; intros depth pos; cbn; [done|].
  destruct (0 <? depth)%Z; [|done].
  etrans; [apply IH|lia].
Qed.

Lemma wp_skipBalanced open close p :
  open ≠ NUL → wp (skipBalanced open close) p (λ _ p', remaining p' < remaining p).
Proof.
  intros Ho. unfold skipBalanced. apply wp_bind.
  eapply wp_mono; [by apply wp_expect|]. intros u1 p1 H1; cbn beta in H1.
  unfold wp, skipBalanced_while.
  pose proof (skipBalanced_loop_remaining open close 1 (rest p1) (pos_ p1)).
  unfold remaining in *. lia.
Qed.

Lemma length_push_back s c : String.length (push_back s c) = S (String.length s).
Proof. unfold push_back. induction s as [|a s IH]; simpl; [done|]. by f_equal. Qed.

(** [scan] appends to [acc] exactly the characters it passes. *)
Lemma scan_spec ok s pos acc :
  let '(acc', p') := scan ok s pos acc in
  String.length acc' + remaining p' = String.length acc + String.length s
  ∧ remaining p' ≤ String.length s.
Proof.
  revert pos acc. induction s as [|c s IH]; intros pos acc; cbn; [done|].
  destruct (ok c); [|done].
  specialize (IH (S pos) (push_back acc c)).
  destruct (scan ok s (S pos) (push_back acc c)) as [acc' p'].
  destruct IH as [IH1 IH2]. rewrite IH1, length_push_back. cbn. lia.
Qed.

Lemma wp_scan_while ok acc p :
  wp (scan_while ok acc) p
     (λ acc' p', String.length acc' + remaining p'
                 = String.length acc + remaining p
                 ∧ remaining p' ≤ remaining p).
Proof.
  unfold wp, scan_while. pose proof (scan_spec ok (rest p) (pos_ p) acc) as H.
  by destruct (scan ok (rest p) (pos_ p) acc).
Qed.

Lemma wp_scan_while_strict ok acc p :
  ok NUL = false →
  wp (scan_while ok acc) p
     (λ _ p', remaining p' ≤ remaining p
              ∧ (ok (head_char p) = true → remaining p' < remaining p)).
Proof.
  intros Hnul. unfold wp, scan_while, head_char, remaining.
  destruct p as [[|c s] pos]; cbn; [split; [done|congruence]|].
  destruct (ok c); [|by split].
  pose proof (scan_spec ok s (S pos) (push_back acc c)) as Hs.
  destruct (scan ok s (S pos) (push_back acc c)) as [acc' p'].
  unfold remaining in Hs. split; [lia|]. intros _. lia.
Qed.

Lemma wp_parseIdentifier p :
  wp parseIdentifier p (λ _ p', remaining p' < remaining p).
Proof.
  unfold parseIdentifier. apply wp_bind.
  eapply wp_mono; [apply wp_skipWhitespace|]. intros u1 p1 H1; cbn beta in H1.
  apply wp_bind. eapply wp_mono; [apply wp_scan_while|]. intros r p2 [H2 _].
  destruct (String.eqb r "") eqn:Hr.
  - apply wp_bind, wp_get_pos, wp_throw.
  - apply wp_ret. destruct r; [done|]. cbn in H2. lia.
Qed.

Lemma parseString_loop_remaining s pos acc :
  remaining (parseString_loop s pos acc).2 ≤ String.length s.
Proof.
  assert (∀ n s pos acc, String.length s ≤ n →
            remaining (parseString_loop s pos acc).2 ≤ String.length s) as H;
    [|by eapply H].
  clear. intros n. induction n as [|n IH]; intros [|c s] pos acc Hn;
    cbn [parseString_loop]; try done; cbn in Hn; [lia|].
  destruct (Ascii.eqb c DQUOTE || Ascii.eqb c NUL); [done|].
  destruct (Ascii.eqb c "\").
  - destruct s as [|esc s']; [cbn; lia|].
    etrans; [apply IH; cbn in *; lia|cbn; lia].
  - etrans; [apply IH; cbn in *; lia|cbn; lia].
Qed.

Lemma wp_parseString p :
  wp parseString p (λ _ p', remaining p' < remaining p).
Proof.
  unfold parseString. apply wp_bind.
  eapply wp_mono; [by apply wp_expect|]. intros u1 p1 H1; cbn beta in H1.
  apply wp_bind. unfold wp at 1, parseString_while.
  pose proof (parseString_loop_remaining (rest p1) (pos_ p1) "") as H2.
  destruct (parseString_loop (rest p1) (pos_ p1) "") as [r p2]; cbn in H2.
  apply wp_bind. eapply wp_mono; [by apply wp_expect|]. intros u3 p3 H3.
  apply wp_ret. unfold remaining in *. lia.
Qed.

(** [parseNumber] never moves back, and moves forward from a sign or a
    digit. *)
Lemma wp_parseNumber p :
  wp (parseNumber stod) p
     (λ _ p', remaining p' ≤ remaining p
              ∧ (Ascii.eqb (head_char p) "-" || isDigit (head_char p) = true →
                 remaining p' < remaining p)).
Proof.
  unfold parseNumber. apply wp_bind. unfold wp at 1.
  destruct (isSpace (head_char p)) eqn:Hsp.
  - (* on white space: only the weak bound is asked for *)
    pose proof (wp_skipWhitespace p) as H1. unfold wp in H1.
    destruct (skipWhitespace p) as [u1 p1| |]; [|done..].
    apply wp_bind, wp_peek. apply wp_bind.
    assert (wp (if Ascii.eqb (head_char p1) "-"
                then advance ≫= λ a, mret (push_back "" a) else mret "") p1
              (λ _ p2, remaining p2 ≤ remaining p)) as H2.
    { destruct (Ascii.eqb (head_char p1) "-").
      - apply wp_bind. eapply wp_mono; [apply wp_advance|].
        intros a p2 (_ & H2 & _). apply wp_ret. lia.
      - apply wp_ret. lia. }
    eapply wp_mono; [apply H2|]. intros s2 p2 Hp2; cbn beta in Hp2.
    apply wp_bind. eapply wp_mono; [apply wp_scan_while|]. intros s3 p3 [H3 H3'].
    apply wp_bind, wp_peek.
    assert (isDigit (head_char p) = false ∧ Ascii.eqb (head_char p) "-" = false)
      as [Hd Hm].
    { revert Hsp. unfold isSpace, isDigit, char_in.
      generalize (head_char p). intros c Hc.
      destruct (Ascii.eqb c "-") eqn:E; [apply Ascii.eqb_eq in E; by subst|].
      split; [|done]. apply orb_prop in Hc.
      repeat (destruct Hc as [Hc|Hc]; [apply orb_prop in Hc|]);
        try (destruct Hc as [Hc|Hc]); apply Ascii.eqb_eq in Hc; by subst. }
    rewrite Hd, Hm.
    destruct (Ascii.eqb (head_char p3) ".").
    + apply wp_bind. eapply wp_mono; [apply wp_advance|].
      intros a p4 (_ & H4 & _). apply wp_bind.
      eapply wp_mono; [apply wp_scan_while|]. intros s5 p5 [H5 H5'].
      destruct (stod s5); [apply wp_throw|apply wp_ret]. split; [lia|done].
    + destruct (stoi s3); [apply wp_throw|apply wp_ret]. split; [lia|done].
  - rewrite (skipWhitespace_fixed p Hsp).
    apply wp_bind, wp_peek. apply wp_bind.
    assert (wp (if Ascii.eqb (head_char p) "-"
                then advance ≫= λ a, mret (push_back "" a) else mret "") p
              (λ s2 p2, remaining p2 ≤ remaining p
                 ∧ (Ascii.eqb (head_char p) "-" = true → remaining p2 < remaining p)
                 ∧ (Ascii.eqb (head_char p) "-" = false → p2 = p ∧ s2 = ""))) as H2.
    { destruct (Ascii.eqb (head_char p) "-") eqn:Hm.
      - apply wp_bind. eapply wp_mono; [apply wp_advance|].
        intros a p2 (-> & H2 & H2'). apply wp_ret. split_and!; [lia| |done].
        intros _. apply H2'. apply Ascii.eqb_eq in Hm. by rewrite Hm.
      - by apply wp_ret. }
    eapply wp_mono; [apply H2|]. intros s2 p2 (Hp2 & Hp2m & Hp2e); cbn beta.
    apply wp_bind. eapply wp_mono; [by apply wp_scan_while_strict|].
    intros s3 p3 [H3 H3']; cbn beta.
    assert (remaining p3 ≤ remaining p
            ∧ (Ascii.eqb (head_char p) "-" || isDigit (head_char p) = true →
               remaining p3 < remaining p)) as [H3a H3b].
    { split; [lia|]. destruct (Ascii.eqb (head_char p) "-") eqn:Hm.
      - intros _. specialize (Hp2m eq_refl). lia.
      - cbn [orb]. intros Hd. destruct (Hp2e eq_refl) as [-> ->]. auto. }
    apply wp_bind, wp_peek.
    destruct (Ascii.eqb (head_char p3) ".").
    + apply wp_bind. eapply wp_mono; [apply wp_advance|].
      intros a p4 (_ & H4 & _). apply wp_bind.
      eapply wp_mono; [apply wp_scan_while|]. intros s5 p5 [H5 H5'].
      destruct (stod s5); [apply wp_throw|apply wp_ret].
      split; [lia|]. intros Hc. specialize (H3b Hc). lia.
    + destruct (stoi s3); [apply wp_throw|apply wp_ret]. by split.
Qed.

Lemma wp_parseBool p : wp (parseBool (double := double)) p (λ _ p', remaining p' < remaining p).
Proof.
  unfold parseBool. apply wp_bind.
  eapply wp_mono; [apply wp_parseIdentifier|]. intros w p1 H1. by apply wp_ret.
Qed.

Lemma wp_parseNull p : wp (parseNull (double := double)) p (λ _ p', remaining p' < remaining p).
Proof.
  unfold parseNull. apply wp_bind.
  eapply wp_mono; [apply wp_parseIdentifier|]. intros w p1 H1. by apply wp_ret.
Qed.

(** The loops: a counter above the length of the unread text is enough,
    given that the parser called in the body moves forward. *)
Lemma wp_members_loop (parseValue : M (@json double)) close fuel obj p :
  remaining p < fuel →
  (∀ q, remaining q ≤ remaining p →
        wp parseValue q (λ _ q', remaining q' < remaining q)) →
  wp (members_loop parseValue close fuel obj) p
     (λ _ p', remaining p' ≤ remaining p).
Proof.
  revert obj p. induction fuel as [|fuel IH]; intros obj p Hfuel Hpv; [lia|].
  cbn [members_loop]. apply wp_bind, wp_peek.
  destruct (Ascii.eqb (head_char p) close); [by apply wp_ret|].
  apply wp_bind. eapply wp_mono; [apply wp_parseIdentifier|].
  intros key p1 H1; cbn beta in H1.
  apply wp_bind. eapply wp_mono; [by apply wp_expect|].
  intros u2 p2 H2; cbn beta in H2.
  apply wp_bind. eapply wp_mono; [apply Hpv; lia|].
  intros v p3 H3; cbn beta in H3.
  apply wp_bind. eapply wp_mono; [apply wp_skipWhitespace|].
  intros u4 p4 H4; cbn beta in H4.
  eapply wp_mono; [apply IH; [lia|]|].
  - intros q Hq. apply Hpv. lia.
  - intros m p5 H5; cbn beta in H5. lia.
Qed.

Lemma wp_elements_loop (parseValue : M (@json double)) fuel arr p :
  remaining p < fuel →
  (∀ q, remaining q ≤ remaining p →
        wp parseValue q (λ _ q', remaining q' < remaining q)) →
  wp (elements_loop parseValue fuel arr) p
     (λ _ p', remaining p' ≤ remaining p).
Proof.
  revert arr p. induction fuel as [|fuel IH]; intros arr p Hfuel Hpv; [lia|].
  cbn [elements_loop]. apply wp_bind, wp_peek.
  destruct (Ascii.eqb (head_char p) "]"); [by apply wp_ret|].
  apply wp_bind. eapply wp_mono; [apply Hpv; lia|].
  intros v p1 H1; cbn beta in H1.
  apply wp_bind. eapply wp_mono; [apply wp_skipWhitespace|].
  intros u2 p2 H2; cbn beta in H2.
  eapply wp_mono; [apply IH; [lia|]|].
  - intros q Hq. apply Hpv. lia.
  - intros m p3 H3; cbn beta in H3. lia.
Qed.

Lemma wp_fields_loop (parseField : M (@FieldSelection double)) fuel sels p :
  remaining p < fuel →
  (∀ q, remaining q ≤ remaining p →
        wp parseField q (λ _ q', remaining q' < remaining q)) →
  wp (fields_loop parseField fuel sels) p
     (λ _ p', remaining p' ≤ remaining p).
Proof.
  revert sels p. induction fuel as [|fuel IH]; intros sels p Hfuel Hpf; [lia|].
  cbn [fields_loop]. apply wp_bind, wp_peek.
  destruct (negb (Ascii.eqb (head_char p) "}") && negb (Ascii.eqb (head_char p) NUL));
    [|by apply wp_ret].
  apply wp_bind. eapply wp_mono; [apply Hpf; lia|].
  intros f p1 H1; cbn beta in H1.
  apply wp_bind. eapply wp_mono; [apply wp_skipWhitespace|].
  intros u2 p2 H2; cbn beta in H2.
  eapply wp_mono; [apply IH; [lia|]|].
  - intros q Hq. apply Hpf. lia.
  - intros m p3 H3; cbn beta in H3. lia.
Qed.

Lemma wp_parseObjectValue (parseValue : M (@json double)) fuel p :
  remaining p ≤ fuel →
  (∀ q, remaining q < remaining p →
        wp parseValue q (λ _ q', remaining q' < remaining q)) →
  wp (parseObjectValue parseValue fuel) p (λ _ p', remaining p' < remaining p).
Proof.
  intros Hfuel Hpv. unfold parseObjectValue.
  apply wp_bind. eapply wp_mono; [by apply wp_expect|].
  intros u1 p1 H1; cbn beta in H1.
  apply wp_bind. eapply wp_mono; [apply wp_skipWhitespace|].
  intros u2 p2 H2; cbn beta in H2.
  apply wp_bind. eapply wp_mono; [apply wp_members_loop; [lia|]|].
  - intros q Hq. apply Hpv. lia.
  - intros obj p3 H3; cbn beta in H3.
    apply wp_bind. eapply wp_mono; [by apply wp_expect|].
    intros u4 p4 H4; cbn beta in H4. apply wp_ret. lia.
Qed.

Lemma wp_parseArrayValue (parseValue : M (@json double)) fuel p :
  remaining p ≤ fuel →
  (∀ q, remaining q < remaining p →
        wp parseValue q (λ _ q', remaining q' < remaining q)) →
  wp (parseArrayValue parseValue fuel) p (λ _ p', remaining p' < remaining p).
Proof.
  intros Hfuel Hpv. unfold parseArrayValue.
  apply wp_bind. eapply wp_mono; [by apply wp_expect|].
  intros u1 p1 H1; cbn beta in H1.
  apply wp_bind. eapply wp_mono; [apply wp_skipWhitespace|].
  intros u2 p2 H2; cbn beta in H2.
  apply wp_bind. eapply wp_mono; [apply wp_elements_loop; [lia|]|].
  - intros q Hq. apply Hpv. lia.
  - intros arr p3 H3; cbn beta in H3.
    apply wp_bind. eapply wp_mono; [by apply wp_expect|].
    intros u4 p4 H4; cbn beta in H4. apply wp_ret. lia.
Qed.

(** A value is read in full, and the cursor moves forward, whenever the
    counter exceeds the length of the unread text. *)
Lemma wp_parseValue fuel p :
  remaining p < fuel →
  wp (parseValue stod fuel) p (λ _ p', remaining p' < remaining p).
Proof.
  revert p. induction fuel as [|fuel IH]; intros p Hfuel; [lia|].
  cbn [parseValue]. apply wp_bind. unfold wp at 1.
  pose proof (wp_skipWhitespace p) as H1. unfold wp in H1.
  destruct (skipWhitespace p) as [u1 p1| |]; [|done..].
  apply wp_bind, wp_peek.
  destruct (Ascii.eqb (head_char p1) DQUOTE).
  { apply wp_bind. eapply wp_mono; [apply wp_parseString|].
    intros s p2 H2; cbn beta in H2. apply wp_ret. lia. }
  destruct (Ascii.eqb (head_char p1) "-" || isDigit (head_char p1)) eqn:Hnum.
  { eapply wp_mono; [apply wp_parseNumber|].
    intros v p2 [_ H2]; cbn beta in H2. specialize (H2 Hnum). lia. }
  destruct (Ascii.eqb (head_char p1) "t" || Ascii.eqb (head_char p1) "f").
  { eapply wp_mono; [apply wp_parseBool|]. intros v p2 H2; cbn beta in H2. lia. }
  destruct (Ascii.eqb (head_char p1) "n").
  { eapply wp_mono; [apply wp_parseNull|]. intros v p2 H2; cbn beta in H2. lia. }
  destruct (Ascii.eqb (head_char p1) "{").
  { eapply wp_mono; [apply wp_parseObjectValue; [lia|]|].
    - intros q Hq. apply IH. lia.
    - intros v p2 H2; cbn beta in H2. lia. }
  destruct (Ascii.eqb (head_char p1) "[").
  { eapply wp_mono; [apply wp_parseArrayValue; [lia|]|].
    - intros q Hq. apply IH. lia.
    - intros v p2 H2; cbn beta in H2. lia. }
  apply wp_bind. eapply wp_mono; [apply wp_parseIdentifier|].
  intros s p2 H2; cbn beta in H2. apply wp_ret. lia.
Qed.

Lemma wp_parseArguments fuel p :
  remaining p ≤ fuel →
  wp (parseArguments stod fuel) p (λ _ p', remaining p' < remaining p).
Proof.
  intros Hfuel. unfold parseArguments.
  apply wp_bind. eapply wp_mono; [by apply wp_expect|].
  intros u1 p1 H1; cbn beta in H1.
  apply wp_bind. eapply wp_mono; [apply wp_skipWhitespace|].
  intros u2 p2 H2; cbn beta in H2.
  apply wp_bind. eapply wp_mono; [apply wp_members_loop; [lia|]|].
  - intros q Hq. apply wp_parseValue. lia.
  - intros obj p3 H3; cbn beta in H3.
    apply wp_bind. eapply wp_mono; [by apply wp_expect|].
    intros u4 p4 H4; cbn beta in H4. apply wp_ret. lia.
Qed.

Lemma wp_parseSelectionSet (parseField : M (@FieldSelection double)) fuel p :
  remaining p ≤ fuel →
  (∀ q, remaining q < remaining p →
        wp parseField q (λ _ q', remaining q' < remaining q)) →
  wp (parseSelectionSet parseField fuel) p (λ _ p', remaining p' < remaining p).
Proof.
  intros Hfuel Hpf. unfold parseSelectionSet.
  apply wp_bind. eapply wp_mono; [by apply wp_expect|].
  intros u1 p1 H1; cbn beta in H1.
  apply wp_bind. eapply wp_mono; [apply wp_skipWhitespace|].
  intros u2 p2 H2; cbn beta in H2.
  apply wp_bind. eapply wp_mono; [apply wp_fields_loop; [lia|]|].
  - intros q Hq. apply Hpf. lia.
  - intros sels p3 H3; cbn beta in H3.
    apply wp_bind. eapply wp_mono; [by apply wp_expect|].
    intros u4 p4 H4; cbn beta in H4. apply wp_ret. lia.
Qed.

Lemma wp_parseField fuel p :
  remaining p < fuel →
  wp (parseField stod fuel) p (λ _ p', remaining p' < remaining p).
Proof.
  revert p. induction fuel as [|fuel IH]; intros p Hfuel; [lia|].
  cbn [parseField].
  apply wp_bind. eapply wp_mono; [apply wp_parseIdentifier|].
  intros nameOrAlias p1 H1; cbn beta in H1.
  apply wp_bind. eapply wp_mono; [apply wp_skipWhitespace|].
  intros u2 p2 H2; cbn beta in H2.
  apply wp_bind, wp_peek. apply wp_bind.
  assert (wp (if Ascii.eqb (head_char p2) ":"
              then advance ≫= λ _, parseIdentifier ≫= λ n,
                   skipWhitespace ≫= λ _, mret (nameOrAlias, n)
              else mret ("", nameOrAlias)) p2
            (λ _ p3, remaining p3 ≤ remaining p2)) as Hname.
  { destruct (Ascii.eqb (head_char p2) ":"); [|by apply wp_ret].
    apply wp_bind. eapply wp_mono; [apply wp_advance|]. intros a q1 (_ & Hq1 & _).
    apply wp_bind. eapply wp_mono; [apply wp_parseIdentifier|].
    intros n q2 Hq2; cbn beta in Hq2.
    apply wp_bind. eapply wp_mono; [apply wp_skipWhitespace|].
    intros u3 q3 Hq3; cbn beta in Hq3. apply wp_ret. lia. }
  eapply wp_mono; [apply Hname|]. intros [field_alias field_name] p3 H3; cbn beta in H3.
  apply wp_bind, wp_peek. apply wp_bind.
  assert (wp (if Ascii.eqb (head_char p3) "("
              then parseArguments stod (S fuel) else mret ∅) p3
            (λ _ p4, remaining p4 ≤ remaining p3)) as Hargs.
  { destruct (Ascii.eqb (head_char p3) "("); [|by apply wp_ret].
    eapply wp_mono; [apply wp_parseArguments; lia|].
    intros args q Hq; cbn beta in Hq. lia. }
  eapply wp_mono; [apply Hargs|]. intros args p4 H4; cbn beta in H4.
  apply wp_bind. eapply wp_mono; [apply wp_skipWhitespace|].
  intros u5 p5 H5; cbn beta in H5.
  apply wp_bind, wp_peek. apply wp_bind.
  assert (wp (if Ascii.eqb (head_char p5) "{"
              then parseSelectionSet (parseField stod fuel) fuel else mret []) p5
            (λ _ p6, remaining p6 ≤ remaining p5)) as Hsels.
  { destruct (Ascii.eqb (head_char p5) "{"); [|by apply wp_ret].
    eapply wp_mono; [apply wp_parseSelectionSet; [lia|]|].
    - intros q Hq. apply IH. lia.
    - intros sels q Hq; cbn beta in Hq. lia. }
  eapply wp_mono; [apply Hsels|]. intros sels p6 H6; cbn beta in H6.
  apply wp_ret. lia.
Qed.

Lemma wp_parse_header p :
  wp parse_header p (λ _ p', remaining p' ≤ remaining p).
Proof.
  unfold parse_header.
  apply wp_bind. eapply wp_mono; [apply wp_skipWhitespace|].
  intros u1 p1 H1; cbn beta in H1.
  apply wp_bind, wp_peek.
  destruct (Ascii.eqb (head_char p1) "{"); [by apply wp_ret|].
  apply wp_bind. eapply wp_mono; [apply wp_parseIdentifier|].
  intros keyword p2 H2; cbn beta in H2. apply wp_bind.
  assert (wp (if String.eqb keyword "query" then mret "query"
              else if String.eqb keyword "mutation" then mret "mutation"
              else throw (runtime_error
                     ("Expected 'query' or 'mutation', got '" +:+ keyword +:+ "'")))
             p2 (λ _ p3, p3 = p2)) as Hop.
  { destruct (String.eqb keyword "query"); [by apply wp_ret|].
    destruct (String.eqb keyword "mutation"); [by apply wp_ret|apply wp_throw]. }
  eapply wp_mono; [apply Hop|]. intros opType p3 ->.
  apply wp_bind. eapply wp_mono; [apply wp_skipWhitespace|].
  intros u4 p4 H4; cbn beta in H4.
  apply wp_bind, wp_peek. apply wp_bind.
  assert (wp (if negb (Ascii.eqb (head_char p4) "{")
                 && negb (Ascii.eqb (head_char p4) "(")
              then parseIdentifier ≫= λ n, skipWhitespace ≫= λ _, mret n
              else mret "") p4
            (λ _ p5, remaining p5 ≤ remaining p4)) as Hname.
  { destruct (negb _ && negb _); [|by apply wp_ret].
    apply wp_bind. eapply wp_mono; [apply wp_parseIdentifier|].
    intros n q1 Hq1; cbn beta in Hq1.
    apply wp_bind. eapply wp_mono; [apply wp_skipWhitespace|].
    intros u q2 Hq2; cbn beta in Hq2. apply wp_ret. lia. }
  eapply wp_mono; [apply Hname|]. intros opName p5 H5; cbn beta in H5.
  apply wp_bind, wp_peek. apply wp_bind.
  assert (wp (if Ascii.eqb (head_char p5) "("
              then skipBalanced "(" ")" ≫= λ _, skipWhitespace else mret ()) p5
            (λ _ p6, remaining p6 ≤ remaining p5)) as Hvars.
  { destruct (Ascii.eqb (head_char p5) "("); [|by apply wp_ret].
    apply wp_bind. eapply wp_mono; [by apply wp_skipBalanced|].
    intros u q1 Hq1; cbn beta in Hq1.
    eapply wp_mono; [apply wp_skipWhitespace|].
    intros u' q2 Hq2; cbn beta in Hq2. lia. }
  eapply wp_mono; [apply Hvars|]. intros u6 p6 H6; cbn beta in H6.
  apply wp_ret. lia.
Qed.

Lemma wp_parse fuel p :
  remaining p < fuel →
  wp (parse stod fuel) p (λ _ p', remaining p' ≤ remaining p).
Proof.
  intros Hfuel. unfold parse.
  apply wp_bind. eapply wp_mono; [apply wp_parse_header|].
  intros [opType opName] p1 H1; cbn beta in H1.
  apply wp_bind. eapply wp_mono; [apply wp_parseSelectionSet; [lia|]|].
  - intros q Hq. apply wp_parseField. lia.
  - intros sels p2 H2; cbn beta in H2. apply wp_ret. lia.
Qed.

(** The counter [execute] starts with is never used up: the parser returns
    a query or throws. *)
Lemma fuel_suffices queryStr fuel :
  String.length queryStr < fuel →
  parse_query stod fuel queryStr ≠ OutOfFuel.
Proof.
  intros Hfuel. pose proof (wp_parse fuel (mkParser queryStr 0) Hfuel) as H.
  unfold parse_query, wp in *. by destruct (parse stod fuel _).
Qed.

End Progress.

(** ** The counter does not show in the outcome *)

Section Fuel.

Context {double : Type}.
Variable stod : string → exception + double.

#[local] Existing Instances M_ret M_bind.
#[local] Open Scope nat_scope.

Lemma refines_refl {A} (r : @result A) : refines r r.
Proof. by right. Qed.

Lemma refines_bind {A B} (m1 m2 : M A) (f1 f2 : A → M B) p :
  refines (m1 p) (m2 p) →
  (∀ a q, refines (f1 a q) (f2 a q)) →
  refines ((m1 ≫= f1) p) ((m2 ≫= f2) p).
Proof.
  unfold mbind, M_bind. intros [->| ->] Hf; [by left|].
  destruct (m2 p) as [a q| |]; [apply Hf|by right|by left].
Qed.

Lemma refines_bind_same {A B} (m : M A) (f1 f2 : A → M B) p :
  (∀ a q, refines (f1 a q) (f2 a q)) →
  refines ((m ≫= f1) p) ((m ≫= f2) p).
Proof. intros. apply refines_bind; [apply refines_refl|done]. Qed.

Lemma members_loop_refines (pv1 pv2 : M (@json double)) close fuel1 fuel2 :
  fuel1 ≤ fuel2 →
  (∀ p, refines (pv1 p) (pv2 p)) →
  ∀ obj p, refines (members_loop pv1 close fuel1 obj p)
                   (members_loop pv2 close fuel2 obj p).
Proof.
  intros Hle Hpv. revert fuel2 Hle.
  induction fuel1 as [|fuel1 IH]; intros fuel2 Hle obj p; [by left|].
  destruct fuel2 as [|fuel2]; [lia|]. cbn [members_loop].
  apply refines_bind_same. intros c q.
  destruct (Ascii.eqb c close); [apply refines_refl|].
  apply refines_bind_same. intros key q1.
  apply refines_bind_same. intros u q2.
  apply refines_bind; [apply Hpv|]. intros v q3.
  apply refines_bind_same. intros u' q4. apply IH. lia.
Qed.

Lemma elements_loop_refines (pv1 pv2 : M (@json double)) fuel1 fuel2 :
  fuel1 ≤ fuel2 →
  (∀ p, refines (pv1 p) (pv2 p)) →
  ∀ arr p, refines (elements_loop pv1 fuel1 arr p) (elements_loop pv2 fuel2 arr p).
Proof.
  intros Hle Hpv. revert fuel2 Hle.
  induction fuel1 as [|fuel1 IH]; intros fuel2 Hle arr p; [by left|].
  destruct fuel2 as [|fuel2]; [lia|]. cbn [elements_loop].
  apply refines_bind_same. intros c q.
  destruct (Ascii.eqb c "]"); [apply refines_refl|].
  apply refines_bind; [apply Hpv|]. intros v q3.
  apply refines_bind_same. intros u' q4. apply IH. lia.
Qed.

Lemma fields_loop_refines (pf1 pf2 : M (@FieldSelection double)) fuel1 fuel2 :
  fuel1 ≤ fuel2 →
  (∀ p, refines (pf1 p) (pf2 p)) →
  ∀ sels p, refines (fields_loop pf1 fuel1 sels p) (fields_loop pf2 fuel2 sels p).
Proof.
  intros Hle Hpf. revert fuel2 Hle.
  induction fuel1 as [|fuel1 IH]; intros fuel2 Hle sels p; [by left|].
  destruct fuel2 as [|fuel2]; [lia|]. cbn [fields_loop].
  apply refines_bind_same. intros c q.
  destruct (negb _ && negb _); [|apply refines_refl].
  apply refines_bind; [apply Hpf|]. intros v q3.
  apply refines_bind_same. intros u' q4. apply IH. lia.
Qed.

Lemma parseValue_refines fuel1 fuel2 p :
  fuel1 ≤ fuel2 → refines (parseValue stod fuel1 p) (parseValue stod fuel2 p).
Proof.
  revert fuel2 p. induction fuel1 as [|fuel1 IH]; intros fuel2 p Hle; [by left|].
  destruct fuel2 as [|fuel2]; [lia|]. cbn [parseValue].
  apply refines_bind_same. intros u q. apply refines_bind_same. intros c q1.
  repeat (match goal with |- context [if ?b then _ else _] => destruct b end;
          try apply refines_refl).
  - unfold parseObjectValue. apply refines_bind_same. intros u1 q2.
    apply refines_bind_same. intros u2 q3.
    apply refines_bind; [|intros; apply refines_refl].
    apply members_loop_refines; [lia|]. intros q4. apply IH. lia.
  - unfold parseArrayValue. apply refines_bind_same. intros u1 q2.
    apply refines_bind_same. intros u2 q3.
    apply refines_bind; [|intros; apply refines_refl].
    apply elements_loop_refines; [lia|]. intros q4. apply IH. lia.
Qed.

Lemma parseArguments_refines fuel1 fuel2 p :
  fuel1 ≤ fuel2 →
  refines (parseArguments stod fuel1 p) (parseArguments stod fuel2 p).
Proof.
  intros Hle. unfold parseArguments.
  apply refines_bind_same. intros u1 q2. apply refines_bind_same. intros u2 q3.
  apply refines_bind; [|intros; apply refines_refl].
  apply members_loop_refines; [lia|]. intros q4. by apply parseValue_refines.
Qed.

Lemma parseField_refines fuel1 fuel2 p :
  fuel1 ≤ fuel2 → refines (parseField stod fuel1 p) (parseField stod fuel2 p).
Proof.
  revert fuel2 p. induction fuel1 as [|fuel1 IH]; intros fuel2 p Hle; [by left|].
  destruct fuel2 as [|fuel2]; [lia|]. cbn [parseField].
  apply refines_bind_same. intros nameOrAlias q1.
  apply refines_bind_same. intros u2 q2.
  apply refines_bind_same. intros c q3.
  apply refines_bind_same. intros [field_alias field_name] q4.
  apply refines_bind_same. intros c' q5.
  apply refines_bind.
  { destruct (Ascii.eqb c' "("); [|apply refines_refl].
    apply parseArguments_refines. lia. }
  intros args q6. apply refines_bind_same. intros u7 q7.
  apply refines_bind_same. intros c'' q8.
  apply refines_bind; [|intros; apply refines_refl].
  destruct (Ascii.eqb c'' "{"); [|apply refines_refl].
  unfold parseSelectionSet. apply refines_bind_same. intros u9 q9.
  apply refines_bind_same. intros u10 q10.
  apply refines_bind; [|intros; apply refines_refl].
  apply fields_loop_refines; [lia|]. intros q11. apply IH. lia.
Qed.

Lemma parse_refines fuel1 fuel2 p :
  fuel1 ≤ fuel2 → refines (parse stod fuel1 p) (parse stod fuel2 p).
Proof.
  intros Hle. unfold parse. apply refines_bind_same. intros [opType opName] q1.
  apply refines_bind; [|intros; apply refines_refl].
  unfold parseSelectionSet. apply refines_bind_same. intros u9 q9.
  apply refines_bind_same. intros u10 q10.
  apply refines_bind; [|intros; apply refines_refl].
  apply fields_loop_refines; [lia|]. intros q11. by apply parseField_refines.
Qed.

(** Any counter above the length of the text gives the outcome that
    [execute] computes with. *)
Lemma parse_query_fuel queryStr fuel :
  String.length queryStr < fuel →
  parse_query stod fuel queryStr =
  parse_query stod (S (String.length queryStr)) queryStr.
Proof.
  intros Hfuel. unfold parse_query.
  destruct (parse_refines (S (String.length queryStr)) fuel (mkParser queryStr 0)
              ltac:(lia)) as [Hout|Heq]; [|done].
  by destruct (fuel_suffices stod queryStr (S (String.length queryStr)) ltac:(lia)).
Qed.

End Fuel.

(** ** The envelope *)

Section Envelope.

Context {double : Type}.
Variable stod : string → exception + double.
Implicit Types (schema : @Schema double) (variables context : @json double).
Implicit Types (field : @FieldSelection double) (st : @Execution double).
Implicit Types (resolvers : gmap string (@Resolver double)).
Implicit Types (resolver : @Resolver double).

Lemma execute_parse_failure schema queryStr variables context e :
  parse_query stod (S (String.length queryStr)) queryStr = Throw e →
  execute stod schema queryStr variables context =
    Response (parse_error_response e) [].
Proof. intros Hparse. unfold execute, execute_with. by rewrite Hparse. Qed.

(** C4. A query text the parser rejects: [execute] returns the envelope
    whose data is Null and whose errors hold one object, with the single
    key message and the text "Parse error: " followed by the text of the
    exception; no resolver is called. *)
Theorem C4_parse_failure schema queryStr variables context fuel e :
  (String.length queryStr < fuel)%nat →
  parse_query stod fuel queryStr = Throw e →
  execute stod schema queryStr variables context =
    Response
      (JObject (<["data" := JNull]>
               (<["errors" :=
                    JArray [JObject {[ "message" :=
                                         JString ("Parse error: " +:+ what e) ]}]]>
                ∅)))
      [].
Proof.
  intros Hfuel Hparse. rewrite parse_query_fuel in Hparse by done.
  by apply execute_parse_failure.
Qed.

(** C5, as the code has it. A selection whose name has no resolver in the
    chosen registry: the error appended has the message "Cannot query field
    '<name>' on type '<operationType>'", the path [name] and an empty
    locations array; no data key is set; no resolver is called; the loop
    goes on with the next field. In particular the query with the single
    field unknownField, run on an empty registry, yields the envelope with
    an empty data object and that one error, locations included. *)
Theorem C5_unknown_field resolvers opType variables context field
    (fields : list (@FieldSelection double)) st :
  (resolvers !! name field = None →
   let st' :=
     mkExecution (data st)
       (errors st ++
        [JObject (<["message" :=
                      JString ("Cannot query field '" +:+ name field
                               +:+ "' on type '" +:+ opType +:+ "'")]>
                 (<["locations" := JArray []]>
                 (<["path" := JArray [JString (name field)]]> ∅)))])
       (invoked st) in
   execute_field resolvers opType variables context field st = Some st'
   ∧ execute_fields resolvers opType variables context (field :: fields) st =
     execute_fields resolvers opType variables context fields st')
  ∧ execute stod (mkSchema ∅ ∅) "{ unknownField }" (JObject ∅) (JObject ∅) =
    Response
      (JObject
         (<["data" := JObject ∅]>
         (<["errors" :=
              JArray [JObject
                (<["message" :=
                     JString "Cannot query field 'unknownField' on type 'query'"]>
                (<["locations" := JArray []]>
                (<["path" := JArray [JString "unknownField"]]> ∅)))]]>
          ∅)))
      [].
Proof.
  split.
  - intros Hr st'.
    pose proof (execute_field_unknown _ opType variables context _ st Hr) as H.
    split; [done|]. cbn [execute_fields]. by rewrite H.
  - vm_compute. reflexivity.
Qed.

(** What becomes of a resolver that throws a [std::exception]: the error
    carries the text of [what()] and the path [name]; the Null goes under
    the name of the field, alias or not. *)
Lemma resolver_failure_recorded resolvers opType variables context field st
    resolver msg :
  resolvers !! name field = Some resolver →
  resolver (call_arguments variables field) context = Throws msg →
  ∃ st',
    execute_field resolvers opType variables context field st = Some st'
    ∧ errors st' =
      errors st ++ [JObject (<["message" := JString msg]>
                            (<["path" := JArray [JString (name field)]]> ∅))]
    ∧ data st' = <[name field := JNull]> (data st).
Proof.
  intros Hr Ht. rewrite (execute_field_throws _ _ _ _ _ _ _ _ Hr Ht). eauto.
Qed.

(** An exception leaves [execute_fields] only out of a resolver. *)
Lemma execute_fields_escape resolvers opType variables context
    (fields : list (@FieldSelection double)) st :
  execute_fields resolvers opType variables context fields st = None →
  ∃ field resolver,
    field ∈ fields ∧ resolvers !! name field = Some resolver
    ∧ resolver (call_arguments variables field) context = ThrowsOther.
Proof.
  revert st. induction fields as [|f fields IH]; intros st; cbn; [done|].
  destruct (execute_field _ _ _ _ f st) as [st1|] eqn:Hf.
  - intros (field & r & Hin & Hr)%IH. exists field, r. split; [by right|done].
  - intros _. exists f. revert Hf. unfold execute_field, call_arguments, Resolver in *.
    destruct (resolvers !! name f) as [r|]; [|done].
    destruct (r _ context) eqn:Hcall; try done.
    intros _. exists r. split_and!; [by left|done|done].
Qed.

End Envelope.

(** ** Words and numbers under the cursor *)

Section Literals.

Context {double : Type}.
Variable stod : string → exception + double.

#[local] Existing Instances M_ret M_bind.
#[local] Open Scope nat_scope.

Lemma push_back_app acc c s : push_back acc c +:+ s = acc +:+ String c s.
Proof.
  unfold push_back. induction acc as [|a acc IH]; [reflexivity|].
  exact (f_equal (String a) IH).
Qed.

Lemma app_empty_r s : s +:+ "" = s.
Proof. induction s as [|a s IH]; [reflexivity|]. exact (f_equal (String a) IH). Qed.

(** [scan] over a run [w] of characters that pass the test, up to a text
    [tail] whose first character does not. *)
Lemma scan_run ok w tail pos acc :
  all_chars ok w = true →
  ok (head_char (mkParser tail 0)) = false ∨ tail = "" →
  scan ok (w +:+ tail) pos acc = (acc +:+ w, mkParser tail (pos + String.length w)).
Proof.
  intros Hw Htail. revert pos acc Hw.
  induction w as [|c w IH]; intros pos acc Hw; simpl.
  - rewrite app_empty_r, Nat.add_0_r. destruct tail as [|c tail]; simpl; [done|].
    destruct Htail as [Htail|?]; [|done]. unfold head_char in Htail; cbn in Htail.
    by rewrite Htail.
  - cbn in Hw. apply andb_prop in Hw as [Hc Hw]. rewrite Hc.
    rewrite IH by done. rewrite push_back_app. do 2 f_equal. lia.
Qed.

Lemma isDigit_not c d : isDigit c = true → isDigit d = false → Ascii.eqb c d = false.
Proof.
  intros Hc Hd. destruct (Ascii.eqb c d) eqn:E; [|done].
  apply Ascii.eqb_eq in E. congruence.
Qed.

Lemma isDigit_not_space c : isDigit c = true → isSpace c = false.
Proof.
  intros Hc. unfold isSpace.
  rewrite !(isDigit_not c) by done. done.
Qed.

Lemma read_digits_run digits acc count :
  all_chars isDigit digits = true →
  read_digits digits acc count =
  (fst (read_digits digits acc 0), count + String.length digits).
Proof.
  revert acc count. induction digits as [|c ds IH]; intros acc count Hd; simpl.
  - by rewrite Nat.add_0_r.
  - cbn in Hd. apply andb_prop in Hd as [Hc Hd]. rewrite Hc.
    rewrite (IH _ (S count)), (IH _ 1) by done. cbn. f_equal. lia.
Qed.

(** [std::stoi] on a sign and digits. *)
Lemma stoi_integer_text negative digits :
  all_chars isDigit digits = true →
  stoi (integer_text negative digits) =
  if String.eqb digits "" then inl (invalid_argument "stoi")
  else if ((INT_MIN <=? integer_value negative digits)
           && (integer_value negative digits <=? INT_MAX))%Z
       then inr (integer_value negative digits)
       else inl (out_of_range "stoi").
Proof.
  intros Hd. unfold stoi, integer_text, integer_value, decimal_value.
  assert (match (if negative then "-" else "") +:+ digits with
          | String "-" s' => (true, s')
          | String "+" s' => (false, s')
          | _ => (false, (if negative then "-" else "") +:+ digits)
          end = (negative, digits)) as ->.
  { destruct negative; [done|]. simpl. destruct digits as [|c ds]; [done|].
    cbn in Hd. apply andb_prop in Hd as [Hc _].
    pose proof (isDigit_not c "-" Hc eq_refl) as H1.
    pose proof (isDigit_not c "+" Hc eq_refl) as H2.
    destruct (Ascii.eqb_spec c "-"); [done|]. destruct (Ascii.eqb_spec c "+"); [done|].
    destruct c as [[] [] [] [] [] [] [] []]; done. }
  rewrite (read_digits_run digits 0%Z 0 Hd). cbn [fst Nat.add].
  destruct digits as [|c ds]; done.
Qed.

Lemma head_char_tail tail pos :
  head_char (mkParser tail pos) = head_char (mkParser tail 0).
Proof. done. Qed.

Lemma bind_ok {A B} (m : M A) (f : A → M B) p a p' :
  m p = Ok a p' → (m ≫= f) p = f a p'.
Proof. unfold mbind, M_bind. by intros ->. Qed.

Lemma bind_throw {A B} (m : M A) (f : A → M B) p e :
  m p = Throw e → (m ≫= f) p = Throw e.
Proof. unfold mbind, M_bind. by intros ->. Qed.

Lemma peek_eq p : peek p = Ok (head_char p) p.
Proof. done. Qed.

Lemma scan_while_run ok w tail pos acc :
  all_chars ok w = true →
  ok (head_char (mkParser tail 0)) = false ∨ tail = "" →
  scan_while ok acc (mkParser (w +:+ tail) pos) =
  Ok (acc +:+ w) (mkParser tail (pos + String.length w)).
Proof. intros Hw Ht. unfold scan_while. cbn [rest pos_]. by rewrite scan_run. Qed.

(** [parseNumber] on a sign and digits that no point follows: the outcome
    is that of [std::stoi] on the text read. *)
Lemma parseNumber_integer negative digits tail pos :
  all_chars isDigit digits = true →
  negative = true ∨ digits ≠ "" →
  isDigit (head_char (mkParser tail 0)) = false →
  Ascii.eqb (head_char (mkParser tail 0)) "." = false →
  parseNumber stod (mkParser (integer_text negative digits +:+ tail) pos) =
  match stoi (integer_text negative digits) with
  | inr n =>
      Ok (JInt n)
         (mkParser tail (pos + String.length (integer_text negative digits)))
  | inl e => Throw e
  end.
Proof.
  intros Hd Hfirst Htail Hpoint.
  unfold parseNumber.
  destruct negative.
  - change (integer_text true digits +:+ tail) with (String "-" (digits +:+ tail)).
    rewrite (bind_ok skipWhitespace _ _ _ _
               (skipWhitespace_fixed (mkParser (String "-" (digits +:+ tail)) pos)
                  eq_refl)).
    rewrite (bind_ok peek _ _ _ _ (peek_eq _)).
    change (head_char (mkParser (String "-" (digits +:+ tail)) pos)) with "-"%char.
    rewrite Ascii.eqb_refl.
    rewrite (bind_ok _ _ _ "-" (mkParser (digits +:+ tail) (S pos))) by done.
    rewrite (bind_ok _ _ _ _ _ (scan_while_run isDigit digits tail _ _ Hd (or_introl Htail))).
    rewrite (bind_ok peek _ _ _ _ (peek_eq _)).
    rewrite head_char_tail, Hpoint.
    change (push_back "" "-" +:+ digits) with (integer_text true digits).
    change ("-" +:+ digits) with (integer_text true digits).
    destruct (stoi (integer_text true digits)); [done|].
    unfold mret, M_ret. do 2 f_equal.
    change (integer_text true digits) with (String "-" digits). cbn [String.length]. lia.
  - destruct Hfirst as [?|Hne]; [done|]. destruct digits as [|d ds]; [done|].
    change (integer_text false (String d ds) +:+ tail) with (String d (ds +:+ tail)).
    pose proof Hd as Hd'. cbn in Hd'. apply andb_prop in Hd' as [Hc _].
    rewrite (bind_ok skipWhitespace _ _ _ _
               (skipWhitespace_fixed (mkParser (String d (ds +:+ tail)) pos)
                  (isDigit_not_space d Hc))).
    rewrite (bind_ok peek _ _ _ _ (peek_eq _)).
    change (head_char (mkParser (String d (ds +:+ tail)) pos)) with d.
    rewrite (isDigit_not d "-" Hc eq_refl).
    rewrite (bind_ok (mret "") _ _ "" (mkParser (String d (ds +:+ tail)) pos)) by done.
    change (String d (ds +:+ tail)) with (String d ds +:+ tail).
    rewrite (bind_ok _ _ _ _ _
               (scan_while_run isDigit (String d ds) tail _ _ Hd (or_introl Htail))).
    rewrite (bind_ok peek _ _ _ _ (peek_eq _)).
    rewrite head_char_tail, Hpoint.
    change ("" +:+ String d ds) with (integer_text false (String d ds)).
    destruct (stoi (integer_text false (String d ds))); done.
Qed.

(** In value position a sign or a digit leads to [parseNumber]. *)
Lemma parseValue_number fuel p :
  Ascii.eqb (head_char p) "-" || isDigit (head_char p) = true →
  parseValue stod (S fuel) p = parseNumber stod p.
Proof.
  intros Hc. cbn [parseValue].
  assert (isSpace (head_char p) = false ∧ Ascii.eqb (head_char p) DQUOTE = false)
    as [Hsp Hq].
  { apply orb_prop in Hc as [Hc|Hc].
    - apply Ascii.eqb_eq in Hc. by rewrite Hc.
    - split; [by apply isDigit_not_space|by apply isDigit_not]. }
  rewrite (bind_ok skipWhitespace _ _ _ _ (skipWhitespace_fixed _ Hsp)).
  rewrite (bind_ok peek _ _ _ _ (peek_eq _)).
  by rewrite Hq, Hc.
Qed.

Lemma isIdentChar_not c d :
  isIdentChar c = true → isIdentChar d = false → Ascii.eqb c d = false.
Proof.
  intros Hc Hd. destruct (Ascii.eqb c d) eqn:E; [|done].
  apply Ascii.eqb_eq in E. congruence.
Qed.

Lemma isIdentChar_not_space c : isIdentChar c = true → isSpace c = false.
Proof.
  intros Hc. unfold isSpace. rewrite !(isIdentChar_not c) by done. done.
Qed.

(** [parseIdentifier] on a word: it returns the word and stops after it. *)
Lemma parseIdentifier_word c w tail pos :
  all_chars isIdentChar (String c w) = true →
  isIdentChar (head_char (mkParser tail 0)) = false →
  parseIdentifier (mkParser (String c w +:+ tail) pos) =
  Ok (String c w) (mkParser tail (pos + String.length (String c w))).
Proof.
  intros Hw Htail. unfold parseIdentifier.
  pose proof Hw as Hw'. cbn in Hw'. apply andb_prop in Hw' as [Hc _].
  rewrite (bind_ok skipWhitespace _ _ _ _
             (skipWhitespace_fixed (mkParser (String c w +:+ tail) pos)
                (isIdentChar_not_space c Hc))).
  rewrite (bind_ok _ _ _ _ _
             (scan_while_run isIdentChar (String c w) tail _ _ Hw (or_introl Htail))).
  done.
Qed.

(** A bare word in value position (an identifier that does not start with
    a digit, up to a character that is not part of it). *)
Lemma parseValue_bare_word fuel c w tail pos :
  all_chars isIdentChar (String c w) = true →
  isDigit c = false →
  isIdentChar (head_char (mkParser tail 0)) = false →
  parseValue stod (S fuel) (mkParser (String c w +:+ tail) pos) =
  Ok (bare_word_value (String c w))
     (mkParser tail (pos + String.length (String c w))).
Proof.
  intros Hw Hnd Htail. cbn [parseValue].
  pose proof Hw as Hw'. cbn in Hw'. apply andb_prop in Hw' as [Hc _].
  rewrite (bind_ok skipWhitespace _ _ _ _
             (skipWhitespace_fixed (mkParser (String c w +:+ tail) pos)
                (isIdentChar_not_space c Hc))).
  rewrite (bind_ok peek _ _ _ _ (peek_eq _)).
  change (head_char (mkParser (String c w +:+ tail) pos)) with c.
  rewrite (isIdentChar_not c DQUOTE Hc eq_refl), (isIdentChar_not c "-" Hc eq_refl), Hnd.
  cbn [orb]. unfold bare_word_value, parseBool, parseNull.
  destruct (Ascii.eqb c "t" || Ascii.eqb c "f").
  { by rewrite (bind_ok _ _ _ _ _ (parseIdentifier_word c w tail pos Hw Htail)). }
  destruct (Ascii.eqb c "n").
  { by rewrite (bind_ok _ _ _ _ _ (parseIdentifier_word c w tail pos Hw Htail)). }
  rewrite (isIdentChar_not c "{" Hc eq_refl), (isIdentChar_not c "[" Hc eq_refl).
  by rewrite (bind_ok _ _ _ _ _ (parseIdentifier_word c w tail pos Hw Htail)).
Qed.

End Literals.

(** ** The selection set and the whole call *)

Section Document.

Context {double : Type}.
Variable stod : string → exception + double.
Implicit Types (schema : @Schema double) (variables context : @json double).

#[local] Existing Instances M_ret M_bind.
#[local] Open Scope nat_scope.

Lemma bind_inv {A B} (m : M A) (f : A → M B) p b p'' :
  (m ≫= f) p = Ok b p'' → ∃ a p', m p = Ok a p' ∧ f a p' = Ok b p''.
Proof. unfold mbind, M_bind. destruct (m p) as [a p'| |]; [eauto|done..]. Qed.

(** The loop of [parseSelectionSet] only adds to the list, and adds
    nothing only when it stops at once. *)
Lemma fields_loop_extends (parseField : M (@FieldSelection double)) fuel sels p out p' :
  fields_loop parseField fuel sels p = Ok out p' →
  ∃ more, out = sels ++ more
          ∧ (more = [] ↔ (Ascii.eqb (head_char p) "}" || Ascii.eqb (head_char p) NUL = true))
          ∧ (more = [] → p' = p).
Proof.
  revert sels p. induction fuel as [|fuel IH]; intros sels p; [done|].
  cbn [fields_loop]. rewrite (bind_ok peek _ _ _ _ (peek_eq _)).
  destruct (Ascii.eqb (head_char p) "}") eqn:Hc1; cbn [negb andb orb].
  { intros [= <- <-]. exists []. by rewrite app_nil_r. }
  destruct (Ascii.eqb (head_char p) NUL) eqn:Hc2; cbn [negb].
  { intros [= <- <-]. exists []. by rewrite app_nil_r. }
  intros (field & p1 & Hf & Hrest)%bind_inv.
  apply bind_inv in Hrest as (u & p2 & Hws & Hloop).
  apply IH in Hloop as (more & -> & _ & _).
  exists (field :: more). rewrite <- app_assoc. split_and!; done.
Qed.

Lemma expect_at_end c p :
  c ≠ NUL → head_char p = NUL → ∀ p', expect c p ≠ Ok tt p'.
Proof.
  intros Hc Hp p'. unfold expect.
  assert (isSpace (head_char p) = false) as Hsp by (by rewrite Hp).
  rewrite (bind_ok skipWhitespace _ _ _ _ (skipWhitespace_fixed p Hsp)).
  assert (∃ q, advance p = Ok NUL q) as [q Hq].
  { destruct p as [[|a s] pos]; unfold advance, head_char in *; cbn in *; [eauto|].
    subst a. eauto. }
  rewrite (bind_ok advance _ _ _ _ Hq).
  destruct (Ascii.eqb NUL c) eqn:E; [|done].
  apply Ascii.eqb_eq in E. done.
Qed.

(** A selection set that is read in full has no field exactly when its
    closing brace comes right after the opening one, white space and
    commas apart. *)
Lemma parseSelectionSet_empty (parseField : M (@FieldSelection double)) fuel p sels p' :
  parseSelectionSet parseField fuel p = Ok sels p' →
  ∃ body, (expect "{" ≫= λ _, skipWhitespace) p = Ok tt body
          ∧ (sels = [] ↔ head_char body = "}"%char).
Proof.
  unfold parseSelectionSet.
  intros ([] & p1 & Hopen & Hrest)%bind_inv.
  apply bind_inv in Hrest as ([] & body & Hws & Hrest).
  apply bind_inv in Hrest as (out & p3 & Hloop & Hrest).
  apply bind_inv in Hrest as ([] & p4 & Hclose & [= <- <-]).
  exists body. split; [by rewrite (bind_ok _ _ _ _ _ Hopen)|].
  apply fields_loop_extends in Hloop as (more & -> & Hmore & Hsame).
  cbn [app]. rewrite Hmore. split.
  - intros Hstop. pose proof (proj2 Hmore Hstop) as Hnil. specialize (Hsame Hnil). subst p3.
    apply orb_prop in Hstop as [H|H]; apply Ascii.eqb_eq in H; [done|].
    by destruct (expect_at_end "}" body ltac:(done) H p4).
  - intros ->. done.
Qed.

(** C8, as the code has it. A query text the parser accepts has an empty
    selection list exactly when its top-level selection set is an empty
    pair of braces (with at most white space and commas in between); in
    every other accepted query the list is non-empty. *)
Theorem C8_selection_list fuel queryStr parsed p' :
  parse_query stod fuel queryStr = Ok parsed p' →
  ∃ header start body,
    parse_header (mkParser queryStr 0) = Ok header start
    ∧ (expect "{" ≫= λ _, skipWhitespace) start = Ok tt body
    ∧ (top_selections parsed = [] ↔ head_char body = "}"%char).
Proof.
  unfold parse_query, parse.
  intros ([opType opName] & start & Hheader & Hrest)%bind_inv.
  apply bind_inv in Hrest as (sels & p2 & Hsels & [= <- <-]).
  apply parseSelectionSet_empty in Hsels as (body & Hbody & Hempty).
  by exists (opType, opName), start, body.
Qed.

(** C10, as the code has it. [execute] returns an envelope for every query
    text, provided that no resolver call it makes throws anything but a
    [std::exception]. A number without a point that has no digit (a lone
    minus sign) or that does not fit [int] yields no Int: the parser
    throws, and whatever the parser throws becomes the parse-failure
    envelope, whose data is Null. (A minus sign followed by a point is read
    as a Float, see [C10_counterexample].) *)
Theorem C10_execute_total schema queryStr variables context :
  (∀ parsed p' field resolver,
     parse_query stod (S (String.length queryStr)) queryStr = Ok parsed p' →
     field ∈ top_selections parsed →
     (if String.eqb (operationType parsed) "mutation"
      then mutationResolvers_ schema else queryResolvers_ schema) !! name field
       = Some resolver →
     resolver (call_arguments variables field) context ≠ ThrowsOther) →
  (∃ envelope calls,
     execute stod schema queryStr variables context = Response envelope calls)
  ∧ (∀ fuel negative digits tail pos,
       all_chars isDigit digits = true →
       negative = true ∨ digits ≠ "" →
       isDigit (head_char (mkParser tail 0)) = false →
       Ascii.eqb (head_char (mkParser tail 0)) "." = false →
       let text := mkParser (integer_text negative digits +:+ tail) pos in
       (digits = "" →
        parseValue stod (S fuel) text = Throw (invalid_argument "stoi"))
       ∧ ((integer_value negative digits < INT_MIN
           ∨ INT_MAX < integer_value negative digits)%Z →
          digits ≠ "" →
          parseValue stod (S fuel) text = Throw (out_of_range "stoi")))
  ∧ (∀ e, parse_query stod (S (String.length queryStr)) queryStr = Throw e →
       execute stod schema queryStr variables context =
       Response (JObject (<["data" := JNull]>
                         (<["errors" :=
                              JArray [JObject {[ "message" :=
                                        JString ("Parse error: " +:+ what e) ]}]]>
                          ∅))) []).
Proof.
  intros Hresolvers. split_and!.
  - unfold execute, execute_with.
    pose proof (fuel_suffices stod queryStr (S (String.length queryStr))
                  ltac:(lia)) as Hfuel.
    destruct (parse_query stod _ queryStr) as [parsed p'|e|]; [|by eauto|done].
    destruct (execute_fields _ _ _ _ _ _) as [st|] eqn:Hrun; [by eauto|].
    apply execute_fields_escape in Hrun as (field & r & Hin & Hr & Hcall).
    by destruct (Hresolvers parsed p' field r eq_refl Hin Hr).
  - intros fuel negative digits tail pos Hd Hfirst Htail Hpoint text.
    assert (parseValue stod (S fuel) text =
            match stoi (integer_text negative digits) with
            | inr n => Ok (JInt n)
                         (mkParser tail (pos + String.length (integer_text negative digits)))
            | inl e => Throw e
            end) as ->.
    { rewrite parseValue_number; [by apply parseNumber_integer|].
      unfold text. destruct negative; [done|].
      destruct Hfirst as [?|Hne]; [done|]. destruct digits as [|d ds]; [done|].
      cbn in Hd. apply andb_prop in Hd as [Hc _].
      change (head_char _) with d. by rewrite Hc, orb_true_r. }
    rewrite stoi_integer_text by done. split.
    + by intros ->.
    + intros Hrange Hne. destruct (String.eqb_spec digits ""); [done|].
      destruct ((INT_MIN <=? _) && (_ <=? INT_MAX))%Z eqn:Hin; [|done].
      apply andb_prop in Hin as [?%Z.leb_le ?%Z.leb_le]. lia.
  - intros e He. by apply execute_parse_failure.
Qed.

End Document.

(** ** The model run on concrete queries *)

#[local] Existing Instances M_ret M_bind.

(** C1, at a failing field whose name is the response key of a sibling. In
    [{ failing: hello a: failing }] the selection of [hello] has the alias
    "failing" and the failing selection has the alias "a": the two response
    keys differ. Without the failing selection, data holds "world" under
    "failing". With it, the resolver of the sibling is called all the same
    and data is an Object, but the Null that the handler of the exception
    writes under the name "failing" replaces the sibling's result, and
    nothing is stored under "a". *)
Lemma C1_sibling_result_erased :
  demo_execute demo_schema "{ failing: hello a: failing }" =
  Response
    (JObject
       (<["data" := JObject {[ "failing" := JNull ]}]>
       (<["errors" :=
            JArray [JObject (<["message" := JString "Something went wrong"]>
                            (<["path" := JArray [JString "failing"]]> ∅))]]>
        ∅)))
    [("hello", JObject ∅, JObject ∅); ("failing", JObject ∅, JObject ∅)]
  ∧ demo_execute demo_schema "{ failing: hello }" =
    Response
      (JObject {[ "data" := JObject {[ "failing" := JString "world" ]} ]})
      [("hello", JObject ∅, JObject ∅)].
Proof. split; vm_compute; reflexivity. Qed.

(** C2, at a failing field that carries an alias. The error has the text of
    the exception and the path [name]; the Null is stored under the name
    "failing", and the alias "a" is no key of data. *)
Lemma C2_alias_failure_key :
  demo_execute demo_schema "{ a: failing }" =
  Response
    (JObject
       (<["data" := JObject {[ "failing" := JNull ]}]>
       (<["errors" :=
            JArray [JObject (<["message" := JString "Something went wrong"]>
                            (<["path" := JArray [JString "failing"]]> ∅))]]>
        ∅)))
    [("failing", JObject ∅, JObject ∅)].
Proof. vm_compute. reflexivity. Qed.

(** C3, at bare words that start like a keyword: [free] is read as the
    Bool false and [north] as Null, not as the Strings "free" and "north";
    [true], [false], [null] and [red] are read as the specification says. *)
Lemma C3_bare_word_misread :
  parseValue decimal_stod 5 (at_start "free") = Ok (JBool false) (mkParser "" 4)
  ∧ parseValue decimal_stod 6 (at_start "north") = Ok JNull (mkParser "" 5)
  ∧ parseValue decimal_stod 5 (at_start "true") = Ok (JBool true) (mkParser "" 4)
  ∧ parseValue decimal_stod 6 (at_start "false") = Ok (JBool false) (mkParser "" 5)
  ∧ parseValue decimal_stod 5 (at_start "null") = Ok JNull (mkParser "" 4)
  ∧ parseValue decimal_stod 4 (at_start "red") = Ok (JString "red") (mkParser "" 3).
Proof. repeat split; vm_compute; reflexivity. Qed.

(** C5 against the specification's envelope: the error that [execute]
    returns has a third key, locations. *)
Lemma C5_counterexample :
  ¬ ∃ calls,
      demo_execute empty_schema "{ unknownField }" =
      Response
        (JObject
           (<["data" := JObject ∅]>
           (<["errors" :=
                JArray [JObject
                  (<["message" :=
                       JString "Cannot query field 'unknownField' on type 'query'"]>
                  (<["path" := JArray [JString "unknownField"]]> ∅))]]>
            ∅)))
        calls.
Proof.
  intros [calls H].
  apply (f_equal (λ r, match r with
                       | Response envelope _ =>
                           e ← find_member envelope "errors";
                           e ← head (array_elements e);
                           find_member e "locations"
                       | _ => None
                       end)) in H.
  vm_compute in H. discriminate H.
Qed.

(** C8 against the specification's non-empty list: an empty pair of
    braces is accepted, with no selection. *)
Lemma C8_counterexample :
  parse_query decimal_stod (S (String.length "{}")) "{}" =
  Ok (mkParsedQuery "query" "" []) (mkParser "" 2).
Proof. vm_compute. reflexivity. Qed.

(** C10 against the specification's lone minus sign: a minus sign that a
    point follows is no parse failure, it is read as a
    Float, and the call returns data. *)
Lemma C10_counterexample :
  demo_execute demo_schema "{ hello(x: -.5) }" =
  Response
    (JObject {[ "data" := JObject {[ "hello" := JString "world" ]} ]})
    [("hello", JObject {[ "x" := JFloat (Decimal true "" "5") ]}, JObject ∅)].
Proof. vm_compute. reflexivity. Qed.

(** The scenarios of the specification and the tests of
    tests/test_graphql.cpp. *)

Example test_SimpleQueryExecution :
  demo_execute demo_schema "{ hello }" =
  Response (JObject {[ "data" := JObject {[ "hello" := JString "world" ]} ]})
           [("hello", JObject ∅, JObject ∅)].
Proof. vm_compute. reflexivity. Qed.

Example test_FieldSelectionFiltering :
  demo_execute demo_schema "{ user(id: 42) { name id } }" =
  Response
    (JObject {[ "data" :=
       JObject {[ "user" :=
         JObject (<["name" := JString "User42"]> {[ "id" := JInt 42 ]}) ]} ]})
    [("user", JObject {[ "id" := JInt 42 ]}, JObject ∅)].
Proof. vm_compute. reflexivity. Qed.

Example test_AliasInExecution :
  demo_execute demo_schema "{ a: user(id:1){name} b: user(id:2){name} }" =
  Response
    (JObject {[ "data" :=
       JObject (<["a" := JObject {[ "name" := JString "User1" ]}]>
                {[ "b" := JObject {[ "name" := JString "User2" ]} ]}) ]})
    [("user", JObject {[ "id" := JInt 1 ]}, JObject ∅);
     ("user", JObject {[ "id" := JInt 2 ]}, JObject ∅)].
Proof. vm_compute. reflexivity. Qed.

Example test_ResolverErrorHandling :
  demo_execute demo_schema "{ failing hello }" =
  Response
    (JObject
       (<["data" := JObject (<["failing" := JNull]> {[ "hello" := JString "world" ]})]>
       (<["errors" :=
            JArray [JObject (<["message" := JString "Something went wrong"]>
                            (<["path" := JArray [JString "failing"]]> ∅))]]>
        ∅)))
    [("failing", JObject ∅, JObject ∅); ("hello", JObject ∅, JObject ∅)].
Proof. vm_compute. reflexivity. Qed.

Example test_NestedSelections :
  parse_query decimal_stod 100
    "{ user(id: 1) { name email posts { title } } }" =
  Ok (mkParsedQuery "query" ""
        [mkFieldSelection "user" "" {[ "id" := JInt 1 ]}
           [mkFieldSelection "name" "" ∅ [];
            mkFieldSelection "email" "" ∅ [];
            mkFieldSelection "posts" "" ∅ [mkFieldSelection "title" "" ∅ []]]])
     (mkParser "" 46).
Proof. vm_compute. reflexivity. Qed.

Example test_MutationKeyword :
  parse_query decimal_stod 100 "mutation { createUser }" =
  Ok (mkParsedQuery "mutation" "" [mkFieldSelection "createUser" "" ∅ []])
     (mkParser "" 23).
Proof. vm_compute. reflexivity. Qed.

(** The projector on an array of objects and scalars. *)
Example filterFields_array :
  filterFields
    (JObject {[ "posts" :=
       JArray [JObject (<["title" := JString "t1"]> {[ "body" := JString "b1" ]});
               JInt 7] ]} : @json decimal)
    [mkFieldSelection "posts" "p" ∅ [mkFieldSelection "title" "" ∅ []];
     mkFieldSelection "missing" "" ∅ []]
    ∅ =
  {[ "p" := JArray [JObject {[ "title" := JString "t1" ]}; JInt 7] ]}.
Proof. vm_compute. reflexivity. Qed.

(** C4 at the text of the test ParseErrorReturnsError. *)
Lemma C4_witness :
  demo_execute demo_schema "this is not valid graphql {{{" =
  Response
    (JObject (<["data" := JNull]>
             (<["errors" :=
                  JArray [JObject {[ "message" :=
                    JString "Parse error: Expected 'query' or 'mutation', got 'this'" ]}]]>
              ∅)))
    [].
Proof.
  apply (C4_parse_failure decimal_stod demo_schema "this is not valid graphql {{{"
           (JObject ∅) (JObject ∅) 30
           (runtime_error "Expected 'query' or 'mutation', got 'this'")).
  - vm_compute. repeat constructor.
  - vm_compute. reflexivity.
Defined.

(** C5 at the field unknownField on an empty registry. *)
Lemma C5_witness :
  execute_field (∅ : gmap string (@Resolver decimal)) "query" (JObject ∅) (JObject ∅)
    (mkFieldSelection "unknownField" "" ∅ []) demo_start =
  Some (mkExecution ∅
          [JObject (<["message" :=
                        JString "Cannot query field 'unknownField' on type 'query'"]>
                   (<["locations" := JArray []]>
                   (<["path" := JArray [JString "unknownField"]]> ∅)))]
          []).
Proof.
  exact (proj1 (proj1 (C5_unknown_field decimal_stod ∅ "query" (JObject ∅) (JObject ∅)
                         (mkFieldSelection "unknownField" "" ∅ []) [] demo_start)
                  eq_refl)).
Defined.


(** C8 at [{ user }] and at an empty pair of braces. *)
Lemma C8_witness :
  ∃ header start body,
    parse_header (mkParser "{ user }" 0) = Ok header start
    ∧ (expect "{" ≫= λ _, skipWhitespace) start = Ok tt body
    ∧ head_char body = "u"%char.
Proof.
  destruct (C8_selection_list decimal_stod 9 "{ user }"
              (mkParsedQuery "query" "" [mkFieldSelection "user" "" ∅ []])
              (mkParser "" 8) eq_refl)
    as (header & start & body & Hheader & Hbody & _).
  exists header, start, body. split_and!; [exact Hheader|exact Hbody|].
  vm_compute in Hheader. injection Hheader as <- <-.
  vm_compute in Hbody. injection Hbody as <-. reflexivity.
Defined.

Lemma demo_resolvers_throw_std name (resolver : @Resolver decimal) args context :
  queryResolvers_ demo_schema !! name = Some resolver
  ∨ mutationResolvers_ demo_schema !! name = Some resolver →
  resolver args context ≠ ThrowsOther.
Proof.
  unfold demo_schema, query, Resolver; cbn [queryResolvers_ mutationResolvers_].
  intros [H|H]; [|by rewrite lookup_empty in H].
  rewrite !lookup_insert, lookup_empty in H.
  repeat case_decide; try done; injection H as <-; try done.
  unfold demo_user. by destruct (find_member args "id") as [[]|].
Defined.

Lemma demo_chosen_registry (parsed : @ParsedQuery decimal) name
    (resolver : @Resolver decimal) :
  (if String.eqb (operationType parsed) "mutation"
   then mutationResolvers_ demo_schema else queryResolvers_ demo_schema) !! name
    = Some resolver →
  queryResolvers_ demo_schema !! name = Some resolver
  ∨ mutationResolvers_ demo_schema !! name = Some resolver.
Proof. destruct (String.eqb _ _); auto. Defined.

(** C10 at an argument that does not fit [int], and at a lone minus
    sign. *)
Lemma C10_witness :
  (∃ envelope calls,
     demo_execute demo_schema "{ hello(x: 99999999999) }" = Response envelope calls)
  ∧ parseValue decimal_stod 1 (mkParser (integer_text false "99999999999" +:+ ")") 0)
    = Throw (out_of_range "stoi")
  ∧ parseValue decimal_stod 1 (mkParser (integer_text true "" +:+ " )") 0)
    = Throw (invalid_argument "stoi")
  ∧ demo_execute demo_schema "{ hello(x: 99999999999) }" =
    Response (JObject (<["data" := JNull]>
                      (<["errors" :=
                           JArray [JObject {[ "message" :=
                                     JString "Parse error: stoi" ]}]]> ∅))) [].
Proof.
  destruct (C10_execute_total decimal_stod demo_schema "{ hello(x: 99999999999) }"
              (JObject ∅) (JObject ∅)
              (λ parsed p' field resolver _ _ Hr,
                 demo_resolvers_throw_std (name field) resolver
                   (call_arguments (JObject ∅) field) (JObject ∅)
                   (demo_chosen_registry parsed (name field) resolver Hr)))
    as (Htotal & Hnumber & Hfailure).
  assert ("99999999999" ≠ "") as Hdigits by discriminate.
  destruct (Hnumber 0%nat false "99999999999" ")" 0%nat eq_refl
              (or_intror Hdigits) eq_refl eq_refl) as [_ Hrange].
  destruct (Hnumber 0%nat true "" " )" 0%nat eq_refl (or_introl eq_refl)
              eq_refl eq_refl) as [Hsign _].
  split_and!.
  - exact Htotal.
  - apply Hrange; [right; vm_compute; reflexivity|exact Hdigits].
  - apply Hsign. reflexivity.
  - apply (Hfailure (out_of_range "stoi")). vm_compute. reflexivity.
Defined.

(** C7 at the source
    [{name: "User42", secret: "x", posts: [{title: "t1", body: "b"}, 7]}]
    and the selections [email], [n: name] and [posts { title }]: the
    missing member is dropped, the leaf is copied under its alias, the
    array is mapped, and nothing else is in the output. *)
Lemma C7_witness :
  let m : gmap string (@json decimal) :=
    <["name" := JString "User42"]>
    (<["secret" := JString "x"]>
     {[ "posts" := JArray [JObject (<["title" := JString "t1"]>
                                    {[ "body" := JString "b" ]}); JInt 7] ]}) in
  let sel_email := mkFieldSelection "email" "" ∅ [] in
  let sel_name := mkFieldSelection "name" "n" ∅ [] in
  let sel_posts := mkFieldSelection "posts" "" ∅ [mkFieldSelection "title" "" ∅ []] in
  filterFields (JObject m) [sel_email; sel_name; sel_posts] ∅
  = <["n" := JString "User42"]>
    {[ "posts" := JArray [JObject {[ "title" := JString "t1" ]}; JInt 7] ]}
  ∧ (is_Some (filterFields (JObject m) [sel_email; sel_name; sel_posts] ∅ !! "secret")
     ↔ ∃ sel, sel ∈ [sel_email; sel_name; sel_posts]
              ∧ response_key sel = "secret" ∧ is_Some (m !! name sel)).
Proof.
  intros m sel_email sel_name sel_posts.
  destruct (C7_projector_cases m [sel_name; sel_posts])
    as (_ & Hmissing & _ & _ & _ & _ & _).
  destruct (C7_projector_cases m [sel_posts]) as (_ & _ & _ & Hleaf & _ & _ & _).
  destruct (C7_projector_cases m []) as (Hnil & _ & Harray & _ & _ & _ & _).
  destruct (C7_projector_cases m [sel_email; sel_name; sel_posts])
    as (_ & _ & _ & _ & _ & _ & Hkeys).
  assert (selections sel_posts ≠ []) as Hchildren by discriminate.
  split; [|exact (Hkeys "secret")].
  etrans; [apply (Hmissing sel_email ∅); vm_compute; reflexivity|].
  etrans; [apply (Hleaf sel_name ∅ (JString "User42"));
           [vm_compute; reflexivity|left; reflexivity]|].
  etrans; [apply (Harray sel_posts _
                    [JObject (<["title" := JString "t1"]> {[ "body" := JString "b" ]});
                     JInt 7]);
           [vm_compute; reflexivity|exact Hchildren]|].
  etrans; [apply Hnil|]. vm_compute. reflexivity.
Defined.

(** C9 at an unknown field and at the resolver [failing]. *)
Lemma C9_witness :
  (∃ st' e,
     execute_field (queryResolvers_ demo_schema) "query" (JObject ∅) (JObject ∅)
       (mkFieldSelection "unknownField" "" ∅ []) demo_start = Some st'
     ∧ errors st' = errors demo_start ++ [JObject e]
     ∧ dom e = ({["message"; "path"; "locations"]} : gset string)
     ∧ e !! "locations" = Some (JArray []))
  ∧ (∃ st' e,
       execute_field (queryResolvers_ demo_schema) "query" (JObject ∅) (JObject ∅)
         demo_field_failing demo_start = Some st'
       ∧ errors st' = errors demo_start ++ [JObject e]
       ∧ dom e = ({["message"; "path"]} : gset string)).
Proof.
  split.
  - apply (proj1 (C9_error_shapes (queryResolvers_ demo_schema) "query" (JObject ∅)
                    (JObject ∅) (mkFieldSelection "unknownField" "" ∅ []) demo_start)).
    vm_compute. reflexivity.
  - apply (proj2 (C9_error_shapes (queryResolvers_ demo_schema) "query" (JObject ∅)
                    (JObject ∅) demo_field_failing demo_start)
             demo_failing "Something went wrong"); reflexivity.
Defined.

(** * Further properties of the parser *)

Section ParserFacts.

Context {double : Type}.
Variable stod : string → exception + double.

#[local] Existing Instances M_ret M_bind.
#[local] Open Scope nat_scope.

(** X1. The parser terminates on every text: a counter above the length
    of the text is never used up, and every such counter gives the same
    outcome. The same holds of a value read from any cursor. *)
Theorem X1_parser_terminates queryStr fuel p :
  String.length queryStr < fuel →
  remaining p < fuel →
  parse_query stod fuel queryStr ≠ OutOfFuel
  ∧ parse_query stod fuel queryStr
    = parse_query stod (S (String.length queryStr)) queryStr
  ∧ parseValue stod fuel p ≠ OutOfFuel
  ∧ parseValue stod fuel p = parseValue stod (S (remaining p)) p.
Proof.
  intros Hq Hp. split_and!.
  - by apply fuel_suffices.
  - by apply parse_query_fuel.
  - pose proof (wp_parseValue stod fuel p Hp) as H. unfold wp in H.
    by destruct (parseValue stod fuel p).
  - destruct (parseValue_refines stod (S (remaining p)) fuel p ltac:(lia))
      as [Hout|Heq]; [|done].
    pose proof (wp_parseValue stod (S (remaining p)) p ltac:(lia)) as H.
    unfold wp in H. by rewrite Hout in H.
Qed.

(** X5. An integer literal that fits [int], in value position: the value
    is the Int it denotes, and the cursor stops right after the digits. *)
Theorem X5_integer_literal fuel negative digits tail pos :
  all_chars isDigit digits = true →
  digits ≠ "" →
  isDigit (head_char (mkParser tail 0)) = false →
  Ascii.eqb (head_char (mkParser tail 0)) "." = false →
  (INT_MIN ≤ integer_value negative digits ≤ INT_MAX)%Z →
  parseValue stod (S fuel) (mkParser (integer_text negative digits +:+ tail) pos) =
  Ok (JInt (integer_value negative digits))
     (mkParser tail (pos + String.length (integer_text negative digits))).
Proof.
  intros Hd Hne Htail Hpoint [Hlo Hhi].
  rewrite parseValue_number.
  - rewrite parseNumber_integer by auto. rewrite stoi_integer_text by done.
    destruct (String.eqb_spec digits ""); [done|].
    apply Z.leb_le in Hlo, Hhi. by rewrite Hlo, Hhi.
  - destruct negative; [done|]. destruct digits as [|d ds]; [done|].
    cbn in Hd. apply andb_prop in Hd as [Hc _].
    change (head_char _) with d. by rewrite Hc, orb_true_r.
Qed.

(** [parseNumber] on a sign, digits, a point and digits: [std::stod]
    receives exactly that text. *)
Lemma parseNumber_float negative integral fraction tail pos :
  all_chars isDigit integral = true →
  all_chars isDigit fraction = true →
  negative = true ∨ integral ≠ "" →
  isDigit (head_char (mkParser tail 0)) = false →
  parseNumber stod
    (mkParser (float_text negative integral fraction +:+ tail) pos) =
  match stod (float_text negative integral fraction) with
  | inr d =>
      Ok (JFloat d)
         (mkParser tail
            (pos + String.length (float_text negative integral fraction)))
  | inl e => Throw e
  end.
Proof.
  intros Hi Hf Hfirst Htail.
  assert (∀ a b c : string, (a +:+ b) +:+ c = a +:+ (b +:+ c)) as Hassoc.
  { intros a b c. induction a as [|x a IH]; [reflexivity|].
    exact (f_equal (String x) IH). }
  assert (∀ a b : string, String.length (a +:+ b) = String.length a + String.length b)
    as Hlen.
  { intros a b. induction a as [|x a IH]; [reflexivity|].
    exact (f_equal S IH). }
  assert (∀ q, scan_while isDigit (push_back (integer_text negative integral) ".")
                 (mkParser (fraction +:+ tail) q) =
               Ok (float_text negative integral fraction)
                  (mkParser tail (q + String.length fraction))) as Hfrac.
  { intros q. rewrite (scan_while_run isDigit fraction tail _ _ Hf (or_introl Htail)).
    unfold float_text, push_back. by rewrite Hassoc. }
  assert (String.length (float_text negative integral fraction)
          = S (String.length (integer_text negative integral) + String.length fraction))
    as Hsize.
  { unfold float_text. rewrite Hlen. cbn [String.length]. lia. }
  assert (integer_text negative integral +:+ String "." (fraction +:+ tail)
          = float_text negative integral fraction +:+ tail) as Htext.
  { unfold float_text. by rewrite Hassoc. }
  rewrite <- Htext, Hsize. unfold parseNumber.
  destruct negative.
  - change (integer_text true integral +:+ String "." (fraction +:+ tail))
      with (String "-" (integral +:+ String "." (fraction +:+ tail))).
    rewrite (bind_ok skipWhitespace _ _ _ _
               (skipWhitespace_fixed
                  (mkParser (String "-" (integral +:+ String "." (fraction +:+ tail))) pos)
                  eq_refl)).
    rewrite (bind_ok peek _ _ _ _ (peek_eq _)).
    change (head_char (mkParser (String "-" _) pos)) with "-"%char.
    rewrite Ascii.eqb_refl.
    rewrite (bind_ok _ _ _ "-"
               (mkParser (integral +:+ String "." (fraction +:+ tail)) (S pos)))
      by done.
    rewrite (bind_ok _ _ _ _ _
               (scan_while_run isDigit integral (String "." (fraction +:+ tail)) _ _ Hi
                  (or_introl eq_refl))).
    rewrite (bind_ok peek _ _ _ _ (peek_eq _)).
    change (head_char (mkParser (String "." (fraction +:+ tail)) _)) with "."%char.
    rewrite Ascii.eqb_refl.
    rewrite (bind_ok advance _ _ "."%char
               (mkParser (fraction +:+ tail) (S (S pos + String.length integral))))
      by done.
    change (push_back "" "-" +:+ integral) with (integer_text true integral).
    change ("-" +:+ integral) with (integer_text true integral).
    rewrite (bind_ok _ _ _ _ _ (Hfrac _)).
    destruct (stod (float_text true integral fraction)); [done|].
    unfold mret, M_ret. do 2 f_equal.
    change (integer_text true integral) with (String "-" integral).
    cbn [String.length]. lia.
  - destruct Hfirst as [?|Hne]; [done|]. destruct integral as [|d ds]; [done|].
    change (integer_text false (String d ds) +:+ String "." (fraction +:+ tail))
      with (String d (ds +:+ String "." (fraction +:+ tail))).
    pose proof Hi as Hi'. cbn in Hi'. apply andb_prop in Hi' as [Hc _].
    rewrite (bind_ok skipWhitespace _ _ _ _
               (skipWhitespace_fixed
                  (mkParser (String d (ds +:+ String "." (fraction +:+ tail))) pos)
                  (isDigit_not_space d Hc))).
    rewrite (bind_ok peek _ _ _ _ (peek_eq _)).
    change (head_char (mkParser (String d _) pos)) with d.
    rewrite (isDigit_not d "-" Hc eq_refl).
    rewrite (bind_ok (mret "") _ _ ""
               (mkParser (String d (ds +:+ String "." (fraction +:+ tail))) pos))
      by done.
    change (String d (ds +:+ String "." (fraction +:+ tail)))
      with (String d ds +:+ String "." (fraction +:+ tail)).
    rewrite (bind_ok _ _ _ _ _
               (scan_while_run isDigit (String d ds) (String "." (fraction +:+ tail))
                  _ _ Hi (or_introl eq_refl))).
    rewrite (bind_ok peek _ _ _ _ (peek_eq _)).
    change (head_char (mkParser (String "." (fraction +:+ tail)) _)) with "."%char.
    rewrite Ascii.eqb_refl.
    rewrite (bind_ok advance _ _ "."%char
               (mkParser (fraction +:+ tail) (S (pos + String.length (String d ds)))))
      by done.
    change ("" +:+ String d ds) with (integer_text false (String d ds)).
    rewrite (bind_ok _ _ _ _ _ (Hfrac _)).
    destruct (stod (float_text false (String d ds) fraction)); [done|].
    unfold mret, M_ret. do 2 f_equal.
    change (integer_text false (String d ds)) with (String d ds). lia.
Qed.

(** X6. A number with a point, in value position: [std::stod] is applied
    to the sign, the digits, the point and the digits after it, and to
    nothing else; the value is the Float it returns, and what it throws
    leaves the parser. Digits may be missing before the point after a
    minus sign, and after the point. *)
Theorem X6_float_literal fuel negative integral fraction tail pos :
  all_chars isDigit integral = true →
  all_chars isDigit fraction = true →
  negative = true ∨ integral ≠ "" →
  isDigit (head_char (mkParser tail 0)) = false →
  parseValue stod (S fuel)
    (mkParser (float_text negative integral fraction +:+ tail) pos) =
  match stod (float_text negative integral fraction) with
  | inr d =>
      Ok (JFloat d)
         (mkParser tail
            (pos + String.length (float_text negative integral fraction)))
  | inl e => Throw e
  end.
Proof.
  intros Hi Hf Hfirst Htail. rewrite parseValue_number.
  - by apply parseNumber_float.
  - destruct negative; [done|]. destruct Hfirst as [?|Hne]; [done|].
    destruct integral as [|d ds]; [done|].
    cbn in Hi. apply andb_prop in Hi as [Hc _].
    change (head_char _) with d. by rewrite Hc, orb_true_r.
Qed.

(** X7. A bare word in value position (an identifier that starts with a
    letter or an underscore): its first character alone decides. A word
    that starts with t or f is the Bool that says whether the word is
    [true]; a word that starts with n is Null; any other word is the
    String of the word. The cursor stops right after the word. *)
Theorem X7_bare_word_dispatch fuel c w tail pos :
  all_chars isIdentChar (String c w) = true →
  isDigit c = false →
  isIdentChar (head_char (mkParser tail 0)) = false →
  parseValue stod (S fuel) (mkParser (String c w +:+ tail) pos) =
  Ok (if Ascii.eqb c "t" || Ascii.eqb c "f"
      then JBool (String.eqb (String c w) "true")
      else if Ascii.eqb c "n" then JNull
      else JString (String c w))
     (mkParser tail (pos + String.length (String c w))).
Proof. intros Hw Hd Htail. by rewrite parseValue_bare_word. Qed.

Lemma skipWhitespace_loop_spaces ws tail pos :
  all_chars isSpace ws = true →
  isSpace (head_char (mkParser tail 0)) = false →
  skipWhitespace_loop (ws +:+ tail) pos = mkParser tail (pos + String.length ws).
Proof.
  intros Hws Htail. revert pos. induction ws as [|c ws IH]; intros pos.
  - change ("" +:+ tail) with tail. cbn [String.length]. rewrite Nat.add_0_r.
    destruct tail as [|a tail]; [done|]. unfold head_char in Htail; cbn in Htail.
    cbn [skipWhitespace_loop]. by rewrite Htail.
  - cbn in Hws. apply andb_prop in Hws as [Hc Hws].
    change (String c ws +:+ tail) with (String c (ws +:+ tail)).
    cbn [skipWhitespace_loop String.length]. rewrite Hc, IH by done. f_equal. lia.
Qed.

Lemma skipWhitespace_spaces ws tail pos :
  all_chars isSpace ws = true →
  isSpace (head_char (mkParser tail 0)) = false →
  skipWhitespace (mkParser (ws +:+ tail) pos)
  = Ok tt (mkParser tail (pos + String.length ws)).
Proof.
  intros Hws Htail. unfold skipWhitespace. cbn [rest pos_].
  by rewrite skipWhitespace_loop_spaces.
Qed.

(** X8. The two errors of the operation header, whatever the counter. A
    text of white space and commas only (the empty text too) is rejected
    with "Expected identifier at position n", n being its length; a text
    whose first word is neither [query] nor [mutation] is rejected with
    "Expected 'query' or 'mutation', got '<word>'". *)
Theorem X8_header_errors fuel :
  (∀ ws,
     all_chars isSpace ws = true →
     parse_query stod fuel ws =
     Throw (runtime_error
              ("Expected identifier at position " +:+ to_string (String.length ws))))
  ∧ (∀ ws c w tail,
       all_chars isSpace ws = true →
       all_chars isIdentChar (String c w) = true →
       isIdentChar (head_char (mkParser tail 0)) = false →
       String c w ≠ "query" → String c w ≠ "mutation" →
       parse_query stod fuel (ws +:+ String c w +:+ tail) =
       Throw (runtime_error
                ("Expected 'query' or 'mutation', got '" +:+ String c w +:+ "'"))).
Proof.
  split.
  - intros ws Hws. unfold parse_query, parse, parse_header.
    assert (ws = ws +:+ "") as Hws' by (by rewrite app_empty_r).
    rewrite Hws' at 1.
    apply bind_throw.
    rewrite (bind_ok skipWhitespace _ _ _ _
               (skipWhitespace_spaces ws "" 0 Hws eq_refl)).
    rewrite (bind_ok peek _ _ _ _ (peek_eq _)).
    change (Ascii.eqb (head_char (mkParser "" (0 + String.length ws))) "{") with false.
    cbn iota. apply bind_throw. unfold parseIdentifier.
    rewrite (bind_ok skipWhitespace _ _ _ _
               (skipWhitespace_fixed (mkParser "" (0 + String.length ws)) eq_refl)).
    by rewrite (bind_ok (scan_while isIdentChar "") _ _ ""
                  (mkParser "" (0 + String.length ws))).
  - intros ws c w tail Hws Hw Htail Hq Hm. unfold parse_query, parse, parse_header.
    pose proof Hw as Hw'. cbn in Hw'. apply andb_prop in Hw' as [Hc _].
    apply bind_throw.
    rewrite (bind_ok skipWhitespace _ _ _ _
               (skipWhitespace_spaces ws (String c w +:+ tail) 0 Hws
                  (isIdentChar_not_space c Hc))).
    rewrite (bind_ok peek _ _ _ _ (peek_eq _)).
    change (head_char (mkParser (String c w +:+ tail) _)) with c.
    rewrite (isIdentChar_not c "{" Hc eq_refl).
    rewrite (bind_ok _ _ _ _ _ (parseIdentifier_word c w tail _ Hw Htail)).
    apply bind_throw.
    apply String.eqb_neq in Hq, Hm. by rewrite Hq, Hm.
Qed.

Lemma string_app_assoc (a b c : string) : (a +:+ b) +:+ c = a +:+ (b +:+ c).
Proof. induction a as [|x a IH]; [reflexivity|]. exact (f_equal (String x) IH). Qed.

Lemma string_length_app (a b : string) :
  String.length (a +:+ b) = String.length a + String.length b.
Proof. induction a as [|x a IH]; [reflexivity|]. exact (f_equal S IH). Qed.

Lemma skipBalanced_loop_open depth tail pos :
  (0 < depth)%Z →
  skipBalanced_loop "(" ")" depth (String "(" tail) pos =
  skipBalanced_loop "(" ")" (depth + 1) tail (S pos).
Proof. intros Hd%Z.ltb_lt. cbn [skipBalanced_loop]. by rewrite Hd. Qed.

Lemma skipBalanced_loop_close depth tail pos :
  (0 < depth)%Z →
  skipBalanced_loop "(" ")" depth (String ")" tail) pos =
  skipBalanced_loop "(" ")" (depth - 1) tail (S pos).
Proof. intros Hd%Z.ltb_lt. cbn [skipBalanced_loop]. by rewrite Hd. Qed.

Lemma skipBalanced_loop_done tail pos :
  skipBalanced_loop "(" ")" 0 tail pos = mkParser tail pos.
Proof. by destruct tail. Qed.

Lemma skipBalanced_loop_end depth pos :
  skipBalanced_loop "(" ")" depth "" pos = mkParser "" pos.
Proof. done. Qed.

(** Balanced text leaves the depth as it found it. *)
Lemma skipBalanced_loop_balanced s :
  balanced s →
  ∀ depth tail pos,
    (0 < depth)%Z →
    skipBalanced_loop "(" ")" depth (s +:+ tail) pos =
    skipBalanced_loop "(" ")" depth tail (pos + String.length s).
Proof.
  induction 1 as [|c s Hc _ IH|inner s _ IHinner _ IH]; intros depth tail pos Hdepth.
  - change ("" +:+ tail) with tail. cbn [String.length]. by rewrite Nat.add_0_r.
  - change (String c s +:+ tail) with (String c (s +:+ tail)).
    cbn [skipBalanced_loop String.length].
    apply Z.ltb_lt in Hdepth as Hd. rewrite Hd.
    unfold is_paren in Hc. apply orb_false_elim in Hc as [-> ->].
    rewrite IH by done. f_equal. lia.
  - change (String "(" (inner +:+ String ")" s) +:+ tail)
      with (String "(" ((inner +:+ String ")" s) +:+ tail)).
    rewrite string_app_assoc.
    change (String ")" s +:+ tail) with (String ")" (s +:+ tail)).
    rewrite skipBalanced_loop_open, IHinner, skipBalanced_loop_close by lia.
    replace (depth + 1 - 1)%Z with depth by lia. rewrite IH by done.
    cbn [String.length]. rewrite string_length_app. cbn [String.length].
    f_equal. lia.
Qed.

(** Text with an opening parenthesis that nothing closes is read to its
    end. *)
Lemma skipBalanced_loop_unclosed s :
  unclosed s →
  ∀ depth pos,
    (0 < depth)%Z →
    skipBalanced_loop "(" ")" depth s pos = mkParser "" (pos + String.length s).
Proof.
  induction 1 as [s Hs|s1 s2 Hs1 _ IH]; intros depth pos Hdepth.
  - rewrite <- (app_empty_r s) at 1.
    by rewrite (skipBalanced_loop_balanced s Hs), skipBalanced_loop_end.
  - rewrite (skipBalanced_loop_balanced s1 Hs1), skipBalanced_loop_open by done.
    rewrite IH by lia. rewrite string_length_app. cbn [String.length]. f_equal. lia.
Qed.

Lemma skipBalanced_open text pos :
  skipBalanced "(" ")" (mkParser (String "(" text) pos) =
  Ok tt (skipBalanced_loop "(" ")" 1 text (S pos)).
Proof.
  unfold skipBalanced, expect.
  rewrite (bind_ok _ _ _ tt (mkParser text (S pos))); [done|].
  rewrite (bind_ok skipWhitespace _ _ _ _
             (skipWhitespace_fixed (mkParser (String "(" text) pos) eq_refl)).
  by rewrite (bind_ok advance _ _ "("%char (mkParser text (S pos))).
Qed.

(** X9. The variable definitions are skipped, not read: from an opening
    parenthesis, [skipBalanced] stops right after the closing parenthesis
    that is its partner, at any depth of nesting in between. Every
    parenthesis counts, those inside a string literal as well. When the
    opening parenthesis has no partner, [skipBalanced] runs to the end of
    the text without an error. *)
Theorem X9_skipBalanced body tail pos :
  (balanced body →
   skipBalanced "(" ")" (mkParser (String "(" (body +:+ String ")" tail)) pos)
   = Ok tt (mkParser tail (pos + String.length body + 2)))
  ∧ (unclosed body →
     skipBalanced "(" ")" (mkParser (String "(" body) pos)
     = Ok tt (mkParser "" (pos + String.length body + 1))).
Proof.
  split; intros Hbody; rewrite skipBalanced_open.
  - rewrite (skipBalanced_loop_balanced body Hbody), skipBalanced_loop_close by done.
    change (1 - 1)%Z with 0%Z. rewrite skipBalanced_loop_done. do 2 f_equal. lia.
  - rewrite (skipBalanced_loop_unclosed body Hbody) by done. do 2 f_equal. lia.
Qed.

Lemma parseString_loop_escaped s tail pos acc :
  parseString_loop (escaped_text s +:+ tail) pos acc =
  parseString_loop tail (pos + String.length (escaped_text s)) (acc +:+ s).
Proof.
  revert pos acc. induction s as [|c s IH]; intros pos acc.
  - change (escaped_text "") with "". change ("" +:+ tail) with tail.
    cbn [String.length]. by rewrite Nat.add_0_r, app_empty_r.
  - cbn [escaped_text]. destruct (plain_char c) eqn:Hc.
    + change (String c (escaped_text s) +:+ tail)
        with (String c (escaped_text s +:+ tail)).
      cbn [parseString_loop String.length].
      unfold plain_char in Hc. apply negb_true_iff in Hc.
      apply orb_false_elim in Hc as [Hc Hnul].
      apply orb_false_elim in Hc as [Hq Hb]. rewrite Hq, Hnul, Hb. cbn [orb].
      rewrite IH, push_back_app. f_equal. lia.
    + change (String "\" (String c (escaped_text s)) +:+ tail)
        with (String "\" (String c (escaped_text s +:+ tail))).
      cbn [parseString_loop String.length].
      change (Ascii.eqb "\" DQUOTE || Ascii.eqb "\" NUL) with false.
      change (Ascii.eqb "\" "\") with true. cbn iota.
      assert (unescape c = c) as ->.
      { unfold plain_char in Hc. apply negb_false_iff in Hc.
        apply orb_prop in Hc as [Hc|Hc]; [apply orb_prop in Hc as [Hc|Hc]|];
          apply Ascii.eqb_eq in Hc; by subst c. }
      rewrite IH, push_back_app. f_equal. lia.
Qed.

Lemma expect_here c text pos :
  isSpace c = false →
  expect c (mkParser (String c text) pos) = Ok tt (mkParser text (S pos)).
Proof.
  intros Hc. unfold expect.
  rewrite (bind_ok skipWhitespace _ _ _ _
             (skipWhitespace_fixed (mkParser (String c text) pos) Hc)).
  rewrite (bind_ok advance _ _ c (mkParser text (S pos))) by done.
  by rewrite Ascii.eqb_refl.
Qed.

Lemma parseString_literal s tail pos :
  parseString (mkParser (String DQUOTE (escaped_text s +:+ String DQUOTE tail)) pos) =
  Ok s (mkParser tail (pos + String.length (escaped_text s) + 2)).
Proof.
  unfold parseString.
  rewrite (bind_ok _ _ _ _ _ (expect_here DQUOTE _ pos eq_refl)).
  rewrite (bind_ok _ _ _ s
             (mkParser (String DQUOTE tail) (S pos + String.length (escaped_text s)))).
  - rewrite (bind_ok _ _ _ _ _ (expect_here DQUOTE tail _ eq_refl)).
    unfold mret, M_ret. do 2 f_equal. lia.
  - unfold parseString_while. cbn [rest pos_].
    rewrite parseString_loop_escaped. cbn [parseString_loop].
    change (Ascii.eqb DQUOTE DQUOTE || Ascii.eqb DQUOTE NUL) with true. done.
Qed.

(** X3. Every string can be written as a literal and is read back
    unchanged: between double quotes, with a backslash before each double
    quote, backslash and NUL of the string. In value position the literal
    is the String, and the cursor stops after the closing quote. *)
Theorem X3_string_literal_round_trip fuel s tail pos :
  parseValue stod (S fuel)
    (mkParser (String DQUOTE (escaped_text s +:+ String DQUOTE tail)) pos) =
  Ok (JString s) (mkParser tail (pos + String.length (escaped_text s) + 2)).
Proof.
  cbn [parseValue].
  rewrite (bind_ok skipWhitespace _ _ _ _
             (skipWhitespace_fixed
                (mkParser (String DQUOTE (escaped_text s +:+ String DQUOTE tail)) pos)
                eq_refl)).
  rewrite (bind_ok peek _ _ _ _ (peek_eq _)).
  change (head_char (mkParser (String DQUOTE _) pos)) with DQUOTE.
  rewrite Ascii.eqb_refl.
  by rewrite (bind_ok _ _ _ _ _ (parseString_literal s tail pos)).
Qed.


Lemma advanced_refl p : advanced p p.
Proof. exists "". split; [done|]. cbn. lia. Qed.

Lemma advanced_trans p1 p2 p3 : advanced p1 p2 → advanced p2 p3 → advanced p1 p3.
Proof.
  intros (c1 & H1 & Hp1) (c2 & H2 & Hp2). exists (c1 +:+ c2).
  rewrite string_app_assoc, <- H2, <- H1, string_length_app. split; [done|lia].
Qed.

Lemma advanced_step c s pos : advanced (mkParser (String c s) pos) (mkParser s (S pos)).
Proof. exists (String c ""). split; [done|]. cbn. lia. Qed.

Lemma moves_ret {A} (a : A) : moves (mret a).
Proof. intros p. apply advanced_refl. Qed.

Lemma moves_throw {A} e : moves (throw e : M A).
Proof. by intros p. Qed.

Lemma moves_out_of_fuel {A} : moves (out_of_fuel : M A).
Proof. by intros p. Qed.

Lemma moves_bind {A B} (m : M A) (f : A → M B) :
  moves m → (∀ a, moves (f a)) → moves (m ≫= f).
Proof.
  intros Hm Hf p. unfold post, mbind, M_bind.
  specialize (Hm p). unfold post in Hm.
  destruct (m p) as [a p1| |]; [|done..].
  specialize (Hf a p1). unfold post in Hf.
  destruct (f a p1) as [b p2| |]; [|done..]. by eapply advanced_trans.
Qed.

Lemma moves_peek : moves peek.
Proof. intros p. apply advanced_refl. Qed.

Lemma moves_get_pos : moves get_pos.
Proof. intros p. apply advanced_refl. Qed.

Lemma moves_advance : moves advance.
Proof.
  intros [[|c s] pos]; unfold post, advance; cbn [rest pos_].
  - apply advanced_refl.
  - apply advanced_step.
Qed.

Lemma moves_skipWhitespace : moves skipWhitespace.
Proof.
  intros [s pos]. unfold post, skipWhitespace. cbn [rest pos_].
  revert pos. induction s as [|c s IH]; intros pos; cbn [skipWhitespace_loop].
  - apply advanced_refl.
  - destruct (isSpace c); [|apply advanced_refl].
    eapply advanced_trans; [apply advanced_step|apply IH].
Qed.

Lemma moves_skipBalanced_while open close depth :
  moves (skipBalanced_while open close depth).
Proof.
  intros [s pos]. unfold post, skipBalanced_while. cbn [rest pos_].
  revert depth pos. induction s as [|c s IH]; intros depth pos;
    cbn [skipBalanced_loop].
  - apply advanced_refl.
  - destruct (0 <? depth)%Z; [|apply advanced_refl].
    eapply advanced_trans; [apply advanced_step|apply IH].
Qed.

Lemma moves_scan_while ok acc : moves (scan_while ok acc).
Proof.
  intros [s pos]. unfold post, scan_while. cbn [rest pos_].
  revert acc pos. induction s as [|c s IH]; intros acc pos; cbn [scan].
  - apply advanced_refl.
  - destruct (ok c); [|apply advanced_refl].
    specialize (IH (push_back acc c) (S pos)).
    destruct (scan ok s (S pos) (push_back acc c)) as [acc' p'].
    eapply advanced_trans; [apply advanced_step|apply IH].
Qed.

Lemma moves_parseString_while acc : moves (parseString_while acc).
Proof.
  intros [s pos]. unfold post, parseString_while. cbn [rest pos_].
  assert (∀ n s pos acc, String.length s ≤ n →
            advanced (mkParser s pos) (parseString_loop s pos acc).2) as H.
  { clear. intros n. induction n as [|n IH]; intros [|c s] pos acc Hn;
      cbn [parseString_loop]; try apply advanced_refl; cbn in Hn; [lia|].
    destruct (Ascii.eqb c DQUOTE || Ascii.eqb c NUL); [apply advanced_refl|].
    destruct (Ascii.eqb c "\").
    - destruct s as [|esc s']; [apply advanced_step|].
      eapply advanced_trans; [apply advanced_step|].
      eapply advanced_trans; [apply advanced_step|]. apply IH. cbn in Hn. lia.
    - eapply advanced_trans; [apply advanced_step|]. apply IH. lia. }
  specialize (H _ s pos acc (le_n _)).
  by destruct (parseString_loop s pos acc).
Qed.

Create HintDb moves.

#[local] Hint Resolve moves_peek moves_get_pos moves_advance moves_skipWhitespace
  moves_skipBalanced_while moves_scan_while moves_parseString_while : moves.

Ltac solve_moves :=
  repeat first
    [ apply moves_ret | apply moves_throw | apply moves_out_of_fuel
    | apply moves_bind
    | match goal with
      | |- moves (if ?b then _ else _) => destruct b
      | |- moves (match ?x with inl _ => _ | inr _ => _ end) => destruct x
      | |- moves (let '(_, _) := ?x in _) => destruct x
      | |- ∀ _, _ => intro
      end
    | solve [eauto with moves] ].

Lemma moves_expect c : moves (expect c).
Proof. unfold expect. solve_moves. Qed.

Lemma moves_parseIdentifier : moves parseIdentifier.
Proof. unfold parseIdentifier. solve_moves. Qed.

#[local] Hint Resolve moves_expect moves_parseIdentifier : moves.

Lemma moves_skipBalanced open close : moves (skipBalanced open close).
Proof. unfold skipBalanced. solve_moves. Qed.

Lemma moves_parseString : moves parseString.
Proof. unfold parseString. solve_moves. Qed.

Lemma moves_parseNumber : moves (parseNumber stod).
Proof. unfold parseNumber. solve_moves. Qed.

Lemma moves_parseBool : moves (parseBool (double := double)).
Proof. unfold parseBool. solve_moves. Qed.

Lemma moves_parseNull : moves (parseNull (double := double)).
Proof. unfold parseNull. solve_moves. Qed.

#[local] Hint Resolve moves_skipBalanced moves_parseString moves_parseNumber
  moves_parseBool moves_parseNull : moves.

Lemma moves_members_loop (parseValue : M (@json double)) close fuel obj :
  moves parseValue → moves (members_loop parseValue close fuel obj).
Proof.
  intros Hpv. revert obj. induction fuel as [|fuel IH]; intros obj;
    cbn [members_loop]; solve_moves.
Qed.

Lemma moves_elements_loop (parseValue : M (@json double)) fuel arr :
  moves parseValue → moves (elements_loop parseValue fuel arr).
Proof.
  intros Hpv. revert arr. induction fuel as [|fuel IH]; intros arr;
    cbn [elements_loop]; solve_moves.
Qed.

Lemma moves_fields_loop (parseField : M (@FieldSelection double)) fuel sels :
  moves parseField → moves (fields_loop parseField fuel sels).
Proof.
  intros Hpf. revert sels. induction fuel as [|fuel IH]; intros sels;
    cbn [fields_loop]; solve_moves.
Qed.

#[local] Hint Resolve moves_members_loop moves_elements_loop moves_fields_loop : moves.

Lemma moves_parseValue fuel : moves (parseValue stod fuel).
Proof.
  induction fuel as [|fuel IH]; cbn [parseValue]; [solve_moves|].
  unfold parseObjectValue, parseArrayValue. solve_moves.
Qed.

#[local] Hint Resolve moves_parseValue : moves.

Lemma moves_parseArguments fuel : moves (parseArguments stod fuel).
Proof. unfold parseArguments. solve_moves. Qed.

#[local] Hint Resolve moves_parseArguments : moves.

Lemma moves_parseField fuel : moves (parseField stod fuel).
Proof.
  induction fuel as [|fuel IH]; cbn [parseField]; [solve_moves|].
  unfold parseSelectionSet. solve_moves.
Qed.

#[local] Hint Resolve moves_parseField : moves.

Lemma moves_parse_header : moves parse_header.
Proof. unfold parse_header. solve_moves. Qed.

Lemma moves_parse fuel : moves (parse stod fuel).
Proof.
  unfold parse, parseSelectionSet.
  apply moves_bind; [apply moves_parse_header|]. intros [opType opName]. solve_moves.
Qed.


Lemma parse_header_operation p opType opName p' :
  parse_header p = Ok (opType, opName) p' →
  opType = "query" ∨ opType = "mutation".
Proof.
  unfold parse_header. intros H.
  apply bind_inv in H as (u & p1 & _ & H).
  apply bind_inv in H as (c & p2 & _ & H).
  destruct (Ascii.eqb c "{"); [injection H as <- <- <-; by left|].
  apply bind_inv in H as (keyword & p3 & _ & H).
  apply bind_inv in H as (op & p4 & Hop & H).
  apply bind_inv in H as (u5 & p5 & _ & H).
  apply bind_inv in H as (c6 & p6 & _ & H).
  apply bind_inv in H as (n & p7 & _ & H).
  apply bind_inv in H as (c8 & p8 & _ & H).
  apply bind_inv in H as (u9 & p9 & _ & H).
  injection H as <- <- <-.
  destruct (String.eqb keyword "query"); [injection Hop as <- <-; by left|].
  destruct (String.eqb keyword "mutation"); [injection Hop as <- <-; by right|done].
Qed.

(** X10. Every query the parser accepts is a [query] or a [mutation]:
    [operationType] holds one of the two words. A registration in the
    registry of the other kind does not change what [execute] returns. *)
Theorem X10_operation_registries schema queryStr variables context fuel parsed p'
    field_name (resolver : @Resolver double) :
  parse_query stod fuel queryStr = Ok parsed p' →
  String.length queryStr < fuel →
  (operationType parsed = "query" ∨ operationType parsed = "mutation")
  ∧ (operationType parsed = "query" →
     execute stod (mutation field_name resolver schema) queryStr variables context
     = execute stod schema queryStr variables context)
  ∧ (operationType parsed = "mutation" →
     execute stod (query field_name resolver schema) queryStr variables context
     = execute stod schema queryStr variables context).
Proof.
  intros Hparse Hfuel.
  assert (operationType parsed = "query" ∨ operationType parsed = "mutation") as Hop.
  { unfold parse_query, parse in Hparse.
    apply bind_inv in Hparse as ([opType opName] & p1 & Hheader & H).
    apply bind_inv in H as (sels & p2 & _ & H). injection H as <- <-.
    by eapply parse_header_operation. }
  rewrite parse_query_fuel in Hparse by done.
  split_and!; [done|..]; intros Hkind; unfold execute, execute_with;
    rewrite Hparse, Hkind; done.
Qed.

End ParserFacts.

(** * Further properties of the executor and of the projector *)

Section ExecutorFacts.

Context {double : Type}.
Variable stod : string → exception + double.
Implicit Types (schema : @Schema double) (variables context : @json double).
Implicit Types (field : @FieldSelection double) (st : @Execution double).
Implicit Types (fields sels : list (@FieldSelection double)).
Implicit Types (resolvers : gmap string (@Resolver double)).
Implicit Types (resolver : @Resolver double).
Implicit Types (args m target : gmap string (@json double)).

#[local] Open Scope nat_scope.

(** X11. On a query the parser accepts, the resolvers are called in the
    order of the selections, once for each selection whose name is
    registered, and the errors are listed in that order too; the envelope
    has the key errors exactly when some selection failed, and its data is
    an Object. *)
Theorem X11_calls_and_errors_in_order schema queryStr variables context fuel
    parsed p' envelope calls :
  parse_query stod fuel queryStr = Ok parsed p' →
  String.length queryStr < fuel →
  execute stod schema queryStr variables context = Response envelope calls →
  let resolvers :=
    if String.eqb (operationType parsed) "mutation"
    then mutationResolvers_ schema else queryResolvers_ schema in
  calls = flat_map (call_of resolvers variables context) (top_selections parsed)
  ∧ find_member envelope "errors" =
    match flat_map (error_of resolvers (operationType parsed) variables context)
            (top_selections parsed) with
    | [] => None
    | errs => Some (JArray errs)
    end
  ∧ ∃ data, find_member envelope "data" = Some (JObject data).
Proof.
  intros Hparse Hfuel Hrun resolvers.
  rewrite parse_query_fuel in Hparse by done.
  unfold execute, execute_with in Hrun. rewrite Hparse in Hrun.
  fold resolvers in Hrun.
  destruct (execute_fields resolvers _ _ _ _ _) as [st|] eqn:Hfields; [|done].
  injection Hrun as <- <-.
  apply execute_fields_trace in Hfields as [Hcalls Herrs].
  cbn [invoked errors app] in *. split_and!; [done| |].
  - unfold response. cbn [find_member]. rewrite Herrs.
    destruct (flat_map (error_of _ _ _ _) _); [by rewrite lookup_singleton_ne|].
    by rewrite lookup_insert_eq.
  - exists (data st). unfold response. cbn [find_member].
    destruct (errors st); [apply lookup_singleton_eq|].
    rewrite lookup_insert_ne by done. apply lookup_singleton_eq.
Qed.

Lemma execute_field_data resolvers opType variables context field st st' :
  execute_field resolvers opType variables context field st = Some st' →
  data st' =
  match resolvers !! name field with
  | None => data st
  | Some resolver =>
      match resolver (call_arguments variables field) context with
      | Returns v => <[response_key field := top_projected field v]> (data st)
      | Throws _ => <[name field := JNull]> (data st)
      | ThrowsOther => data st
      end
  end.
Proof.
  unfold execute_field, call_arguments, top_projected, Resolver in *.
  destruct (resolvers !! name field) as [r|]; [destruct (r _ context)|];
    intros [= <-]; done.
Qed.

Lemma execute_field_written resolvers opType variables context field st st' k :
  execute_field resolvers opType variables context field st = Some st' →
  written_key resolvers variables context field ≠ Some k →
  data st' !! k = data st !! k.
Proof.
  intros Hf Hk. rewrite (execute_field_data _ _ _ _ _ _ _ Hf).
  unfold written_key, Resolver in *.
  destruct (resolvers !! name field) as [r|]; [|done].
  destruct (r _ context); [..|done]; rewrite lookup_insert_ne; congruence.
Qed.

Lemma execute_fields_untouched resolvers opType variables context fields st st' k :
  execute_fields resolvers opType variables context fields st = Some st' →
  (∀ f, f ∈ fields → written_key resolvers variables context f ≠ Some k) →
  data st' !! k = data st !! k.
Proof.
  revert st. induction fields as [|f fields IH]; intros st; cbn.
  - by intros [= <-].
  - destruct (execute_field _ _ _ _ f st) as [st1|] eqn:Hf; [|done].
    intros Hrun Hk. rewrite (IH _ Hrun) by (intros; apply Hk; by right).
    eapply execute_field_written; [done|]. apply Hk. by left.
Qed.

(** X12. The keys of data after the loop: those it started with, and one
    for each selection with a registered resolver, the alias-or-name when
    the resolver returned and the name when it threw. An unknown field
    adds no key. *)
Theorem X12_data_keys resolvers opType variables context fields st st' k :
  execute_fields resolvers opType variables context fields st = Some st' →
  is_Some (data st' !! k) ↔
  is_Some (data st !! k)
  ∨ ∃ f, f ∈ fields ∧ written_key resolvers variables context f = Some k.
Proof.
  revert st. induction fields as [|f fields IH]; intros st; cbn.
  - intros [= <-]. split; [by left|]. intros [?|(f & Hin & _)]; [done|].
    by apply elem_of_nil in Hin.
  - destruct (execute_field _ _ _ _ f st) as [st1|] eqn:Hf; [|done].
    intros Hrun. rewrite (IH _ Hrun).
    destruct (decide (written_key resolvers variables context f = Some k)) as [Hw|Hw].
    + split; [|intros _; left].
      * intros _. right. exists f. split; [by left|done].
      * rewrite (execute_field_data _ _ _ _ _ _ _ Hf).
        unfold written_key, Resolver in *.
        destruct (resolvers !! name f) as [r|]; [|done].
        destruct (r _ context); [..|done]; injection Hw as <-;
          by rewrite lookup_insert_eq.
    + rewrite (execute_field_written _ _ _ _ _ _ _ _ Hf Hw). split.
      * intros [?|(g & Hin & Hg)]; [by left|]. right. exists g. split; [by right|done].
      * intros [?|(g & Hin & Hg)]; [by left|].
        apply elem_of_cons in Hin as [->|Hin]; [done|]. right. by exists g.
Qed.

(** X13. A query of one selection whose resolver returns [v], when the
    selection has no child selections or [v] is no Object: the envelope is
    the single key data over the single key alias-or-name, holding [v] as
    the resolver returned it. A top-level Array is not projected, child
    selections or not. *)
Theorem X13_single_leaf resolvers opType variables context field resolver v :
  resolvers !! name field = Some resolver →
  resolver (call_arguments variables field) context = Returns v →
  selections field = [] ∨ is_object v = false →
  ∃ st,
    execute_fields resolvers opType variables context [field]
      (mkExecution ∅ [] []) = Some st
    ∧ response st = JObject {[ "data" := JObject {[ response_key field := v ]} ]}.
Proof.
  intros Hr Hv Hleaf. cbn [execute_fields].
  rewrite (execute_field_returns _ _ _ _ _ _ _ _ Hr Hv).
  eexists. split; [done|]. unfold response. cbn [errors data].
  assert (has_selections field && is_object v = false) as ->; [|done].
  unfold has_selections. destruct Hleaf as [->| ->]; [done|apply andb_false_r].
Qed.

(** X15. When no two selections write the same key of data, nothing is
    overwritten: after the loop every selection whose resolver returned has
    its value (projected when it is an Object under child selections)
    under its alias-or-name, and every selection whose resolver threw has
    Null under its name. *)
Theorem X15_distinct_keys_all_present resolvers opType variables context fields
    st st' :
  execute_fields resolvers opType variables context fields st = Some st' →
  NoDup (omap (written_key resolvers variables context) fields) →
  ∀ field resolver,
    field ∈ fields →
    resolvers !! name field = Some resolver →
    match resolver (call_arguments variables field) context with
    | Returns v => data st' !! response_key field = Some (top_projected field v)
    | Throws _ => data st' !! name field = Some JNull
    | ThrowsOther => False
    end.
Proof.
  revert st. induction fields as [|f fields IH]; intros st Hrun Hnodup field r Hin Hr.
  { by apply elem_of_nil in Hin. }
  cbn in Hrun. destruct (execute_field _ _ _ _ f st) as [st1|] eqn:Hf; [|done].
  cbn [omap list_omap] in Hnodup.
  apply elem_of_cons in Hin as [->|Hin].
  - pose proof (execute_field_data _ _ _ _ _ _ _ Hf) as Hdata.
    unfold written_key, Resolver in *. rewrite Hr in Hdata, Hnodup.
    destruct (r _ context) as [v|msg|] eqn:Hcall.
    + apply NoDup_cons in Hnodup as [Hfresh _].
      rewrite (execute_fields_untouched _ _ _ _ _ _ _ (response_key f) Hrun).
      * by rewrite Hdata, lookup_insert_eq.
      * intros g Hg Hw. apply Hfresh. apply list_elem_of_omap. by exists g.
    + apply NoDup_cons in Hnodup as [Hfresh _].
      rewrite (execute_fields_untouched _ _ _ _ _ _ _ (name f) Hrun).
      * by rewrite Hdata, lookup_insert_eq.
      * intros g Hg Hw. apply Hfresh. apply list_elem_of_omap. by exists g.
    + revert Hf. unfold execute_field, call_arguments, Resolver in *.
      by rewrite Hr, Hcall.
  - apply (IH st1 Hrun); [|done..].
    destruct (written_key resolvers variables context f); [|done].
    by apply NoDup_cons in Hnodup as [_ ?].
Qed.

(** X14. Merging the variables into the arguments keeps every literal
    argument, changes nothing when the variables are null or an empty
    object, and does nothing more when done a second time. *)
Theorem X14_mergeArguments args variables :
  args ⊆ mergeArguments args variables
  ∧ mergeArguments args JNull = args
  ∧ mergeArguments args (JObject ∅) = args
  ∧ mergeArguments (mergeArguments args variables) variables
    = mergeArguments args variables.
Proof.
  split_and!.
  - apply map_subseteq_spec. intros k v Hk. by rewrite mergeArguments_lookup, Hk.
  - done.
  - rewrite mergeArguments_object. apply map_eq. intros k.
    rewrite lookup_union, lookup_empty. by destruct (args !! k).
  - apply map_eq. intros k. rewrite !mergeArguments_lookup.
    by destruct (args !! k),
      ((list_to_map (items variables) : gmap string json) !! k).
Qed.

Lemma filterField_union sel source target :
  filterField sel source target = filterField sel source ∅ ∪ target.
Proof.
  rewrite !filterField_unfold.
  destruct (find_member source (name sel)) as [v|].
  - by rewrite <- insert_union_l, (left_id_L ∅ (∪)).
  - by rewrite (left_id_L ∅ (∪)).
Qed.

(** X16. The projector only adds to its target, and what it adds does not
    depend on the target: the output is the output for an empty target,
    laid over the target. A source that is no Object adds nothing, and so
    does an empty selection list. *)
Theorem X16_projector_over_target source sels target :
  filterFields source sels target = filterFields source sels ∅ ∪ target
  ∧ (is_object source = false → filterFields source sels target = target)
  ∧ filterFields source [] target = target.
Proof.
  split_and!; [| |done].
  - revert target. induction sels as [|sel sels IH]; intros target.
    + by rewrite !filterFields_nil, (left_id_L ∅ (∪)).
    + rewrite !filterFields_cons, (IH (filterField _ _ target)),
        (IH (filterField _ _ ∅)), (filterField_union sel source target).
      by rewrite (assoc_L (∪)).
  - intros Hsrc. revert target. induction sels as [|sel sels IH]; intros target.
    + done.
    + rewrite filterFields_cons, filterField_unfold.
      destruct source; try done; cbn [find_member]; apply IH.
Qed.

Lemma filterFields_leaves_lookup m sels target k :
  (∀ sel, sel ∈ sels → alias sel = "" ∧ selections sel = []) →
  filterFields (JObject m) sels target !! k =
  if decide (k ∈ name <$> sels)
  then match m !! k with Some v => Some v | None => target !! k end
  else target !! k.
Proof.
  revert target. induction sels as [|sel sels IH]; intros target Hleaf.
  - rewrite filterFields_nil. cbn. case_decide as Hin; [|done].
    by apply elem_of_nil in Hin.
  - rewrite filterFields_cons, IH by (intros; apply Hleaf; by right).
    destruct (Hleaf sel ltac:(by left)) as [Halias Hsels].
    rewrite filterField_unfold. cbn [find_member].
    assert (response_key sel = name sel) as Hkey.
    { unfold response_key. by rewrite Halias. }
    assert (∀ v, projected sel v = v) as Hproj.
    { intros v. unfold projected, has_selections. by rewrite Hsels. }
    rewrite Hkey, fmap_cons.
    set (T := match m !! name sel with
              | Some v => <[name sel := projected sel v]> target
              | None => target
              end).
    assert (T !! k = if decide (name sel = k)
                     then match m !! k with Some v => Some v | None => target !! k end
                     else target !! k) as ->.
    { unfold T. destruct (m !! name sel) as [v|] eqn:Hv;
        destruct (decide (name sel = k)) as [Hd|Hd].
      - subst k. by rewrite Hproj, lookup_insert_eq, Hv.
      - by rewrite lookup_insert_ne.
      - subst k. by rewrite Hv.
      - done. }
    destruct (decide (name sel = k)) as [<-|Hne].
    + rewrite (decide_True (P := name sel ∈ name sel :: (name <$> sels)))
        by apply list_elem_of_here.
      destruct (decide (name sel ∈ name <$> sels)); by destruct (m !! name sel).
    + destruct (decide (k ∈ name <$> sels)) as [Hin|Hnin].
      * by rewrite decide_True by (by right).
      * rewrite decide_False; [done|].
        intros [?|?]%elem_of_cons; [by apply Hne|done].
Qed.

(** X17. Leaf selections without an alias restrict the source: the output
    holds exactly the members of the source Object whose key is among the
    selected names, each with the value the source has. *)
Theorem X17_leaf_projection_restricts m sels k :
  (∀ sel, sel ∈ sels → alias sel = "" ∧ selections sel = []) →
  filterFields (JObject m) sels ∅ !! k =
  if decide (k ∈ name <$> sels) then m !! k else None.
Proof.
  intros Hleaf. rewrite filterFields_leaves_lookup by done.
  rewrite lookup_empty. case_decide; [|done]. by destruct (m !! k).
Qed.

End ExecutorFacts.

(** * Properties of the route handler *)

Section HandlerFacts.

Context {double : Type}.
Variable stod : string → exception + double.
Variable json_parse : string → option (@json double).
Variable dump : @json double → string.
Implicit Types (schema : @Schema double) (res : http_Response).
Implicit Types (req : @http_Request double) (m : gmap string (@json double)).

#[local] Open Scope nat_scope.

Lemma send_json_unsent j res :
  dumpable j = true →
  sent_ res = false →
  send_json dump j res =
  Some (mkResponse (statusCode_ res)
          (<["Content-Type" := "application/json; charset=utf-8"]> (headers_ res))
          true (dump j)).
Proof.
  intros Hj Hs. unfold send_json, send, set_header. cbn [sent_ headers_ statusCode_].
  by rewrite Hj, Hs, lookup_insert_eq.
Qed.

Lemma send_json_sent j res :
  dumpable j = true →
  sent_ res = true →
  send_json dump j res =
  Some (mkResponse (statusCode_ res)
          (<["Content-Type" := "application/json; charset=utf-8"]> (headers_ res))
          true (body_ res)).
Proof.
  intros Hj Hs. unfold send_json, send, set_header. cbn [sent_]. by rewrite Hj, Hs.
Qed.

Lemma send_json_throws j res : dumpable j = false → send_json dump j res = None.
Proof. intros Hj. unfold send_json. by rewrite Hj. Qed.

(** What [send_json] leaves when [dump] returns. *)
Lemma send_json_returns j res res' :
  send_json dump j res = Some res' →
  dumpable j = true
  ∧ statusCode_ res' = statusCode_ res
  ∧ sent_ res' = true
  ∧ body_ res' = (if sent_ res then body_ res else dump j).
Proof.
  intros H. destruct (dumpable j) eqn:Hj; [|by rewrite send_json_throws in H].
  destruct (sent_ res) eqn:Hs.
  - rewrite send_json_sent in H by done. by injection H as <-.
  - rewrite send_json_unsent in H by done. by injection H as <-.
Qed.

(** A value that [dump] writes has members that it writes, under keys that
    it writes. *)
Lemma dumpable_member m k v :
  dumpable (JObject m) = true → m !! k = Some v →
  utf8_well_formed k = true ∧ dumpable v = true.
Proof.
  cbn [dumpable]. intros H. revert k v. revert H.
  apply (map_fold_weak_ind
           (λ r m, r = true → ∀ k v, m !! k = Some v →
                   utf8_well_formed k = true ∧ dumpable v = true)).
  - intros _ k v Hk. by rewrite lookup_empty in Hk.
  - intros i x m' r Hi IH Hr k v Hk.
    apply andb_prop in Hr as [Hr Hrest]. apply andb_prop in Hr as [Hkey Hv].
    destruct (decide (i = k)) as [->|Hne].
    + rewrite lookup_insert_eq in Hk. by injection Hk as <-.
    + rewrite lookup_insert_ne in Hk by done. by apply IH.
Qed.

Lemma error_body_dumpable message :
  utf8_well_formed message = true → dumpable (@error_body double message) = true.
Proof.
  intros Hm. unfold error_body. cbn [dumpable]. rewrite map_fold_singleton.
  cbn [forallb dumpable]. rewrite map_fold_singleton. cbn [dumpable].
  by rewrite Hm.
Qed.

(** X18. A request whose body is an Object with no member query, or with
    the empty string under query, is answered with status 400 and the
    error "Missing GraphQL query", whatever its raw body and its URL
    parameters hold; no resolver is called. On a response that was sent
    already, the status is still set but the body stays. *)
Theorem X18_missing_query schema req res m :
  body req = JObject m →
  m !! "query" = None ∨ m !! "query" = Some (JString "") →
  ∃ res',
    createHandler stod json_parse dump schema req res = Handled res' []
    ∧ statusCode_ res' = 400%Z
    ∧ sent_ res' = true
    ∧ body_ res' =
      (if sent_ res then body_ res
       else dump (JObject {[ "errors" :=
                    JArray [JObject {[ "message" :=
                                         JString "Missing GraphQL query" ]}] ]})).
Proof.
  intros Hbody Hquery. unfold createHandler. rewrite Hbody. cbn [is_null negb].
  assert (handle_body stod dump schema (JObject m) res =
          reply_json dump (error_body "Missing GraphQL query") (status 400 res) [])
    as ->.
  { unfold handle_body, value_string, value_json.
    destruct Hquery as [-> | ->]; done. }
  assert (utf8_well_formed "Missing GraphQL query" = true) as Hmessage
    by (vm_compute; reflexivity).
  pose proof (error_body_dumpable _ Hmessage) as Hdump.
  unfold reply_json. destruct (sent_ res) eqn:Hs.
  - rewrite (send_json_sent _ (status 400 res) Hdump Hs). eexists. repeat split.
  - rewrite (send_json_unsent _ (status 400 res) Hdump Hs). eexists. repeat split.
Qed.

(** X19. A request whose body is an Object with a non-empty string under
    query: the handler runs [execute] on that text, with the member
    variables (an empty object when there is none) and an empty object as
    context, and sends the envelope as JSON, with the status code as it
    was, for a parse failure and for field errors too. It throws when
    [execute] lets an exception through, and when [dump] throws on the
    envelope, and in no other case; [dump] throws when a resolver has left
    in data a string that is not well-formed UTF-8. *)
Theorem X19_handler_runs_execute schema req res m queryStr :
  body req = JObject m →
  m !! "query" = Some (JString queryStr) →
  queryStr ≠ "" →
  let run := execute stod schema queryStr
               (default_member (JObject ∅) (m !! "variables")) (JObject ∅) in
  let handler := createHandler stod json_parse dump schema req res in
  handler =
    match run with
    | Response envelope calls =>
        if dumpable envelope
        then Handled (send (dump envelope)
                        (set_header "Content-Type" "application/json; charset=utf-8" res))
               calls
        else HandlerThrows
    | Propagated => HandlerThrows
    | Unfinished => HandlerUnfinished
    end
  ∧ handler ≠ HandlerUnfinished
  ∧ (handler = HandlerThrows ↔
     run = Propagated
     ∨ ∃ envelope calls, run = Response envelope calls ∧ dumpable envelope = false)
  ∧ (∀ res' calls, handler = Handled res' calls →
     ∃ envelope,
       run = Response envelope calls
       ∧ statusCode_ res' = statusCode_ res
       ∧ sent_ res' = true
       ∧ body_ res' = (if sent_ res then body_ res else dump envelope))
  ∧ (∀ envelope calls data k s,
       run = Response envelope calls →
       find_member envelope "data" = Some (JObject data) →
       data !! k = Some (JString s) →
       utf8_well_formed s = false →
       handler = HandlerThrows).
Proof.
  intros Hbody Hquery Hne run handler.
  assert (handler =
          match run with
          | Response envelope calls => reply_json dump envelope res calls
          | Propagated => HandlerThrows
          | Unfinished => HandlerUnfinished
          end) as Hrun.
  { unfold handler, run, createHandler. rewrite Hbody. cbn [is_null negb].
    unfold handle_body, value_string, value_json. rewrite Hquery.
    apply String.eqb_neq in Hne. by rewrite Hne. }
  assert (run ≠ Unfinished) as Hfuel.
  { unfold run, execute, execute_with.
    pose proof (fuel_suffices stod queryStr (S (String.length queryStr)) ltac:(lia))
      as Hfuel.
    destruct (parse_query stod _ queryStr); [|done..].
    by destruct (execute_fields _ _ _ _ _ _). }
  clearbody run handler. subst handler.
  destruct run as [envelope calls| |]; [| |done];
    [|split_and!; try done; split; [by left|done]].
  unfold reply_json, send_json. destruct (dumpable envelope) eqn:Hdump.
  - split_and!; try done.
    + split; [done|]. intros [?|(e & c & He & Hd)]; [done|]. injection He as <- <-.
      by rewrite Hdump in Hd.
    + intros res' calls' H. injection H as <- <-. exists envelope.
      pose proof (send_json_returns envelope res) as Hsent.
      unfold send_json in Hsent. rewrite Hdump in Hsent.
      by destruct (Hsent _ eq_refl) as (_ & ? & ? & ?).
    + intros e c data k s He Hdata Hk Hs. injection He as <- <-.
      destruct envelope as [| | | | | |members]; try done. cbn [find_member] in Hdata.
      destruct (dumpable_member _ _ _ Hdump Hdata) as [_ Hd].
      destruct (dumpable_member _ _ _ Hd Hk) as [_ Hstr]. cbn [dumpable] in Hstr.
      by rewrite Hs in Hstr.
  - split_and!; try done.
    split; [|done]. intros _. right. by exists envelope, calls.
Qed.

(** X20. A request with a null body. A raw body that is no JSON is answered
    with status 400 and "Invalid JSON in request body". A raw body that is
    JSON but no Object, and a body whose member query is no string, make
    the handler throw before any response is sent. With an empty raw body
    the URL parameter query is the query text, run with empty variables:
    the envelope is sent when [dump] returns on it, and the handler throws
    when [dump] or [execute] does; without the parameter the answer is
    400. *)
Theorem X20_null_body_paths schema req res :
  body req = JNull →
  (rawBody req ≠ "" → json_parse (rawBody req) = None →
   createHandler stod json_parse dump schema req res =
   Handled (send (dump (error_body "Invalid JSON in request body"))
              (set_header "Content-Type" "application/json; charset=utf-8"
                 (status 400 res))) [])
  ∧ (∀ j, rawBody req ≠ "" → json_parse (rawBody req) = Some j →
          is_object j = false →
          createHandler stod json_parse dump schema req res = HandlerThrows)
  ∧ (∀ m v, rawBody req ≠ "" → json_parse (rawBody req) = Some (JObject m) →
            m !! "query" = Some v → (∀ s, v ≠ JString s) →
            createHandler stod json_parse dump schema req res = HandlerThrows)
  ∧ (∀ queryParam, rawBody req = "" → queryParams req !! "query" = Some queryParam →
       queryParam ≠ "" →
       createHandler stod json_parse dump schema req res =
       match execute stod schema queryParam (JObject ∅) (JObject ∅) with
       | Response envelope calls =>
           if dumpable envelope
           then Handled (send (dump envelope)
                           (set_header "Content-Type" "application/json; charset=utf-8"
                              res)) calls
           else HandlerThrows
       | Propagated => HandlerThrows
       | Unfinished => HandlerUnfinished
       end)
  ∧ (rawBody req = "" → queryParams req !! "query" = None →
     createHandler stod json_parse dump schema req res =
     Handled (send (dump (error_body "Missing GraphQL query"))
                (set_header "Content-Type" "application/json; charset=utf-8"
                   (status 400 res))) []).
Proof.
  intros Hbody. unfold createHandler. rewrite Hbody. cbn [is_null negb].
  assert (∀ message res0,
            utf8_well_formed message = true →
            reply_json dump (error_body message) res0 [] =
            Handled (send (dump (error_body message))
                       (set_header "Content-Type" "application/json; charset=utf-8"
                          res0)) []) as Hreply.
  { intros message res0 Hm. unfold reply_json, send_json.
    by rewrite (error_body_dumpable message Hm). }
  assert (utf8_well_formed "Invalid JSON in request body" = true) as Hinvalid
    by (vm_compute; reflexivity).
  assert (utf8_well_formed "Missing GraphQL query" = true) as Hmissing
    by (vm_compute; reflexivity).
  split_and!.
  - intros Hraw%String.eqb_neq Hparse. rewrite Hraw, Hparse. cbn [negb].
    exact (Hreply _ _ Hinvalid).
  - intros j Hraw%String.eqb_neq Hparse Hobj. rewrite Hraw, Hparse. cbn [negb].
    unfold handle_body, value_string. by destruct j.
  - intros m v Hraw%String.eqb_neq Hparse Hv Hstr. rewrite Hraw, Hparse. cbn [negb].
    unfold handle_body, value_string. rewrite Hv.
    destruct v; try done. by destruct (Hstr s).
  - intros queryParam -> Hq Hne. cbn [String.eqb negb]. rewrite Hq.
    unfold handle_body, value_string, value_json.
    rewrite lookup_singleton_eq, lookup_singleton_ne by done. cbn [default_member].
    apply String.eqb_neq in Hne. rewrite Hne.
    destruct (execute _ _ _ _ _) as [envelope calls| |]; [|done..].
    unfold reply_json, send_json. by destruct (dumpable envelope).
  - intros -> Hq. cbn [String.eqb negb]. rewrite Hq. exact (Hreply _ _ Hmissing).
Qed.

End HandlerFacts.

(** * Properties of [htmlEscape] *)

Lemma htmlEscape_loop_app s out :
  htmlEscape_loop s out = out +:+ htmlEscape_loop s "".
Proof.
  revert out. induction s as [|c s IH]; intros out; cbn [htmlEscape_loop].
  - by rewrite app_empty_r.
  - rewrite (IH (out +:+ htmlEscape_char c)), (IH ("" +:+ htmlEscape_char c)).
    change ("" +:+ htmlEscape_char c) with (htmlEscape_char c).
    by rewrite string_app_assoc.
Qed.

Lemma htmlEscape_cons c s :
  htmlEscape (String c s) = htmlEscape_char c +:+ htmlEscape s.
Proof.
  unfold htmlEscape. cbn [htmlEscape_loop].
  change ("" +:+ htmlEscape_char c) with (htmlEscape_char c).
  apply htmlEscape_loop_app.
Qed.

Lemma occurs_app c s1 s2 : occurs c (s1 +:+ s2) = occurs c s1 || occurs c s2.
Proof.
  induction s1 as [|a s1 IH]; [done|].
  change (String a s1 +:+ s2) with (String a (s1 +:+ s2)).
  cbn [occurs]. by rewrite IH, orb_assoc.
Qed.

(** X21. The output of [htmlEscape] holds none of the characters less
    than, greater than, double quote and apostrophe, whatever the input;
    and an input without a special character comes out unchanged. *)
Theorem X21_htmlEscape_safe s :
  occurs "<" (htmlEscape s) = false
  ∧ occurs ">" (htmlEscape s) = false
  ∧ occurs DQUOTE (htmlEscape s) = false
  ∧ occurs "'" (htmlEscape s) = false
  ∧ (all_chars (λ c, negb (html_special c)) s = true → htmlEscape s = s).
Proof.
  assert (∀ d, d = "<"%char ∨ d = ">"%char ∨ d = DQUOTE ∨ d = "'"%char →
               ∀ c, occurs d (htmlEscape_char c) = false) as Hchar.
  { intros d Hd c. unfold htmlEscape_char.
    repeat (match goal with |- context [if ?b then _ else _] => destruct b eqn:? end);
      try (destruct Hd as [-> | [-> | [-> | ->]]]; reflexivity).
    cbn [occurs]. rewrite orb_false_r.
    destruct Hd as [-> | [-> | [-> | ->]]]; assumption. }
  assert (∀ d, d = "<"%char ∨ d = ">"%char ∨ d = DQUOTE ∨ d = "'"%char →
               occurs d (htmlEscape s) = false) as Hall.
  { intros d Hd. induction s as [|c s IH]; [done|].
    by rewrite htmlEscape_cons, occurs_app, Hchar, IH by done. }
  split_and!; [apply Hall; by left|apply Hall; right; by left
    |apply Hall; right; right; by left|apply Hall; by do 3 right|].
  clear Hall. induction s as [|c s IH]; [done|]. intros Hs.
  change (negb (html_special c) && all_chars (λ c, negb (html_special c)) s = true)
    in Hs.
  apply andb_prop in Hs as [Hc Hs]. rewrite htmlEscape_cons, (IH Hs).
  unfold html_special in Hc. apply negb_true_iff in Hc.
  apply orb_false_elim in Hc as [Hc H5]. apply orb_false_elim in Hc as [Hc H4].
  apply orb_false_elim in Hc as [Hc H3]. apply orb_false_elim in Hc as [H1 H2].
  unfold htmlEscape_char. by rewrite H1, H2, H3, H4, H5.
Qed.

(** X22. [htmlEscape] works character by character: the escape of a
    concatenation is the concatenation of the escapes, and the output is
    at least as long as the input. *)
Theorem X22_htmlEscape_app s1 s2 :
  htmlEscape (s1 +:+ s2) = htmlEscape s1 +:+ htmlEscape s2
  ∧ (String.length s1 ≤ String.length (htmlEscape s1))%nat.
Proof.
  split.
  - induction s1 as [|c s1 IH]; [done|].
    change (String c s1 +:+ s2) with (String c (s1 +:+ s2)).
    by rewrite !htmlEscape_cons, IH, string_app_assoc.
  - induction s1 as [|c s1 IH]; [done|].
    rewrite htmlEscape_cons, string_length_app. cbn [String.length].
    assert (1 ≤ String.length (htmlEscape_char c))%nat; [|lia].
    unfold htmlEscape_char.
    repeat (match goal with |- context [if ?b then _ else _] => destruct b end);
      cbn; lia.
Qed.

Lemma htmlEscape_char_inj c1 c2 r1 r2 :
  htmlEscape_char c1 +:+ r1 = htmlEscape_char c2 +:+ r2 → c1 = c2 ∧ r1 = r2.
Proof.
  unfold htmlEscape_char.
  repeat (match goal with
          | |- context [if Ascii.eqb ?c ?d then _ else _] =>
              let E := fresh "E" in
              destruct (Ascii.eqb c d) eqn:E; [apply Ascii.eqb_eq in E; subst c|]
          end);
    intros H; vm_compute in H; simplify_eq; try done;
    repeat match goal with
           | E : Ascii.eqb _ _ = false |- _ => vm_compute in E; try discriminate E; clear E
           end.
Qed.

Lemma htmlEscape_char_nonempty c r : htmlEscape_char c +:+ r ≠ "".
Proof.
  unfold htmlEscape_char.
  repeat (match goal with |- context [if ?b then _ else _] => destruct b end); done.
Qed.

(** X23. [htmlEscape] loses nothing: two inputs with the same output are
    the same input. *)
Theorem X23_htmlEscape_injective s1 s2 :
  htmlEscape s1 = htmlEscape s2 → s1 = s2.
Proof.
  revert s2. induction s1 as [|c1 s1 IH]; intros [|c2 s2]; rewrite ?htmlEscape_cons.
  - done.
  - intros H. symmetry in H. by apply htmlEscape_char_nonempty in H.
  - intros H. by apply htmlEscape_char_nonempty in H.
  - intros [-> H]%htmlEscape_char_inj. by rewrite (IH _ H).
Qed.

(** * The names the parser produces *)

Section Identifiers.

Context {double : Type}.
Variable stod : string → exception + double.

#[local] Existing Instances M_ret M_bind.
#[local] Open Scope nat_scope.

Lemma all_chars_push_back ok acc c :
  all_chars ok (push_back acc c) = all_chars ok acc && ok c.
Proof.
  unfold push_back. induction acc as [|a acc IH].
  - change ("" +:+ String c "") with (String c ""). cbn. by rewrite andb_true_r.
  - change (String a acc +:+ String c "") with (String a (acc +:+ String c "")).
    cbn [all_chars]. by rewrite IH, andb_assoc.
Qed.

Lemma scan_all_chars ok s pos acc :
  all_chars ok acc = true → all_chars ok (scan ok s pos acc).1 = true.
Proof.
  revert pos acc. induction s as [|c s IH]; intros pos acc Hacc; cbn [scan]; [done|].
  destruct (ok c) eqn:Hc; [|done].
  apply IH. by rewrite all_chars_push_back, Hacc, Hc.
Qed.

Lemma parseIdentifier_valid p s p' :
  parseIdentifier p = Ok s p' → valid_identifier s = true.
Proof.
  unfold parseIdentifier. intros H.
  apply bind_inv in H as (u & p1 & _ & H).
  apply bind_inv in H as (r & p2 & Hscan & H).
  destruct (String.eqb r "") eqn:Hr.
  - apply bind_inv in H as (n & p3 & _ & H). done.
  - injection H as <- <-. unfold valid_identifier. rewrite Hr. cbn [negb andb].
    unfold scan_while in Hscan.
    pose proof (scan_all_chars isIdentChar (rest p1) (pos_ p1) "" eq_refl) as Hall.
    destruct (scan isIdentChar (rest p1) (pos_ p1) "") as [r' p'']. by injection Hscan as <- <-.
Qed.

Lemma forallb_snoc {A} (f : A → bool) l x :
  forallb f (l ++ [x]) = forallb f l && f x.
Proof. by rewrite forallb_app; cbn; rewrite andb_true_r. Qed.

Lemma fields_loop_valid (parseField : M (@FieldSelection double)) fuel sels p out p' :
  (∀ q f q', parseField q = Ok f q' → valid_selection f = true) →
  forallb valid_selection sels = true →
  fields_loop parseField fuel sels p = Ok out p' →
  forallb valid_selection out = true.
Proof.
  intros Hpf. revert sels p. induction fuel as [|fuel IH]; intros sels p Hsels; [done|].
  cbn [fields_loop]. intros H.
  apply bind_inv in H as (c & p1 & _ & H).
  destruct (negb _ && negb _); [|by injection H as <- <-].
  apply bind_inv in H as (f & p2 & Hf & H).
  apply bind_inv in H as (u & p3 & _ & H).
  apply (IH _ _ ltac:(by rewrite forallb_snoc, Hsels, (Hpf _ _ _ Hf)) H).
Qed.

Lemma parseField_valid fuel p f p' :
  parseField stod fuel p = Ok f p' → valid_selection f = true.
Proof.
  revert p f p'. induction fuel as [|fuel IH]; intros p f p'; [done|].
  cbn [parseField]. intros H.
  apply bind_inv in H as (nameOrAlias & p1 & Hfirst%parseIdentifier_valid & H).
  apply bind_inv in H as (u2 & p2 & _ & H).
  apply bind_inv in H as (c3 & p3 & _ & H).
  apply bind_inv in H as ([field_alias field_name] & p4 & Hnames & H).
  apply bind_inv in H as (c5 & p5 & _ & H).
  apply bind_inv in H as (args & p6 & _ & H).
  apply bind_inv in H as (u7 & p7 & _ & H).
  apply bind_inv in H as (c8 & p8 & _ & H).
  apply bind_inv in H as (sels & p9 & Hsels & H).
  injection H as <- <-.
  assert (valid_identifier field_name = true
          ∧ (String.eqb field_alias "" || valid_identifier field_alias = true))
    as [Hname Halias].
  { destruct (Ascii.eqb c3 ":").
    - apply bind_inv in Hnames as (a & q1 & _ & Hnames).
      apply bind_inv in Hnames as (n & q2 & Hn%parseIdentifier_valid & Hnames).
      apply bind_inv in Hnames as (u & q3 & _ & Hnames).
      injection Hnames as <- <- <-. by rewrite Hfirst, orb_true_r.
    - by injection Hnames as <- <- <-. }
  cbn [valid_selection name alias selections]. rewrite Hname, Halias. cbn [andb].
  destruct (Ascii.eqb c8 "{"); [|by injection Hsels as <- <-].
  unfold parseSelectionSet in Hsels.
  apply bind_inv in Hsels as (u & q1 & _ & Hsels).
  apply bind_inv in Hsels as (u' & q2 & _ & Hsels).
  apply bind_inv in Hsels as (out & q3 & Hloop & Hsels).
  apply bind_inv in Hsels as (u'' & q4 & _ & Hsels).
  injection Hsels as <- <-.
  by apply (fields_loop_valid _ fuel [] q2 out q3 IH).
Qed.

(** X24. In a query the parser accepts, every selection, at every depth,
    has a name that is a non-empty word of letters, digits and
    underscores, and an alias that is such a word or is absent. *)
Theorem X24_selection_names_are_identifiers fuel queryStr parsed p' :
  parse_query stod fuel queryStr = Ok parsed p' →
  forallb valid_selection (top_selections parsed) = true.
Proof.
  unfold parse_query, parse. intros H.
  apply bind_inv in H as ([opType opName] & p1 & _ & H).
  apply bind_inv in H as (sels & p2 & Hsels & H). injection H as <- <-.
  unfold parseSelectionSet in Hsels.
  apply bind_inv in Hsels as (u & q1 & _ & Hsels).
  apply bind_inv in Hsels as (u' & q2 & _ & Hsels).
  apply bind_inv in Hsels as (out & q3 & Hloop & Hsels).
  apply bind_inv in Hsels as (u'' & q4 & _ & Hsels).
  injection Hsels as <- <-.
  by apply (fields_loop_valid _ fuel [] q2 out q3 (parseField_valid fuel)).
Qed.

End Identifiers.

(** * The further properties on concrete inputs *)

(** X1 at [{ user }] and at the array [[1, 2]]. *)
Lemma X1_witness :
  parse_query decimal_stod 20 "{ user }" = parse_query decimal_stod 9 "{ user }"
  ∧ parseValue decimal_stod 20 (at_start "[1, 2]") ≠ OutOfFuel.
Proof.
  assert (String.length "{ user }" < 20)%nat as Hq by (vm_compute; lia).
  assert (remaining (at_start "[1, 2]") < 20)%nat as Hp by (vm_compute; lia).
  destruct (X1_parser_terminates decimal_stod "{ user }" 20 (at_start "[1, 2]") Hq Hp)
    as (_ & Hsame & Hvalue & _).
  split; [exact Hsame|exact Hvalue].
Defined.


(** X5 at the argument [-42]. *)
Lemma X5_witness :
  parseValue decimal_stod 1 (mkParser (integer_text true "42" +:+ ")") 0) =
  Ok (JInt (-42)) (mkParser ")" 3).
Proof.
  assert ("42" ≠ "") as Hne by discriminate.
  assert (INT_MIN ≤ integer_value true "42" ≤ INT_MAX)%Z as Hrange.
  { split; intros H; vm_compute in H; discriminate H. }
  exact (X5_integer_literal decimal_stod 0 true "42" ")" 0 eq_refl Hne eq_refl
           eq_refl Hrange).
Defined.

(** X6 at the argument [-.5]. *)
Lemma X6_witness :
  parseValue decimal_stod 1 (mkParser (float_text true "" "5" +:+ ")") 0) =
  Ok (JFloat (Decimal true "" "5")) (mkParser ")" 3).
Proof.
  exact (X6_float_literal decimal_stod 0 true "" "5" ")" 0 eq_refl eq_refl
           (or_introl eq_refl) eq_refl).
Defined.

(** X7 at the bare word [free]. *)
Lemma X7_witness :
  parseValue decimal_stod 1 (mkParser ("free" +:+ ")") 0) =
  Ok (JBool false) (mkParser ")" 4).
Proof.
  exact (X7_bare_word_dispatch decimal_stod 0 "f"%char "ree" ")" 0 eq_refl eq_refl eq_refl).
Defined.

(** X8 at a blank text and at the text of the test ParseErrorReturnsError. *)
Lemma X8_witness :
  parse_query decimal_stod 0 "  " =
  Throw (runtime_error "Expected identifier at position 2")
  ∧ parse_query decimal_stod 0 ("" +:+ "this" +:+ " is not valid graphql {{{") =
    Throw (runtime_error "Expected 'query' or 'mutation', got 'this'").
Proof.
  assert ("this" ≠ "query") as Hq by discriminate.
  assert ("this" ≠ "mutation") as Hm by discriminate.
  split.
  - exact (proj1 (X8_header_errors decimal_stod 0) "  " eq_refl).
  - exact (proj2 (X8_header_errors decimal_stod 0) "" "t"%char "his"
             " is not valid graphql {{{" eq_refl eq_refl eq_refl Hq Hm).
Defined.

(** X9 at variable definitions with nested parentheses, and at a default
    value that holds a closing parenthesis: the skip ends inside the
    string, and the query is rejected. *)
Lemma X9_witness :
  skipBalanced "(" ")" (mkParser "(a(b(c))d) { user }" 7)
  = Ok tt (mkParser " { user }" 17)
  ∧ skipBalanced "(" ")" (mkParser ("($s: String = " +:+ String DQUOTE (String ")" (String DQUOTE ") { x }"))) 7)
    = Ok tt (mkParser (String DQUOTE ") { x }") 23)
  ∧ skipBalanced "(" ")" (mkParser "(a(b" 0) = Ok tt (mkParser "" 4)
  ∧ parse_query decimal_stod 40
      ("query Q($s: String = " +:+ String DQUOTE (String ")" (String DQUOTE ") { x }")))
    = Throw (runtime_error ("Expected '{' at position 24")).
Proof.
  split_and!.
  - apply (proj1 (X9_skipBalanced "a(b(c))d" " { user }" 7)).
    apply balanced_char; [reflexivity|].
    apply (balanced_pair "b(c)" "d").
    + apply balanced_char; [reflexivity|].
      apply (balanced_pair "c" ""); [|apply balanced_empty].
      apply balanced_char; [reflexivity|apply balanced_empty].
    + apply balanced_char; [reflexivity|apply balanced_empty].
  - assert (balanced ("$s: String = " +:+ String DQUOTE "")) as Hbody.
    { repeat (apply balanced_char; [reflexivity|]). apply balanced_empty. }
    pose proof (proj1 (X9_skipBalanced _ (String DQUOTE ") { x }") 7) Hbody) as Hskip.
    vm_compute in Hskip. vm_compute. exact Hskip.
  - apply (proj2 (X9_skipBalanced "a(b" "" 0)).
    apply (unclosed_open "a" "b"); [|apply unclosed_balanced].
    + apply balanced_char; [reflexivity|apply balanced_empty].
    + apply balanced_char; [reflexivity|apply balanced_empty].
  - vm_compute. reflexivity.
Defined.

(** X10 at a query, with a resolver added to the mutations. *)
Lemma X10_witness :
  execute decimal_stod (mutation "hello" demo_failing demo_schema) "{ hello }"
    (JObject ∅) (JObject ∅)
  = execute decimal_stod demo_schema "{ hello }" (JObject ∅) (JObject ∅).
Proof.
  assert (String.length "{ hello }" < 20)%nat as Hfuel by (vm_compute; lia).
  exact (proj1 (proj2 (X10_operation_registries decimal_stod demo_schema "{ hello }"
                         (JObject ∅) (JObject ∅) 20
                         (mkParsedQuery "query" "" [mkFieldSelection "hello" "" ∅ []])
                         (mkParser "" 9) "hello" demo_failing eq_refl Hfuel))
           eq_refl).
Defined.

(** X11 at [{ hello nope failing }]. *)
Lemma X11_witness :
  ∃ envelope,
    demo_execute demo_schema "{ hello nope failing }" =
    Response envelope
      [("hello", JObject ∅, JObject ∅); ("failing", JObject ∅, JObject ∅)]
    ∧ find_member envelope "errors" =
      Some (JArray [unknown_field_error "nope" "query";
                    resolver_error "Something went wrong" "failing"]).
Proof.
  assert (String.length "{ hello nope failing }" < 40)%nat as Hfuel
    by (vm_compute; lia).
  eassert (demo_execute demo_schema "{ hello nope failing }" = Response _ _) as Hrun.
  { vm_compute. reflexivity. }
  destruct (X11_calls_and_errors_in_order decimal_stod demo_schema
              "{ hello nope failing }" (JObject ∅) (JObject ∅) 40
              (mkParsedQuery "query" ""
                 [mkFieldSelection "hello" "" ∅ []; mkFieldSelection "nope" "" ∅ [];
                  mkFieldSelection "failing" "" ∅ []])
              (mkParser "" 22) _ _ eq_refl Hfuel Hrun) as (Hcalls & Herrors & _).
  eexists. split; [exact Hrun|exact Herrors].
Defined.

(** X12 at the selections [hello], [a: failing], [user(id: 42)]: the key
    [failing] is one of data, through the selection aliased [a]. *)
Lemma X12_witness :
  ∃ st',
    execute_fields (queryResolvers_ demo_schema) "query" (JObject ∅) (JObject ∅)
      [demo_field_hello; demo_field_failing; demo_field_user] demo_start = Some st'
    ∧ is_Some (data st' !! "failing").
Proof.
  eassert (execute_fields (queryResolvers_ demo_schema) "query" (JObject ∅) (JObject ∅)
             [demo_field_hello; demo_field_failing; demo_field_user] demo_start
           = Some _) as Hrun.
  { vm_compute. reflexivity. }
  eexists. split; [exact Hrun|].
  apply (proj2 (X12_data_keys _ _ _ _ _ _ _ "failing" Hrun)).
  right. exists demo_field_failing. split; [|reflexivity].
  apply list_elem_of_further, list_elem_of_here.
Defined.

(** X13 at the selection [hello]. *)
Lemma X13_witness :
  ∃ st,
    execute_fields (queryResolvers_ demo_schema) "query" (JObject ∅) (JObject ∅)
      [demo_field_hello] (mkExecution ∅ [] []) = Some st
    ∧ response st = JObject {[ "data" := JObject {[ "hello" := JString "world" ]} ]}.
Proof.
  exact (X13_single_leaf (queryResolvers_ demo_schema) "query" (JObject ∅) (JObject ∅)
           demo_field_hello demo_hello (JString "world") eq_refl eq_refl
           (or_introl eq_refl)).
Defined.

(** X15 at the selections [hello], [a: failing], [user(id: 42)]. *)
Lemma X15_witness :
  ∃ st',
    execute_fields (queryResolvers_ demo_schema) "query" (JObject ∅) (JObject ∅)
      [demo_field_hello; demo_field_failing; demo_field_user] demo_start = Some st'
    ∧ data st' !! "hello" = Some (JString "world").
Proof.
  eassert (execute_fields (queryResolvers_ demo_schema) "query" (JObject ∅) (JObject ∅)
             [demo_field_hello; demo_field_failing; demo_field_user] demo_start
           = Some _) as Hrun.
  { vm_compute. reflexivity. }
  assert (NoDup (omap (written_key (queryResolvers_ demo_schema) (JObject ∅) (JObject ∅))
                   [demo_field_hello; demo_field_failing; demo_field_user])) as Hnodup.
  { change (NoDup ["hello"; "failing"; "user"]).
    repeat (apply NoDup_cons; split;
            [intros Hin;
             repeat (apply elem_of_cons in Hin as [Hin|Hin]; [discriminate Hin|]);
             by apply elem_of_nil in Hin|]).
    apply NoDup_nil_2. }
  eexists. split; [exact Hrun|].
  exact (X15_distinct_keys_all_present _ _ _ _ _ _ _ Hrun Hnodup demo_field_hello
           demo_hello (list_elem_of_here _ _) eq_refl).
Defined.

(** X16 at a source that is a String. *)
Lemma X16_witness :
  filterFields (JString "x" : @json decimal) [mkFieldSelection "name" "" ∅ []]
    {[ "kept" := JNull ]}
  = {[ "kept" := JNull ]}.
Proof.
  exact (proj1 (proj2 (X16_projector_over_target (JString "x")
                         [mkFieldSelection "name" "" ∅ []] {[ "kept" := JNull ]}))
           eq_refl).
Defined.

(** X17 at the source [{name, id, secret}] and the selections [name],
    [id]: [secret] is no key of the output. *)
Lemma X17_witness :
  filterFields
    (JObject (<["name" := JString "User42"]>
             (<["id" := JInt 42]> {[ "secret" := JString "x" ]})) : @json decimal)
    [mkFieldSelection "name" "" ∅ []; mkFieldSelection "id" "" ∅ []] ∅ !! "secret"
  = None.
Proof.
  assert (∀ sel : @FieldSelection decimal,
            sel ∈ [mkFieldSelection "name" "" ∅ []; mkFieldSelection "id" "" ∅ []] →
            alias sel = "" ∧ selections sel = []) as Hleaf.
  { intros sel Hin. repeat (apply elem_of_cons in Hin as [->|Hin]; [done|]).
    by apply elem_of_nil in Hin. }
  rewrite (X17_leaf_projection_restricts _ _ "secret" Hleaf).
  apply decide_False. intros Hin. cbn in Hin.
  repeat (apply elem_of_cons in Hin as [Hin|Hin]; [discriminate Hin|]).
  by apply elem_of_nil in Hin.
Defined.

(** X18 at a request with an empty Object as body and a URL parameter. *)
Lemma X18_witness :
  ∃ res',
    createHandler decimal_stod (λ _, None) (λ _, "json") demo_schema
      (mkRequest (JObject ∅) "" {[ "query" := "{ hello }" ]})
      (mkResponse 200 ∅ false "")
    = Handled res' []
    ∧ statusCode_ res' = 400%Z.
Proof.
  destruct (X18_missing_query decimal_stod (λ _, None) (λ _, "json") demo_schema
              (mkRequest (JObject ∅) "" {[ "query" := "{ hello }" ]})
              (mkResponse 200 ∅ false "") ∅ eq_refl (or_introl (lookup_empty _)))
    as (res' & Hrun & Hstatus & _).
  exists res'. split; [exact Hrun|exact Hstatus].
Defined.

(** X19 at a request whose body holds the query [{ hello }], and at one
    whose query makes the resolver [echo] return the byte 0xFF. *)
Lemma X19_witness :
  createHandler decimal_stod (λ _, None) (λ _, "json") demo_schema
    (mkRequest (JObject {[ "query" := JString "{ hello }" ]}) "" ∅)
    (mkResponse 200 ∅ false "")
  = Handled
      (mkResponse 200 {[ "Content-Type" := "application/json; charset=utf-8" ]}
         true "json")
      [("hello", JObject ∅, JObject ∅)]
  ∧ createHandler decimal_stod (λ _, None) (λ _, "json") echo_schema
      (mkRequest (JObject {[ "query" := JString echo_query ]}) "" ∅)
      (mkResponse 200 ∅ false "")
    = HandlerThrows.
Proof.
  assert ("{ hello }" ≠ "") as Hne by discriminate.
  assert (echo_query ≠ "") as Hne' by discriminate.
  split.
  - pose proof (X19_handler_runs_execute decimal_stod (λ _, None) (λ _, "json")
                  demo_schema
                  (mkRequest (JObject {[ "query" := JString "{ hello }" ]}) "" ∅)
                  (mkResponse 200 ∅ false "")
                  {[ "query" := JString "{ hello }" ]} "{ hello }"
                  eq_refl eq_refl Hne) as H.
    cbv zeta in H. destruct H as (Hrun & _). rewrite Hrun. vm_compute. reflexivity.
  - pose proof (X19_handler_runs_execute decimal_stod (λ _, None) (λ _, "json")
                  echo_schema
                  (mkRequest (JObject {[ "query" := JString echo_query ]}) "" ∅)
                  (mkResponse 200 ∅ false "")
                  {[ "query" := JString echo_query ]} echo_query
                  eq_refl eq_refl Hne') as H.
    cbv zeta in H. destruct H as (_ & _ & _ & _ & Hthrows).
    apply (Hthrows
             (JObject {[ "data" := JObject {[ "echo" := JString (String BYTE_FF "") ]} ]})
             [("echo", JObject {[ "text" := JString (String BYTE_FF "") ]}, JObject ∅)]
             {[ "echo" := JString (String BYTE_FF "") ]} "echo" (String BYTE_FF ""));
      vm_compute; reflexivity.
Defined.

(** X20 at a null body with a raw body that parses to an array. *)
Lemma X20_witness :
  createHandler decimal_stod (λ _, Some (JArray [])) (λ _, "json") demo_schema
    (mkRequest JNull "[]" ∅) (mkResponse 200 ∅ false "")
  = HandlerThrows.
Proof.
  assert ("[]" ≠ "") as Hne by discriminate.
  exact (proj1 (proj2 (X20_null_body_paths decimal_stod (λ _, Some (JArray []))
                         (λ _, "json") demo_schema (mkRequest JNull "[]" ∅)
                         (mkResponse 200 ∅ false "") eq_refl))
           (JArray []) Hne eq_refl eq_refl).
Defined.

(** X21 at a text without special characters. *)
Lemma X21_witness : htmlEscape "plain text" = "plain text".
Proof.
  exact (proj2 (proj2 (proj2 (proj2 (X21_htmlEscape_safe "plain text")))) eq_refl).
Defined.

(** X23 at two texts with the same escape. *)
Lemma X23_witness : "<b>" = "<b>".
Proof. exact (X23_htmlEscape_injective "<b>" "<b>" eq_refl). Defined.

(** X24 at the query of the test AliasSupport. *)
Lemma X24_witness :
  forallb valid_selection
    [mkFieldSelection "user" "myUser" ({[ "id" := JInt 1 ]} : gmap string (@json decimal))
       [mkFieldSelection "name" "" ∅ []]] = true.
Proof.
  apply (X24_selection_names_are_identifiers decimal_stod 40
           "{ myUser: user(id: 1) { name } }"
           (mkParsedQuery "query" ""
              [mkFieldSelection "user" "myUser" {[ "id" := JInt 1 ]}
                 [mkFieldSelection "name" "" ∅ []]])
           (mkParser "" 32)).
  vm_compute. reflexivity.
Defined.
